(** * Duplicate-bug similarity checker

    A shallow embedding of
    [.agent/skills/detecting-duplicate-bugs/scripts/similarity_checker.py]:
    the tokenizer, the three similarity measures, the weighted scorer
    [calculate_bug_similarity], the ranking function [find_duplicates]
    and the report [format_results], with the library functions they
    call: [re.findall] for the one pattern used, [str.lower], [round],
    [list.sort], [difflib.SequenceMatcher.ratio], [str.join] and the
    format [.0%] of a float.  The function [main] reads its arguments and
    two files and prints: it is input and output around
    [find_duplicates] and [format_results] and is not embedded.

    Conventions of the embedding:
    - a Python [str] is a [string]; each character is read as the code point
      of the same number (0..255, the Latin-1 block of Unicode); the text
      of a report, which has characters beyond these, is the list of its
      code points;
    - a Python [dict] with string keys is a [gmap string _]; [d.get(k)] is
      the lookup [d !! k] and [d.get(k, v)] is [default v (d !! k)];
    - a Python [set] of strings is a [gset string];
    - a Python [int] that counts something is a [nat];
    - an exception is a value [Raise e] of the type [result];
    - a Python [float] is an element of a type [F] with the operations of
      the class [Arith].  The instance [float_arith] is IEEE binary64, as
      CPython computes; the instance [real_arith] reads the same program
      over the real numbers.  Statements that hold whatever the
      arithmetic are proved for every [F]; those that depend on rounding
      are proved for the reals and, where they survive rounding, for
      binary64. *)

From Stdlib Require Import ZArith QArith Qabs Reals Lra Lia Floats SpecFloat.
From Stdlib Require Uint63.
From Stdlib Require Import String Ascii List Bool Sorted Permutation.
From stdpp Require Import gmap strings list.

Local Open Scope nat_scope.

(** ** Characters and strings *)

Module Text.

Definition code (c : ascii) : N := N_of_ascii c.

Definition between (lo hi n : N) : bool := ((lo <=? n) && (n <=? hi))%N.

(** The character class [[a-zA-Z0-9]] of the pattern. *)
Definition is_ascii_alnum (c : ascii) : bool :=
  between 48 57 (code c) || between 65 90 (code c) || between 97 122 (code c).

(** [str.isalnum] on the code points 128..255: the letters, the
    superscript digits and the vulgar fractions of Latin-1. *)
Definition is_latin1_alnum (n : N) : bool :=
  (n =? 170)%N || (n =? 178)%N || (n =? 179)%N || (n =? 181)%N ||
  (n =? 185)%N || (n =? 186)%N || between 188 190 n ||
  between 192 214 n || between 216 246 n || between 248 255 n.

(** The class [\w] of a [str] pattern: alphanumeric or underscore. *)
Definition is_word (c : ascii) : bool :=
  is_ascii_alnum c || (code c =? 95)%N || is_latin1_alnum (code c).

(** [str.lower] on one character: [A-Z] and the upper-case letters of
    Latin-1 (all of 192..222 but the multiplication sign) move up by 32. *)
Definition lower_char (c : ascii) : ascii :=
  if between 65 90 (code c) || (between 192 222 (code c) && negb (code c =? 215)%N)
  then ascii_of_N (code c + 32)
  else c.

Fixpoint lower (s : string) : string :=
  match s with
  | EmptyString => EmptyString
  | String c s' => String (lower_char c) (lower s')
  end.

(** [\b]: the characters on the two sides differ in being word
    characters; outside the string counts as not a word character. *)
Definition is_w (c : option ascii) : bool :=
  match c with Some c => is_word c | None => false end.

Definition at_boundary (prev next : option ascii) : bool :=
  xorb (is_w prev) (is_w next).

(** [[a-zA-Z0-9]*\b] after at least one character was taken, [prev] being
    the last one: greedy, the longer match is tried first and the
    shorter one only when the longer fails.  The result is the text
    matched and the rest of the input. *)
Fixpoint match_more (prev : ascii) (rest : list ascii)
  : option (list ascii * list ascii) :=
  match rest with
  | [] => if at_boundary (Some prev) None then Some ([], []) else None
  | c :: rest' =>
      let stop :=
        if at_boundary (Some prev) (Some c) then Some ([], rest) else None in
      if is_ascii_alnum c then
        match match_more c rest' with
        | Some (m, r) => Some (c :: m, r)
        | None => stop
        end
      else stop
  end.

(** [\b[a-zA-Z0-9]+\b] tried at one position. *)
Definition match_here (prev : option ascii) (rest : list ascii)
  : option (list ascii * list ascii) :=
  match rest with
  | [] => None
  | c :: rest' =>
      if at_boundary prev (Some c) && is_ascii_alnum c then
        match match_more c rest' with
        | Some (m, r) => Some (c :: m, r)
        | None => None
        end
      else None
  end.

(** [re.findall]: scan from the left; after a match go on where it
    ended, otherwise one character further.  Every step takes at least
    one character, so a fuel of one more than the length is never used
    up ([findall_from_fuel]). *)
Fixpoint findall_from (fuel : nat) (prev : option ascii) (rest : list ascii)
  : list (list ascii) :=
  match fuel with
  | O => []
  | S fuel' =>
      match match_here prev rest with
      | Some (m, rest') => m :: findall_from fuel' (last m) rest'
      | None =>
          match rest with
          | [] => []
          | c :: rest' => findall_from fuel' (Some c) rest'
          end
      end
  end.

Definition findall (s : string) : list string :=
  let l := list_ascii_of_string s in
  string_of_list_ascii <$> findall_from (S (length l)) None l.

(** The scan with the fuel that [findall] gives it. *)
Definition tokens_of (prev : option ascii) (l : list ascii) : list (list ascii) :=
  findall_from (S (length l)) prev l.

(** The maximal runs of word characters of a text, left to right:
    the reference against which the pattern is described. *)
Fixpoint word_runs_from (cur : list ascii) (l : list ascii)
  : list (list ascii) :=
  match l with
  | [] => match cur with [] => [] | _ => [cur] end
  | c :: l' =>
      if is_word c then word_runs_from (cur ++ [c]) l'
      else match cur with
           | [] => word_runs_from [] l'
           | _ => cur :: word_runs_from [] l'
           end
  end.


(** The longest prefix of word characters, and what follows it. *)
Fixpoint run (l : list ascii) : list ascii :=
  match l with
  | [] => []
  | c :: l' => if is_word c then c :: run l' else []
  end.

Fixpoint after_run (l : list ascii) : list ascii :=
  match l with
  | [] => []
  | c :: l' => if is_word c then after_run l' else l
  end.

(** A run made of [[a-zA-Z0-9]] only. *)
Definition pure (w : list ascii) : bool := forallb is_ascii_alnum w.

End Text.

(** [tokenize]: [re.findall(r'\b[a-zA-Z0-9]+\b', text.lower())]. *)
Definition tokenize (text : string) : list string :=
  Text.findall (Text.lower text).

(** ** Arithmetic on scores *)

(** What the program does with floats: literals and conversions from
    [int] ([lit]), the four operations it uses, the three comparisons, and
    [round(x, 3)]. *)
Class Arith (F : Type) := {
  lit : Q -> F;
  fadd : F -> F -> F;
  fmul : F -> F -> F;
  fdiv : F -> F -> F;
  fsqrt : F -> F;
  feqb : F -> F -> bool;
  fleb : F -> F -> bool;
  fltb : F -> F -> bool;
  round3 : F -> F
}.

(** An [int] used where a float is expected. *)
Definition of_int {F} `{Arith F} (n : nat) : F := lit (inject_Z (Z.of_nat n)).

(** [x >= y] *)
Definition fgeb {F} `{Arith F} (x y : F) : bool := fleb y x.

(** *** Binary64 *)

Module Binary64.

Definition of_Z (s : bool) (n : Z) : spec_float :=
  match n with
  | Z0 => S754_zero s
  | Zpos p => S754_finite s p 0
  | Zneg p => S754_finite (negb s) p 0
  end.

(** The double nearest to the fraction [q] (ties to even), as [float]
    of an [int] and the reading of a decimal literal give it. *)
Definition of_Q (q : Q) : float :=
  SF2Prim (SFdiv prec emax (of_Z false (Qnum q)) (S754_finite false (Qden q) 0)).

(** The integer nearest to [n / d], ties to even ([0 <= n], [0 < d]). *)
Definition div_half_even (n d : Z) : Z :=
  let q := (n / d)%Z in
  let r := (n mod d)%Z in
  match (2 * r ?= d)%Z with
  | Lt => q
  | Gt => (q + 1)%Z
  | Eq => if Z.even q then q else (q + 1)%Z
  end.

(** [round(x, 3)]: the exact value of [x] times 1000 is rounded to an
    integer [n], ties to even, and the result is the double nearest to
    [n / 1000] with the sign of [x]; zeros, infinities and NaN are
    returned as they are. *)
Definition round3 (x : float) : float :=
  match Prim2SF x with
  | S754_finite s m e =>
      let n :=
        match e with
        | Zneg p => div_half_even (Zpos m * 1000) (Z.pow_pos 2 p)
        | _ => (Zpos m * 2 ^ e * 1000)%Z
        end in
      SF2Prim (SFdiv prec emax (of_Z s n) (S754_finite false 1000 0))
  | _ => x
  end.

(** [p] shifted left by [k] bits, and the 53-bit mantissa of the
    double of an integer [p] below [2^53]. *)
Definition shl (k : nat) (p : positive) : positive := Nat.iter k xO p.

Definition mant (p : positive) : positive :=
  shl (Z.to_nat (53 - Zpos (digits2_pos p))) p.

End Binary64.

#[export] Instance float_arith : Arith float := {|
  lit := Binary64.of_Q;
  fadd := PrimFloat.add;
  fmul := PrimFloat.mul;
  fdiv := PrimFloat.div;
  fsqrt := PrimFloat.sqrt;
  feqb := PrimFloat.eqb;
  fleb := PrimFloat.leb;
  fltb := PrimFloat.ltb;
  round3 := Binary64.round3
|}.

(** *** Exact arithmetic *)

Module Exact.

Definition floor (x : R) : Z := (up x - 1)%Z.

(** The integer nearest to [x], ties to even. *)
Definition round_half_even (x : R) : Z :=
  let f := floor x in
  let d := (x - IZR f)%R in
  if Rlt_dec d (1 / 2) then f
  else if Rlt_dec (1 / 2) d then (f + 1)%Z
  else if Z.even f then f else (f + 1)%Z.

Definition round3 (x : R) : R := (IZR (round_half_even (x * 1000)) / 1000)%R.

Definition eqb (x y : R) : bool := if Req_dec_T x y then true else false.
Definition leb (x y : R) : bool := if Rle_dec x y then true else false.
Definition ltb (x y : R) : bool := if Rlt_dec x y then true else false.

End Exact.

#[export] Instance real_arith : Arith R := {|
  lit := Q2R;
  fadd := Rplus;
  fmul := Rmult;
  fdiv := Rdiv;
  fsqrt := R_sqrt.sqrt;
  feqb := Exact.eqb;
  fleb := Exact.leb;
  fltb := Exact.ltb;
  round3 := Exact.round3
|}.

(** ** Sorting *)

(** [list.sort] is a stable sort that compares with [<] only; it is
    modelled by the stable insertion sort.  [sort(reverse=True)] reverses
    the list, sorts it, and reverses the result, which keeps equal keys
    in their original order. *)
Section Sort.
Context {A : Type} (lt : A -> A -> bool).

Fixpoint insert_sorted (x : A) (l : list A) : list A :=
  match l with
  | [] => [x]
  | y :: l' => if lt y x then y :: insert_sorted x l' else x :: l
  end.

Definition list_sort (l : list A) : list A := foldr insert_sorted [] l.

Definition list_sort_reverse (l : list A) : list A := rev (list_sort (rev l)).
End Sort.

(** ** difflib.SequenceMatcher(None, a, b) *)

Module Difflib.

Definition block : Type := nat * nat * nat.

(** Tuples compare lexicographically. *)
Definition block_ltb (x y : block) : bool :=
  let '(i1, j1, k1) := x in
  let '(i2, j2, k2) := y in
  (i1 <? i2) || ((i1 =? i2) && ((j1 <? j2) || ((j1 =? j2) && (k1 <? k2)))).

Section Matcher.
Variables a b : list ascii.

(** The positions of [c] in [b], in increasing order. *)
Fixpoint indices_from (c : ascii) (l : list ascii) (j : nat) : list nat :=
  match l with
  | [] => []
  | x :: l' =>
      if Ascii.eqb x c then j :: indices_from c l' (S j)
      else indices_from c l' (S j)
  end.

Definition indices (c : ascii) : list nat := indices_from c b 0.

(** [__chain_b]: with [isjunk = None] nothing is junk; with [autojunk]
    and [len(b) >= 200], an element that occurs more than
    [len(b) // 100 + 1] times is popular and is deleted from [b2j]. *)
Definition popular (c : ascii) : bool :=
  (200 <=? length b) && (length b / 100 + 1 <? length (indices c)).

(** [b2j.get(c, [])] *)
Definition b2j_get (c : ascii) : list nat :=
  if popular c then [] else indices c.

(** [a[i] == b[j]], both in range. *)
Definition same_at (i j : nat) : bool :=
  match a !! i, b !! j with
  | Some x, Some y => Ascii.eqb x y
  | _, _ => false
  end.

(** [j2len.get(j - 1, 0)]: no key is negative. *)
Definition j2lenget (j2len : gmap nat nat) (j : nat) : nat :=
  match j with
  | O => 0
  | S j' => default 0 (j2len !! j')
  end.

(** The loop over [j] of [find_longest_match], on row [i]; the state
    is [newj2len] and the best block so far. *)
Fixpoint row_loop (i blo bhi : nat) (j2len : gmap nat nat) (js : list nat)
    (st : gmap nat nat * block) : gmap nat nat * block :=
  match js with
  | [] => st
  | j :: js' =>
      if j <? blo then row_loop i blo bhi j2len js' st
      else if bhi <=? j then st
      else
        let '(newj2len, (besti, bestj, bestsize)) := st in
        let k := j2lenget j2len j + 1 in
        let best :=
          if bestsize <? k then (i + 1 - k, j + 1 - k, k)
          else (besti, bestj, bestsize) in
        row_loop i blo bhi j2len js' (<[j := k]> newj2len, best)
  end.

(** The loop over [i]; the state is [j2len] and the best block. *)
Definition rows_step (blo bhi : nat) (st : gmap nat nat * block) (i : nat)
  : gmap nat nat * block :=
  let '(j2len, best) := st in
  let js := match a !! i with Some c => b2j_get c | None => [] end in
  row_loop i blo bhi j2len js (∅, best).

Definition rows_loop (alo ahi blo bhi : nat) : gmap nat nat * block :=
  foldl (rows_step blo bhi) (∅, (alo, blo, 0)) (seq alo (ahi - alo)).

(** First [while]: extend the block to the left. *)
Fixpoint extend_left (alo blo besti bestj bestsize : nat) : block :=
  match besti, bestj with
  | S i', S j' =>
      if (alo <? besti) && (blo <? bestj) && same_at i' j'
      then extend_left alo blo i' j' (S bestsize)
      else (besti, bestj, bestsize)
  | _, _ => (besti, bestj, bestsize)
  end.

(** Second [while]: extend the block to the right; [d] is
    [ahi - (besti + bestsize)], so [besti + bestsize < ahi] is [0 < d]. *)
Fixpoint extend_right (d bhi besti bestj bestsize : nat) : block :=
  match d with
  | O => (besti, bestj, bestsize)
  | S d' =>
      if (bestj + bestsize <? bhi) && same_at (besti + bestsize) (bestj + bestsize)
      then extend_right d' bhi besti bestj (S bestsize)
      else (besti, bestj, bestsize)
  end.

(** The last two [while] loops extend by junk elements only, and
    nothing is junk: they do nothing. *)
Definition find_longest_match (alo ahi blo bhi : nat) : block :=
  let '(_, (besti, bestj, bestsize)) := rows_loop alo ahi blo bhi in
  let '(besti, bestj, bestsize) := extend_left alo blo besti bestj bestsize in
  extend_right (ahi - (besti + bestsize)) bhi besti bestj bestsize.

(** [get_matching_blocks].  The Python list [queue] is used as a
    stack ([pop] takes the last element); it is kept here with its
    last element first.  An iteration replaces a range by at most two
    disjoint proper sub-ranges, so the loop ends within [2 * len(a) + 1]
    iterations ([blocks_loop_total]) and the fuel is never used up. *)
Definition range : Type := nat * nat * nat * nat.

Fixpoint blocks_loop (fuel : nat) (queue : list range)
    (matching_blocks : list block) : option (list block) :=
  match queue with
  | [] => Some matching_blocks
  | (alo, ahi, blo, bhi) :: queue' =>
      match fuel with
      | O => None
      | S fuel' =>
          let '(i, j, k) := find_longest_match alo ahi blo bhi in
          if k =? 0 then blocks_loop fuel' queue' matching_blocks
          else
            let q1 :=
              if (alo <? i) && (blo <? j) then (alo, i, blo, j) :: queue'
              else queue' in
            let q2 :=
              if (i + k <? ahi) && (j + k <? bhi)
              then (i + k, ahi, j + k, bhi) :: q1
              else q1 in
            blocks_loop fuel' q2 (matching_blocks ++ [(i, j, k)])
      end
  end.

Definition found_blocks : list block :=
  let la := length a in
  match blocks_loop (2 * la + 1) [(0, la, 0, length b)] [] with
  | Some l => l
  | None => []
  end.

(** Adjacent equal blocks are merged into one. *)
Definition collapse_step (st : block * list block) (x : block)
  : block * list block :=
  let '((i1, j1, k1), non_adjacent) := st in
  let '(i2, j2, k2) := x in
  if (i1 + k1 =? i2) && (j1 + k1 =? j2) then ((i1, j1, k1 + k2), non_adjacent)
  else ((i2, j2, k2),
        if k1 =? 0 then non_adjacent else non_adjacent ++ [(i1, j1, k1)]).

Definition collapse (blocks : list block) : list block :=
  let '((i1, j1, k1), non_adjacent) :=
    foldl collapse_step ((0, 0, 0), []) blocks in
  if k1 =? 0 then non_adjacent else non_adjacent ++ [(i1, j1, k1)].

Definition get_matching_blocks : list block :=
  collapse (list_sort block_ltb found_blocks) ++ [(length a, length b, 0)].

(** [sum(triple[-1] for triple in self.get_matching_blocks())] *)
Definition matches : nat := sum_list ((fun t : block => t.2) <$> get_matching_blocks).

End Matcher.

(** [ratio], with [_calculate_ratio]:
    [2.0 * matches / length] if [length] is not zero, else [1.0]. *)
Definition ratio {F} `{Arith F} (a b : list ascii) : F :=
  let length := length a + length b in
  if length =? 0 then lit 1
  else fdiv (fmul (lit 2) (of_int (matches a b))) (of_int length).

(** *** Notions used to reason about the matcher *)

(** Every recorded length is at most [n]. *)
Definition vals_le (m : gmap nat nat) (n : nat) : Prop :=
  forall j v, m !! j = Some v -> v <= n.

(** The block lies in [a[alo:n]]. *)
Definition best_in (alo n : nat) (x : block) : Prop :=
  alo <= x.1.1 /\ x.1.1 + x.2 <= n.

(** The ranges still to be searched are weighted so that every
    iteration of [get_matching_blocks] lowers the total. *)
Definition range_ok (r : range) : Prop := r.1.1.1 <= r.1.1.2.
Definition range_weight (r : range) : nat := 2 * (r.1.1.2 - r.1.1.1) + 1.

(** What row [i] records at column [j]. *)
Definition row_insert (j2len : gmap nat nat) (m : gmap nat nat) (j : nat)
  : gmap nat nat :=
  <[j := j2lenget j2len j + 1]> m.

(** The length of the run of non-popular elements that ends just before
    position [i] of [s]. *)
Fixpoint np_run (s : list ascii) (i : nat) : nat :=
  match i with
  | O => 0
  | S i' =>
      match s !! i' with
      | Some c => if popular s c then 0 else S (np_run s i')
      | None => 0
      end
  end.

(** State of the loop over [i] when a sequence is matched against
    itself, before row [i]: the best block lies on the diagonal and is
    at least as long as every non-popular run seen so far. *)
Definition diag_inv (s : list ascii) (i : nat) (st : gmap nat nat * block) : Prop :=
  (forall j v, st.1 !! j = Some v -> v <= np_run s i /\ v <= np_run s (S j)) /\
  j2lenget st.1 i = np_run s i /\
  st.2.1.1 = st.2.1.2 /\
  st.2.1.1 + st.2.2 <= i /\
  (forall x, x <= i -> np_run s x <= st.2.2).

End Difflib.

(** ** The similarity checker *)

(** The only exception the functions below can raise. *)
Inductive exn : Type :=
| KeyError (key : string).

Inductive result (A : Type) : Type :=
| Ok (x : A)
| Raise (e : exn).
Arguments Ok {A} x.
Arguments Raise {A} e.

(** Sequencing: [x ← r; k] runs [k] on the value of [r] and passes an
    exception on. *)
#[export] Instance result_bind : MBind result := fun A B k r =>
  match r with
  | Ok x => k x
  | Raise e => Raise e
  end.

(** The [breakdown] dictionary built by [calculate_bug_similarity]. *)
Record breakdown (F : Type) : Type := Breakdown {
  bd_summary : F;
  bd_description : F;
  bd_component : F;
  bd_steps : F;
  bd_overall : F
}.
Arguments Breakdown {F}.
Arguments bd_summary {F}.
Arguments bd_description {F}.
Arguments bd_component {F}.
Arguments bd_steps {F}.
Arguments bd_overall {F}.

(** The dictionary that [find_duplicates] appends for a retained candidate. *)
Record match_entry (F : Type) : Type := Match {
  m_key : string;
  m_summary : string;
  m_similarity : F;
  m_breakdown : breakdown F;
  m_url : string
}.
Arguments Match {F}.
Arguments m_key {F}.
Arguments m_summary {F}.
Arguments m_similarity {F}.
Arguments m_breakdown {F}.
Arguments m_url {F}.

Section Checker.
Context {F : Type} `{Arith F}.

(** [not l] for a list. *)
Definition is_nil {A} (l : list A) : bool :=
  match l with [] => true | _ => false end.

(** [tokens.count(word)] *)
Definition count (tokens : list string) (word : string) : nat :=
  length (filter (fun t => t = word) tokens).

(** The iteration order of the set [vocab] is not fixed by Python, but
    both vectors are built in the same order and only sums over all
    coordinates are taken, so the order of [elements] does as well as
    any other. *)
Definition cosine_similarity (text1 text2 : string) : F :=
  let tokens1 := tokenize text1 in
  let tokens2 := tokenize text2 in
  if is_nil tokens1 || is_nil tokens2 then lit 0
  else
    let vocab : gset string := list_to_set tokens1 ∪ list_to_set tokens2 in
    let vec1 := count tokens1 <$> elements vocab in
    let vec2 := count tokens2 <$> elements vocab in
    let dot_product := sum_list (zip_with Nat.mul vec1 vec2) in
    let magnitude1 := fsqrt (of_int (sum_list ((fun a => a * a) <$> vec1))) in
    let magnitude2 := fsqrt (of_int (sum_list ((fun b => b * b) <$> vec2))) in
    if feqb magnitude1 (of_int 0) || feqb magnitude2 (of_int 0) then lit 0
    else fdiv (of_int dot_product) (fmul magnitude1 magnitude2).

Definition sequence_similarity (text1 text2 : string) : F :=
  Difflib.ratio (list_ascii_of_string (Text.lower text1))
                (list_ascii_of_string (Text.lower text2)).

(** [int / int] is the quotient of the two integers, rounded once. *)
Definition keyword_overlap (summary1 summary2 : string) : F :=
  let tokens1 : gset string := list_to_set (tokenize summary1) in
  let tokens2 : gset string := list_to_set (tokenize summary2) in
  if (size tokens1 =? 0) || (size tokens2 =? 0) then lit 0
  else
    let intersection := tokens1 ∩ tokens2 in
    let union := tokens1 ∪ tokens2 in
    lit (Z.of_nat (size intersection) # Pos.of_nat (size union)).

Definition default_weights : gmap string F :=
  <["summary" := lit 0.40]> (<["description" := lit 0.40]>
    (<["component" := lit 0.10]> (<["steps" := lit 0.10]> ∅))).

(** [weights[key]] *)
Definition weight (weights : gmap string F) (key : string) : result F :=
  match weights !! key with
  | Some w => Ok w
  | None => Raise (KeyError key)
  end.

(** [d.get(key, '')] *)
Definition get (d : gmap string string) (key : string) : string :=
  default ""%string (d !! key).

Definition calculate_bug_similarity (new_bug existing_bug : gmap string string)
    (weights : option (gmap string F)) : result (F * breakdown F) :=
  (* weights = weights or {...}: [None] and the empty dict are falsy *)
  let weights :=
    match weights with
    | Some w => if size w =? 0 then default_weights else w
    | None => default_weights
    end in
  let summary_cos :=
    cosine_similarity (get new_bug "summary") (get existing_bug "summary") in
  let summary_key :=
    keyword_overlap (get new_bug "summary") (get existing_bug "summary") in
  let summary_sim := fdiv (fadd summary_cos summary_key) (of_int 2) in
  let desc_sim :=
    cosine_similarity (get new_bug "description") (get existing_bug "description") in
  let comp_sim :=
    if bool_decide (new_bug !! "component" = existing_bug !! "component")
    then lit 1 else lit 0 in
  let steps_sim :=
    sequence_similarity (get new_bug "steps_to_reproduce")
                        (get existing_bug "steps_to_reproduce") in
  w_summary ← weight weights "summary";
  w_description ← weight weights "description";
  w_component ← weight weights "component";
  w_steps ← weight weights "steps";
  let overall :=
    fadd (fadd (fadd (fmul summary_sim w_summary) (fmul desc_sim w_description))
               (fmul comp_sim w_component))
         (fmul steps_sim w_steps) in
  let breakdown :=
    Breakdown (round3 summary_sim) (round3 desc_sim) (round3 comp_sim)
              (round3 steps_sim) (round3 overall) in
  Ok (overall, breakdown).

(** The loop of [find_duplicates] over the candidates. *)
Fixpoint scan (new_bug : gmap string string) (threshold : F)
    (candidates : list (gmap string string)) (matches : list (match_entry F))
  : result (list (match_entry F)) :=
  match candidates with
  | [] => Ok matches
  | candidate :: candidates' =>
      '(score, breakdown) ← calculate_bug_similarity new_bug candidate None;
      scan new_bug threshold candidates'
        (if fgeb score threshold
         then matches ++ [Match (default "UNKNOWN"%string (candidate !! "key"))
                                (get candidate "summary") score breakdown
                                (get candidate "url")]
         else matches)
  end.

(** [matches.sort(key=lambda x: x['similarity'], reverse=True)] *)
Definition by_similarity (x y : match_entry F) : bool :=
  fltb (m_similarity x) (m_similarity y).

Definition find_duplicates (new_bug : gmap string string)
    (candidates : list (gmap string string)) (threshold : F)
  : result (list (match_entry F)) :=
  matches ← scan new_bug threshold candidates [];
  Ok (list_sort_reverse by_similarity matches).

(** The default of the parameter [threshold]. *)
Definition default_threshold : F := lit 0.70.

End Checker.

(** ** Closed forms used in the statements *)

Section Views.
Context {F : Type} `{Arith F}.

(** The four field similarities of a pair of reports. *)
Definition summary_sim (new_bug existing_bug : gmap string string) : F :=
  fdiv (fadd (cosine_similarity (get new_bug "summary") (get existing_bug "summary"))
             (keyword_overlap (get new_bug "summary") (get existing_bug "summary")))
       (of_int 2).

Definition desc_sim (new_bug existing_bug : gmap string string) : F :=
  cosine_similarity (get new_bug "description") (get existing_bug "description").

Definition comp_sim (new_bug existing_bug : gmap string string) : F :=
  if bool_decide (new_bug !! "component" = existing_bug !! "component")
  then lit 1 else lit 0.

Definition steps_sim (new_bug existing_bug : gmap string string) : F :=
  sequence_similarity (get new_bug "steps_to_reproduce")
                      (get existing_bug "steps_to_reproduce").

(** The weighted sum, in the order in which Python adds it up. *)
Definition overall_with (ws wd wc wst : F)
    (new_bug existing_bug : gmap string string) : F :=
  fadd (fadd (fadd (fmul (summary_sim new_bug existing_bug) ws)
                   (fmul (desc_sim new_bug existing_bug) wd))
             (fmul (comp_sim new_bug existing_bug) wc))
       (fmul (steps_sim new_bug existing_bug) wst).

Definition breakdown_with (ws wd wc wst : F)
    (new_bug existing_bug : gmap string string) : breakdown F :=
  Breakdown (round3 (summary_sim new_bug existing_bug))
            (round3 (desc_sim new_bug existing_bug))
            (round3 (comp_sim new_bug existing_bug))
            (round3 (steps_sim new_bug existing_bug))
            (round3 (overall_with ws wd wc wst new_bug existing_bug)).

(** Score and breakdown under the default weights. *)
Definition score (new_bug existing_bug : gmap string string) : F :=
  overall_with (lit 0.40) (lit 0.40) (lit 0.10) (lit 0.10) new_bug existing_bug.

Definition score_breakdown (new_bug existing_bug : gmap string string)
  : breakdown F :=
  breakdown_with (lit 0.40) (lit 0.40) (lit 0.10) (lit 0.10) new_bug existing_bug.

(** The entry of a candidate, and the entries kept for a threshold, in
    the order of the candidates. *)
Definition entry (new_bug candidate : gmap string string) : match_entry F :=
  Match (default "UNKNOWN"%string (candidate !! "key")) (get candidate "summary")
        (score new_bug candidate) (score_breakdown new_bug candidate)
        (get candidate "url").

Definition retained (new_bug : gmap string string) (threshold : F)
    (candidates : list (gmap string string)) : list (match_entry F) :=
  entry new_bug <$>
    filter (fun c => fgeb (score new_bug c) threshold = true) candidates.

(** The matches whose score equals [s]. *)
Definition tied (s : F) (ms : list (match_entry F)) : list (match_entry F) :=
  filter (fun m => feqb (m_similarity m) s = true) ms.

End Views.

(** The laws of the comparisons that ranking relies on; they hold for
    binary64, NaN included, and for the reals. *)
Class ArithOrder (F : Type) `{Arith F} : Prop := {
  fleb_trans : forall x y z : F, fleb x y = true -> fleb y z = true -> fleb x z = true;
  fltb_asym : forall x y : F, fltb x y = true -> fltb y x = false;
  feqb_fltb : forall x y s : F, feqb x s = true -> feqb y s = true -> fltb x y = false
}.

(** ** Sample data *)

Module Samples.
Local Open Scope string_scope.

(** A report with all six fields. *)
Definition report (key summary description component steps : string)
  : gmap string string :=
  <["key" := key]> (<["url" := "https://jira.example/browse/" ++ key]>
    (<["summary" := summary]> (<["description" := description]>
      (<["component" := component]> (<["steps_to_reproduce" := steps]> ∅))))).

Definition new_report : gmap string string :=
  report "NEW" "Login page crashes" "timeout" "UI" "open".

Definition near_miss : gmap string string :=
  report "BUG-7" "Login page crashes" "timeout error" "API"
         "go to the settings page and open the list...".

Definition twin_b : gmap string string :=
  report "B" "Login page crashes" "timeout" "API" "open".

Definition twin_a : gmap string string :=
  report "A" "Login page crashes" "timeout" "API" "open".

(** The weights as a dictionary. *)
Definition weights_dict {F} (ws wd wc wst : F) : gmap string F :=
  <["summary" := ws]> (<["description" := wd]>
    (<["component" := wc]> (<["steps" := wst]> ∅))).

(** The validation the specification asks for: the four weights sum to
    1 within [1e-6]. *)
Definition sum_within_tolerance (ws wd wc wst : Q) : bool :=
  Qle_bool (Qabs (ws + wd + wc + wst - 1)) (1 # 1000000).
End Samples.
Import Samples.

(** ** Reports on which rounding shows *)

(** The squared norm of the counts of ["a b"] is 2, and the square of the
    double nearest to its root is not 2: the cosine of the text with
    itself is [0.9999999999999998] on binary64.  With ["a b a b a b"]
    against ["a b"] it is [1.0]. *)
Definition probe_new : gmap string string :=
  report "NEW" "a b" "a b" "UI" "open".

Definition probe_same : gmap string string :=
  report "P" "a b" "a b" "UI" "open".

Definition probe_tripled : gmap string string :=
  report "R" "a b" "a b a b a b" "UI" "open".

Definition probe_other : gmap string string :=
  report "T" "a b" "a b" "API" "open".

(** Two identical reports of three words: the squared norm of the counts
    of ["a b c"] is 3, and on binary64 the cosine of the text with itself
    is [1.0000000000000002]. *)
Definition probe_words_new : gmap string string :=
  report "NEW" "a b c" "a b c" "UI" "open".

Definition probe_words : gmap string string :=
  report "Q" "a b c" "a b c" "UI" "open".

(** Steps of which one character in thirty-two matches: their similarity
    is [0.0625], halfway between [0.062] and [0.063]. *)
Definition probe_steps_new : gmap string string :=
  report "NEW" "x" "x" "UI" "a".

Definition probe_steps : gmap string string :=
  report "S" "x" "x" "UI" "abbbbbbbbbbbbbbbbbbbbbbbbbbbbbb".

(** ** Notions used in the further properties *)

(** The characters a token is made of: [[a-z0-9]]. *)
Definition is_lower_alnum (c : ascii) : bool :=
  Text.between 48 57 (Text.code c) || Text.between 97 122 (Text.code c).

(** [set(tokenize(text))] *)
Definition token_set (text : string) : gset string := list_to_set (tokenize text).

(** The number of elements covered by a list of matching blocks. *)
Definition blocks_size (blocks : list Difflib.block) : nat :=
  sum_list ((fun t : Difflib.block => t.2) <$> blocks).

(** The keys of [weights] in the order in which the weighted sum reads them. *)
Definition weight_keys : list string :=
  ["summary"; "description"; "component"; "steps"]%string.

(** The first key that a dictionary lacks. *)
Definition first_missing {F} (w : gmap string F) : option string :=
  List.find (fun k => bool_decide (w !! k = None)) weight_keys.

(** Scores that passed a threshold are comparable: none of them is a NaN. *)
Class ArithTotal (F : Type) `{Arith F} : Prop := {
  fleb_total : forall t x y : F,
    fleb t x = true -> fleb t y = true -> fltb x y = false -> fleb y x = true
}.

(** ** The report *)

(** [format_results] writes characters outside Latin-1, so the text it
    returns is kept as the list of its code points. *)
Module Report.

Definition text : Type := list N.

(** A [str] of the embedding as code points. *)
Definition of_string (s : string) : text := Text.code <$> list_ascii_of_string s.

(** [sep.join(lines)] *)
Definition join (sep : text) (lines : list text) : text :=
match lines with
| [] => []
| l :: ls => l ++ concat ((fun x => sep ++ x) <$> ls)
end.

(** The decimal digits of an integer. *)
Fixpoint uint_text (u : Decimal.uint) : text :=
match u with
| Decimal.Nil => []
| Decimal.D0 u => 48%N :: uint_text u
| Decimal.D1 u => 49%N :: uint_text u
| Decimal.D2 u => 50%N :: uint_text u
| Decimal.D3 u => 51%N :: uint_text u
| Decimal.D4 u => 52%N :: uint_text u
| Decimal.D5 u => 53%N :: uint_text u
| Decimal.D6 u => 54%N :: uint_text u
| Decimal.D7 u => 55%N :: uint_text u
| Decimal.D8 u => 56%N :: uint_text u
| Decimal.D9 u => 57%N :: uint_text u
end.

Definition decimal (n : Z) : text := uint_text (N.to_uint (Z.to_N n)).

(** [format(x, '.0%')]: [x] is multiplied by 100 as a float, and the
  exact value of the product is rounded to an integer, ties to even;
  the sign is kept, also on a zero. *)
Definition percent (x : float) : text :=
let sign (s : bool) : text := if s then [45%N] else [] in
match Prim2SF (PrimFloat.mul x (Binary64.of_Q 100)) with
| S754_nan => of_string "nan%"
| S754_infinity s => sign s ++ of_string "inf%"
| S754_zero s => sign s ++ of_string "0%"
| S754_finite s m e =>
    let n :=
      match e with
      | Zneg p => Binary64.div_half_even (Zpos m) (Z.pow_pos 2 p)
      | _ => (Zpos m * 2 ^ e)%Z
      end in
    sign s ++ decimal n ++ of_string "%"
end.

(** The line of a match:
  [f"   • {key}: \"{summary[:50]}...\" ({similarity:.0%} match)"]. *)
Definition match_line (m : match_entry float) : text :=
of_string "   " ++ [8226%N] ++ of_string " " ++ of_string (m_key m) ++
of_string ": " ++ [34%N] ++ take 50 (of_string (m_summary m)) ++
of_string "..." ++ [34%N] ++ of_string " (" ++ percent (m_similarity m) ++
of_string " match)".

Definition url_line (m : match_entry float) : text :=
of_string "     URL: " ++ of_string (m_url m).

Definition high_matches (matches : list (match_entry float)) (threshold_high : float)
: list (match_entry float) :=
filter (fun m => fgeb (m_similarity m) threshold_high = true) matches.

Definition possible_matches (matches : list (match_entry float)) (threshold_high : float)
: list (match_entry float) :=
filter (fun m => fltb (m_similarity m) threshold_high = true) matches.

Definition no_duplicate : text :=
[9989%N] ++ of_string " No duplicate found - Safe to create new bug ticket.".

(** The last line, chosen from the two tiers. *)
Definition recommendation (high possible : list (match_entry float)) : text :=
match high, possible with
| m :: _, _ =>
    of_string "   " ++ [8594%N] ++ of_string " Review " ++ of_string (m_key m) ++
    of_string " before creating new bug."
| [], _ :: _ =>
    of_string "   " ++ [8594%N] ++
    of_string " Check possible duplicates or add more details to differentiate."
| [], [] =>
    of_string "   " ++ [8594%N] ++
    of_string " No duplicates found. Proceed with ticket creation."
end.

Definition report_lines (matches : list (match_entry float)) (threshold_high : float)
: list text :=
let high := high_matches matches threshold_high in
let possible := possible_matches matches threshold_high in
[of_string "Duplicate Check Results:"; replicate 50 61%N] ++
(if is_nil high then []
 else ([10%N; 128308%N] ++ of_string " HIGH PROBABILITY DUPLICATES:") ::
      concat ((fun m => [match_line m; url_line m]) <$> high)) ++
(if is_nil possible then []
 else ([10%N; 128993%N] ++ of_string " POSSIBLE DUPLICATES (Review recommended):") ::
      (match_line <$> possible)) ++
[[10%N; 128203%N] ++ of_string " Recommendation:"; recommendation high possible].

End Report.

Definition format_results (matches : list (match_entry float)) (threshold_high : float)
  : Report.text :=
  if is_nil matches then Report.no_duplicate
  else Report.join [10%N] (Report.report_lines matches threshold_high).

(** The default of the parameter [threshold_high]. *)
Definition default_threshold_high : float := Binary64.of_Q 0.85.

(** ** The cosine of a text with itself on binary64 *)

(** The squared norm of the vector of counts of a text. *)
Definition squared_norm (text : string) : nat :=
  let tokens := tokenize text in
  let vocab : gset string := list_to_set tokens ∪ list_to_set tokens in
  sum_list ((fun a => a * a) <$> (count tokens <$> elements vocab)).

Module Sweep.

(** What [cosine_similarity] computes for a text against itself, from the
  double [x] of the squared norm of its counts. *)
Definition self_cosine (x : float) : float :=
let magnitude := PrimFloat.sqrt x in
if PrimFloat.eqb magnitude (Binary64.of_Q (0 # 1)) ||
   PrimFloat.eqb magnitude (Binary64.of_Q (0 # 1))
then Binary64.of_Q 0
else PrimFloat.div x (PrimFloat.mul magnitude magnitude).

(** The four doubles next to 1 that it takes. *)
Definition near_one : list float :=
[1; 0x1.ffffffffffffep-1; 0x1.fffffffffffffp-1; 0x1.0000000000001p+0]%float.

Definition is_near_one (c : float) : bool := existsb (PrimFloat.eqb c) near_one.

(** The check of all squared norms from 1 to [k], counted with a machine
  integer. *)
Definition one : PrimInt63.int := Eval vm_compute in Uint63.of_Z 1.

Definition sweep (k : positive) : PrimInt63.int * bool :=
Pos.iter (fun st => (PrimInt63.add st.1 one,
                     st.2 && is_near_one (self_cosine (PrimFloat.of_uint63 st.1))))
         (one, true) k.

(** A text of at most a thousand tokens has a squared norm within this bound. *)
Definition bound : positive := 1000000.

End Sweep.

(** * Facts *)

(** ** The tokenizer *)

Module TextFacts.
Import Text.

Lemma alnum_is_word c : is_ascii_alnum c = true -> is_word c = true.
Proof. unfold is_word. intros ->. reflexivity. Qed.

Lemma run_after_run l : run l ++ after_run l = l.
Proof.
  induction l as [|c l IH]; simpl; [done|].
  destruct (is_word c); simpl; [by rewrite IH | done].
Qed.

Lemma after_run_length l : length (after_run l) <= length l.
Proof.
  induction l as [|c l IH]; simpl; [lia|].
  destruct (is_word c); simpl; lia.
Qed.

(** With an alphanumeric character before it, [match_more] takes the
    rest of the word run when that is alphanumeric throughout, and
    fails otherwise: between two word characters there is no boundary
    to stop at. *)
Lemma match_more_run p l :
  is_ascii_alnum p = true ->
  match_more p l = if pure (run l) then Some (run l, after_run l) else None.
Proof.
  revert p. induction l as [|c l IH]; intros p Hp.
  - simpl. unfold at_boundary. simpl. by rewrite (alnum_is_word p Hp).
  - simpl. unfold at_boundary. simpl. rewrite (alnum_is_word p Hp).
    destruct (is_ascii_alnum c) eqn:Hc.
    + rewrite (alnum_is_word c Hc). simpl. rewrite Hc. simpl.
      rewrite (IH c Hc). by destruct (pure (run l)).
    + destruct (is_word c) eqn:Hw; simpl; [by rewrite Hc | done].
Qed.

Lemma match_here_run prev c l :
  is_w prev = false -> is_word c = true ->
  match_here prev (c :: l) =
    if pure (run (c :: l)) then Some (run (c :: l), after_run (c :: l)) else None.
Proof.
  intros Hprev Hc. simpl. unfold at_boundary. rewrite Hprev. simpl. rewrite Hc. simpl.
  destruct (is_ascii_alnum c) eqn:Ha; [|done].
  rewrite (match_more_run c l Ha). by destruct (pure (run l)).
Qed.

Lemma match_here_inside prev c l :
  is_w prev = true -> is_word c = true -> match_here prev (c :: l) = None.
Proof. intros Hprev Hc. simpl. unfold at_boundary. simpl. by rewrite Hprev, Hc. Qed.

Lemma match_here_nonword prev c l :
  is_word c = false -> match_here prev (c :: l) = None.
Proof.
  intros Hc. simpl. destruct (is_ascii_alnum c) eqn:Ha.
  - by rewrite (alnum_is_word c Ha) in Hc.
  - by rewrite andb_false_r.
Qed.

Lemma match_here_split prev l m r :
  match_here prev l = Some (m, r) -> l = m ++ r /\ m <> [].
Proof.
  destruct l as [|c l]; [done|]. 
  destruct (is_word c) eqn:Hc; [|by rewrite match_here_nonword].
  destruct (is_w prev) eqn:Hp; [by rewrite match_here_inside|].
  rewrite match_here_run by done.
  destruct (pure (run (c :: l))); [|done].
  intros [= <- <-]. split; [symmetry; exact (run_after_run (c :: l))|]. simpl. by rewrite Hc.
Qed.

(** The fuel of [findall_from] does not matter once it exceeds the
    length of the input. *)
Lemma findall_from_fuel_eq f1 f2 prev l :
  length l < f1 -> length l < f2 ->
  findall_from f1 prev l = findall_from f2 prev l.
Proof.
  revert f2 prev l. induction f1 as [|f1 IH]; intros f2 prev l H1 H2; [lia|].
  destruct f2 as [|f2]; [lia|]. cbn [findall_from].
  destruct (match_here prev l) as [[m r]|] eqn:Hm.
  - apply match_here_split in Hm as [-> Hne].
    rewrite length_app in *.
    assert (0 < length m) by (destruct m; [done | simpl; lia]).
    f_equal. apply IH; lia.
  - destruct l as [|c l]; [done|]. simpl in H1, H2. apply IH; lia.
Qed.

Lemma findall_from_fuel fuel prev l :
  length l < fuel ->
  findall_from fuel prev l = findall_from (S (length l)) prev l.
Proof. intros. apply findall_from_fuel_eq; lia. Qed.

Lemma tokens_of_nil prev : tokens_of prev [] = [].
Proof. reflexivity. Qed.

Lemma tokens_of_skip prev c l :
  match_here prev (c :: l) = None ->
  tokens_of prev (c :: l) = tokens_of (Some c) l.
Proof.
  intros Hm. unfold tokens_of. cbn [findall_from length]. rewrite Hm.
  reflexivity.
Qed.

Lemma tokens_of_match prev l m r :
  match_here prev l = Some (m, r) ->
  tokens_of prev l = m :: tokens_of (last m) r.
Proof.
  intros Hm. unfold tokens_of. cbn [findall_from]. rewrite Hm.
  apply match_here_split in Hm as [-> Hne]. f_equal.
  apply findall_from_fuel. rewrite length_app.
  destruct m; [done | simpl; lia].
Qed.

(** After a word character the scan skips to the end of the run. *)
Lemma tokens_of_inside prev l :
  is_w prev = true -> tokens_of prev l = tokens_of None (after_run l).
Proof.
  revert prev. induction l as [|c l IH]; intros prev Hp; [done|].
  simpl. destruct (is_word c) eqn:Hc.
  - rewrite tokens_of_skip by (by apply match_here_inside).
    apply IH. done.
  - rewrite !tokens_of_skip by (by apply match_here_nonword). done.
Qed.

Lemma last_run_word c l : is_word c = true -> is_w (last (run (c :: l))) = true.
Proof.
  revert c. induction l as [|d l IH]; intros c Hc; simpl; rewrite Hc.
  - done.
  - destruct (is_word d) eqn:Hd.
    + specialize (IH d Hd). simpl in IH. rewrite Hd in IH. done.
    + done.
Qed.

Lemma after_run_idemp l : after_run (after_run l) = after_run l.
Proof.
  induction l as [|c l IH]; simpl; [done|].
  destruct (is_word c) eqn:Hc; [done|]. simpl. by rewrite Hc.
Qed.

Lemma word_runs_from_word cur c l :
  is_word c = true ->
  word_runs_from cur (c :: l) =
    (cur ++ run (c :: l)) :: word_runs_from [] (after_run (c :: l)).
Proof.
  revert cur c. induction l as [|d l IH]; intros cur c Hc.
  - simpl. rewrite Hc. simpl. by destruct cur.
  - cbn [word_runs_from]. rewrite Hc.
    destruct (is_word d) eqn:Hd.
    + specialize (IH (cur ++ [c]) d Hd). cbn [word_runs_from] in IH.
      rewrite Hd in IH. rewrite IH.
      cbn [run after_run]. rewrite Hc, Hd. by rewrite <- app_assoc.
    + cbn [run after_run]. rewrite Hc, Hd.
      destruct (cur ++ [c]) eqn:E; [by destruct cur|].
      rewrite <- E. simpl. by rewrite Hd.
Qed.

Lemma tokens_of_runs prev l :
  is_w prev = false ->
  tokens_of prev l = filter (fun w => pure w = true) (word_runs_from [] l).
Proof.
  remember (length l) as n eqn:Hn.
  revert prev l Hn.
  induction (lt_wf n) as [n _ IH]. intros prev l -> Hp.
  destruct l as [|c l]; [done|].
  destruct (is_word c) eqn:Hc.
  - rewrite word_runs_from_word by done. rewrite app_nil_l.
    pose proof (after_run_length l) as Hlen.
    assert (after_run (c :: l) = after_run l) as Hafter by (simpl; by rewrite Hc).
    pose proof (match_here_run prev c l Hp Hc) as Hm.
    pose proof (last_run_word c l Hc) as Hlast.
    remember (run (c :: l)) as w eqn:Hw.
    rewrite Hafter in *.
    rewrite filter_cons.
    destruct (decide (pure w = true)) as [Hpure|Hpure].
    + rewrite Hpure in Hm.
      rewrite (tokens_of_match prev _ w (after_run l) Hm).
      f_equal. rewrite tokens_of_inside by done.
      rewrite after_run_idemp.
      apply (IH (length (after_run l))); [simpl; lia|done|done].
    + destruct (pure w); [done|].
      rewrite (tokens_of_skip _ _ _ Hm).
      rewrite tokens_of_inside by done.
      apply (IH (length (after_run l))); [simpl; lia|done|done].
  - rewrite tokens_of_skip by (by apply match_here_nonword).
    simpl. rewrite Hc.
    apply (IH (length l)); [simpl; lia|done|]. simpl. done.
Qed.

(** Lower-casing keeps word characters and the others apart. *)
Lemma is_word_lower_char c : is_word (lower_char c) = is_word c.
Proof. destruct c as [[] [] [] [] [] [] [] []]; reflexivity. Qed.


End TextFacts.

(** ** The sequence matcher *)

Module DifflibFacts.
Import Difflib.

Section Bounds.
Variables a b : list ascii.

Lemma vals_le_empty n : vals_le ∅ n.
Proof. intros j v. by rewrite lookup_empty. Qed.

Lemma j2lenget_le j2len n j : vals_le j2len n -> j2lenget j2len j <= n.
Proof.
  intros Hv. destruct j as [|j]; simpl; [lia|].
  destruct (j2len !! j) as [v|] eqn:E; simpl; [by apply (Hv j)|lia].
Qed.

Lemma row_loop_bounds i alo blo bhi j2len js st :
  alo <= i -> vals_le j2len (i - alo) ->
  vals_le st.1 (S i - alo) -> best_in alo (S i) st.2 ->
  vals_le (row_loop i blo bhi j2len js st).1 (S i - alo) /\
  best_in alo (S i) (row_loop i blo bhi j2len js st).2.
Proof.
  intros Hi Hj. revert st.
  induction js as [|j js IH]; intros [new [[bi bj] bs]] Hnew Hbest; [done|].
  cbn [row_loop]. destruct (j <? blo); [by apply IH|].
  destruct (bhi <=? j); [done|].
  pose proof (j2lenget_le j2len _ j Hj) as Hk.
  apply IH; cbn [fst snd].
  - intros j' v. destruct (decide (j = j')) as [->|Hne].
    + rewrite lookup_insert_eq. intros [= <-]. lia.
    + rewrite lookup_insert_ne by done. apply Hnew.
  - destruct Hbest as [H1 H2]. cbn [fst snd] in *.
    destruct (bs <? j2lenget j2len j + 1); split; cbn [fst snd]; lia.
Qed.

Lemma rows_loop_bounds alo blo bhi n :
  let st := foldl (rows_step a b blo bhi) (∅, (alo, blo, 0)) (seq alo n) in
  vals_le st.1 (n) /\ best_in alo (alo + n) st.2.
Proof.
  induction n as [|n IH]; cbn zeta.
  - split; [apply vals_le_empty|]. split; simpl; lia.
  - rewrite seq_S, foldl_snoc.
    destruct (foldl (rows_step a b blo bhi) (∅, (alo, blo, 0)) (seq alo n))
      as [j2len best] eqn:E.
    cbn zeta in IH. destruct IH as [IH1 IH2]. cbn [fst snd] in *.
    unfold rows_step.
    replace (alo + S n) with (S (alo + n)) by lia.
    assert (vals_le j2len (alo + n - alo)) as IH1'
      by (by replace (alo + n - alo) with n by lia).
    replace (vals_le (row_loop (alo + n) blo bhi j2len
               match a !! (alo + n) with Some c => b2j_get b c | None => [] end
               (∅, best)).1 (S n))
      with (vals_le (row_loop (alo + n) blo bhi j2len
               match a !! (alo + n) with Some c => b2j_get b c | None => [] end
               (∅, best)).1 (S (alo + n) - alo))
      by (f_equal; lia).
    apply row_loop_bounds; cbn [fst snd].
    + lia.
    + done.
    + apply vals_le_empty.
    + destruct IH2. split; lia.
Qed.

Lemma extend_left_bounds alo blo bi bj bs :
  alo <= bi ->
  alo <= (extend_left a b alo blo bi bj bs).1.1 /\
  (extend_left a b alo blo bi bj bs).1.1 + (extend_left a b alo blo bi bj bs).2
    = bi + bs.
Proof.
  revert bj bs. induction bi as [|bi IH]; intros bj bs H; [simpl; lia|].
  cbn [extend_left]. destruct bj as [|bj]; [simpl; lia|].
  destruct ((alo <? S bi) && (blo <? S bj) && same_at a b bi bj) eqn:E;
    [|simpl; lia].
  apply andb_true_iff in E as [E _]. apply andb_true_iff in E as [E _].
  apply Nat.ltb_lt in E.
  destruct (IH bj (S bs)) as [H1 H2]; [lia|]. split; [done|]. lia.
Qed.

Lemma extend_right_bounds d bhi bi bj bs :
  (extend_right a b d bhi bi bj bs).1 = (bi, bj) /\
  bs <= (extend_right a b d bhi bi bj bs).2 <= bs + d.
Proof.
  revert bs. induction d as [|d IH]; intros bs; [simpl; split; [done|lia]|].
  cbn [extend_right].
  destruct ((bj + bs <? bhi) && same_at a b (bi + bs) (bj + bs));
    [|simpl; split; [done|lia]].
  destruct (IH (S bs)) as [H1 H2]. split; [done|lia].
Qed.

(** The block found lies within the range it was searched in. *)
Lemma find_longest_match_bounds alo ahi blo bhi :
  alo <= ahi ->
  best_in alo ahi (find_longest_match a b alo ahi blo bhi).
Proof.
  intros Hle. unfold find_longest_match, rows_loop.
  pose proof (rows_loop_bounds alo blo bhi (ahi - alo)) as Hrows.
  cbn zeta in Hrows.
  destruct (foldl _ _ _) as [j2len [[bi bj] bs]]. destruct Hrows as [_ [H1 H2]].
  cbn [fst snd] in *.
  pose proof (extend_left_bounds alo blo bi bj bs H1) as [H3 H4].
  destruct (extend_left a b alo blo bi bj bs) as [[bi' bj'] bs'].
  cbn [fst snd] in *.
  pose proof (extend_right_bounds (ahi - (bi' + bs')) bhi bi' bj' bs') as [H5 H6].
  destruct (extend_right _ _ _ _ _ _ _) as [[bi'' bj''] bs''].
  cbn [fst snd] in *. injection H5 as -> ->.
  split; cbn [fst snd]; lia.
Qed.

Lemma range_weight_eq alo ahi blo bhi :
  range_weight (alo, ahi, blo, bhi) = 2 * (ahi - alo) + 1.
Proof. reflexivity. Qed.

Lemma blocks_loop_enough fuel queue acc :
  Forall range_ok queue ->
  sum_list_with range_weight queue <= fuel ->
  is_Some (blocks_loop a b fuel queue acc).
Proof.
  revert queue acc. induction fuel as [|fuel IH]; intros queue acc Hok Hw.
  - destruct queue as [|[[[alo ahi] blo] bhi] queue]; [by eexists|].
    cbn [sum_list_with] in Hw. rewrite range_weight_eq in Hw. lia.
  - destruct queue as [|[[[alo ahi] blo] bhi] queue]; [by eexists|].
    cbn [blocks_loop].
    apply Forall_cons in Hok as [Hr Hok]. unfold range_ok in Hr. cbn [fst snd] in Hr.
    pose proof (find_longest_match_bounds alo ahi blo bhi Hr) as [H1 H2].
    destruct (find_longest_match a b alo ahi blo bhi) as [[i j] k].
    cbn [fst snd] in *. cbn [sum_list_with] in Hw.
    rewrite range_weight_eq in Hw.
    destruct (k =? 0) eqn:Hk; [apply IH; [done|lia]|].
    apply Nat.eqb_neq in Hk.
    apply IH.
    + destruct ((i + k <? ahi) && (j + k <? bhi)) eqn:E2;
        destruct ((alo <? i) && (blo <? j)) eqn:E1;
        repeat (constructor; [unfold range_ok; cbn [fst snd]; lia|]); done.
    + destruct ((i + k <? ahi) && (j + k <? bhi)) eqn:E2;
        destruct ((alo <? i) && (blo <? j)) eqn:E1;
        cbn [sum_list_with]; rewrite ?range_weight_eq; lia.
Qed.

(** [get_matching_blocks] terminates within its fuel. *)
Lemma blocks_loop_total :
  is_Some (blocks_loop a b (2 * length a + 1) [(0, length a, 0, length b)] []).
Proof.
  apply blocks_loop_enough.
  - constructor; [|done]. unfold range_ok. cbn [fst snd]. lia.
  - cbn [sum_list_with]. rewrite range_weight_eq. lia.
Qed.
End Bounds.

Section Rows.
Variables a b : list ascii.

Lemma indices_from_app c l1 l2 j :
  indices_from c (l1 ++ l2) j =
    indices_from c l1 j ++ indices_from c l2 (j + length l1).
Proof.
  revert j. induction l1 as [|x l1 IH]; intros j; simpl.
  - by rewrite Nat.add_0_r.
  - rewrite IH. replace (S j + length l1) with (j + S (length l1)) by lia.
    by destruct (Ascii.eqb x c).
Qed.

Lemma indices_from_spec c l j :
  Forall (fun x => j <= x < j + length l /\ l !! (x - j) = Some c)
         (indices_from c l j).
Proof.
  revert j. induction l as [|y l IH]; intros j; simpl; [constructor|].
  assert (Forall (fun x => j <= x < j + S (length l) /\
                           (y :: l) !! (x - j) = Some c)
                 (indices_from c l (S j))) as Htail.
  { eapply Forall_impl; [apply IH|]. intros x [H1 H2]. split; [lia|].
    replace (x - j) with (S (x - S j)) by lia. done. }
  destruct (Ascii.eqb y c) eqn:E; [|done].
  constructor; [|done]. split; [lia|].
  rewrite Nat.sub_diag. simpl. apply Ascii.eqb_eq in E. by subst.
Qed.

(** Within [blo = 0] and [bhi = len(b)] the loop over [j] neither
    skips nor stops early. *)
Lemma row_loop_cons i j2len j js new bi bj bs :
  j < length b ->
  row_loop i 0 (length b) j2len (j :: js) (new, (bi, bj, bs)) =
    row_loop i 0 (length b) j2len js
      (row_insert j2len new j,
       if bs <? j2lenget j2len j + 1
       then (i + 1 - (j2lenget j2len j + 1), j + 1 - (j2lenget j2len j + 1),
             j2lenget j2len j + 1)
       else (bi, bj, bs)).
Proof.
  intros Hj. cbn [row_loop]. 
  replace (j <? 0) with false by (symmetry; by apply Nat.ltb_ge; lia).
  replace (length b <=? j) with false by (symmetry; apply Nat.leb_gt; lia).
  done.
Qed.

Lemma row_loop_keep i j2len js new bi bj bs :
  Forall (fun j => j < length b /\ j2lenget j2len j + 1 <= bs) js ->
  row_loop i 0 (length b) j2len js (new, (bi, bj, bs)) =
    (foldl (row_insert j2len) new js, (bi, bj, bs)).
Proof.
  revert new. induction js as [|j js IH]; intros new Hjs; [done|].
  apply Forall_cons in Hjs as [[H1 H2] Hjs].
  rewrite row_loop_cons by done.
  replace (bs <? j2lenget j2len j + 1) with false
    by (symmetry; apply Nat.ltb_ge; lia).
  by rewrite IH.
Qed.

Lemma row_loop_app i j2len js1 js2 st :
  Forall (fun j => j < length b) js1 ->
  row_loop i 0 (length b) j2len (js1 ++ js2) st =
    row_loop i 0 (length b) j2len js2 (row_loop i 0 (length b) j2len js1 st).
Proof.
  revert st. induction js1 as [|j js1 IH]; intros [new [[bi bj] bs]] Hjs; [done|].
  apply Forall_cons in Hjs as [H1 Hjs].
  rewrite <- app_comm_cons. rewrite !row_loop_cons by done. by apply IH.
Qed.

Lemma row_insert_lookup j2len js m x v :
  foldl (row_insert j2len) m js !! x = Some v ->
  (x ∈ js /\ v = j2lenget j2len x + 1) \/ m !! x = Some v.
Proof.
  revert m. induction js as [|j js IH]; intros m; simpl; [by right|].
  intros Hx. apply IH in Hx as [[H1 H2]|Hx].
  - left. split; [by right|done].
  - unfold row_insert in Hx. destruct (decide (j = x)) as [->|Hne].
    + rewrite lookup_insert_eq in Hx. injection Hx as <-. left. split; [by left|done].
    + rewrite lookup_insert_ne in Hx by done. by right.
Qed.

Lemma row_insert_elem j2len js m x :
  x ∈ js -> foldl (row_insert j2len) m js !! x = Some (j2lenget j2len x + 1).
Proof.
  revert m. induction js as [|j js IH]; intros m Hx; [by apply elem_of_nil in Hx|].
  simpl. destruct (decide (x ∈ js)) as [Hin|Hnin]; [by apply IH|].
  apply elem_of_cons in Hx as [->|Hx]; [|done].
  destruct (foldl (row_insert j2len) (row_insert j2len m j) js !! j) as [v|] eqn:E.
  - apply row_insert_lookup in E as [[H1 H2]|E]; [done|].
    unfold row_insert in E. rewrite lookup_insert_eq in E. done.
  - assert (forall m', m' !! j <> None ->
                       foldl (row_insert j2len) m' js !! j <> None) as Hkeep.
    { clear. induction js as [|y js IH]; intros m' Hm'; [done|].
      simpl. apply IH. unfold row_insert.
      destruct (decide (y = j)) as [->|Hne];
        [by rewrite lookup_insert_eq | by rewrite lookup_insert_ne]. }
    exfalso. apply (Hkeep (row_insert j2len m j)); [|done].
    unfold row_insert. by rewrite lookup_insert_eq.
Qed.
End Rows.

Section Identical.
Variable s : list ascii.

Lemma np_run_le i : np_run s i <= i.
Proof.
  induction i as [|i IH]; simpl; [lia|].
  destruct (s !! i); [|lia]. destruct (popular s a); lia.
Qed.

Lemma np_run_S i c :
  s !! i = Some c -> popular s c = false -> np_run s (S i) = S (np_run s i).
Proof. intros H1 H2. simpl. by rewrite H1, H2. Qed.

Lemma indices_split i c :
  s !! i = Some c ->
  exists js1 js2,
    indices s c = js1 ++ i :: js2 /\
    Forall (fun j => j < i /\ s !! j = Some c) js1 /\
    Forall (fun j => i < j < length s /\ s !! j = Some c) js2.
Proof.
  intros Hi.
  pose proof (take_drop_middle s i c Hi) as Hs.
  assert (i < length s) as Hlt by (by eapply lookup_lt_Some).
  assert (length (take i s) = i) as Hlen by (rewrite length_take; lia).
  exists (indices_from c (take i s) 0), (indices_from c (drop (S i) s) (S i)).
  split; [|split].
  - unfold indices. rewrite <- Hs at 1. rewrite indices_from_app.
    simpl. rewrite Hlen. by rewrite Ascii.eqb_refl.
  - eapply Forall_impl; [apply indices_from_spec|].
    intros x [H1 H2]. rewrite Hlen in H1. split; [lia|].
    rewrite Nat.sub_0_r in H2. rewrite lookup_take_lt in H2 by lia. done.
  - eapply Forall_impl; [apply indices_from_spec|].
    intros x [H1 H2]. rewrite length_drop in H1. split; [lia|].
    rewrite lookup_drop in H2. by replace (S i + (x - S i)) with x in H2 by lia.
Qed.

Lemma diag_inv_init : diag_inv s 0 (∅, (0, 0, 0)).
Proof.
  unfold diag_inv; cbn [fst snd]. split_and!.
  - intros j v H. by rewrite lookup_empty in H.
  - done.
  - done.
  - done.
  - intros x Hx. assert (x = 0) as -> by lia. done.
Qed.

Lemma j2lenget_diag i j j2len :
  (forall j v, j2len !! j = Some v -> v <= np_run s i /\ v <= np_run s (S j)) ->
  j2lenget j2len j <= np_run s i /\ j2lenget j2len j <= np_run s j.
Proof.
  intros Hv. destruct j as [|j]; simpl; [lia|].
  destruct (j2len !! j) as [v|] eqn:E; simpl; [|lia].
  destruct (Hv j v E) as [H1 H2]. simpl in H2. done.
Qed.

Lemma diag_inv_step i st :
  i < length s -> diag_inv s i st ->
  diag_inv s (S i) (rows_step s s 0 (length s) st i).
Proof.
  intros Hi. destruct st as [j2len [[bi bj] bs]].
  intros (Hv & Hd & Heq & Hin & Hbest). cbn [fst snd] in *. subst bj.
  unfold rows_step.
  destruct (lookup_lt_is_Some_2 s i Hi) as [c Hc]. rewrite Hc.
  unfold b2j_get. destruct (popular s c) eqn:Hpop.
  - cbn [row_loop].
    assert (np_run s (S i) = 0) as H0 by (simpl; by rewrite Hc, Hpop).
    unfold diag_inv; cbn [fst snd]. split_and!.
    + intros j v H. by rewrite lookup_empty in H.
    + simpl. by rewrite lookup_empty.
    + done.
    + lia.
    + intros x Hx. destruct (decide (x = S i)) as [->|]; [lia|]. apply Hbest. lia.
  - pose proof (np_run_S i c Hc Hpop) as HS.
    destruct (indices_split i c Hc) as (js1 & js2 & Hjs & H1 & H2).
    rewrite Hjs.
    pose proof (j2lenget_diag i) as Hget.
    rewrite row_loop_app by (eapply Forall_impl; [apply H1|]; simpl; lia).
    rewrite row_loop_keep.
    2:{ eapply Forall_impl; [apply H1|]. intros j [Hj1 Hj2]. split; [lia|].
        destruct (Hget j j2len Hv) as [_ Hg].
        specialize (Hbest (S j) ltac:(lia)).
        rewrite (np_run_S j c Hj2 Hpop) in Hbest. lia. }
    rewrite row_loop_cons by done.
    rewrite Hd.
    set (k := np_run s i + 1).
    assert (k <= S i) as Hk by (pose proof (np_run_le i); lia).
    set (best := if bs <? k then (i + 1 - k, i + 1 - k, k) else (bi, bi, bs)).
    assert (best.1.1 = best.1.2 /\ best.1.1 + best.2 <= S i /\
            bs <= best.2 /\ k <= best.2) as (Hb1 & Hb2 & Hb3 & Hb4).
    { unfold best. destruct (bs <? k) eqn:E; cbn [fst snd].
      - apply Nat.ltb_lt in E. lia.
      - apply Nat.ltb_ge in E. lia. }
    destruct best as [[bi' bj'] bs']. cbn [fst snd] in *. subst bj'.
    rewrite row_loop_keep.
    2:{ eapply Forall_impl; [apply H2|]. intros j [Hj1 Hj2]. split; [lia|].
        destruct (Hget j j2len Hv) as [Hg _]. lia. }
    change (foldl (row_insert j2len) (row_insert j2len (foldl (row_insert j2len) ∅ js1) i) js2)
      with (foldl (row_insert j2len) (foldl (row_insert j2len) ∅ js1) (i :: js2)).
    rewrite <- foldl_app. rewrite <- Hjs.
    assert (forall j, j ∈ indices s c -> s !! j = Some c) as Hall.
    { intros j Hj. rewrite Hjs in Hj. apply elem_of_app in Hj as [Hj|Hj].
      - rewrite Forall_forall in H1. by apply H1.
      - apply elem_of_cons in Hj as [->|Hj]; [done|].
        rewrite Forall_forall in H2. by apply H2. }
    unfold diag_inv; cbn [fst snd]. split_and!.
    + intros j v H.
      apply row_insert_lookup in H as [[Hj ->]|H]; [|by rewrite lookup_empty in H].
      rewrite (np_run_S j c (Hall j Hj) Hpop).
      destruct (Hget j j2len Hv). lia.
    + cbn [j2lenget]. rewrite (row_insert_elem j2len (indices s c) ∅ i).
      * rewrite HS, Hd. simpl. lia.
      * rewrite Hjs. apply elem_of_app. right. by left.
    + done.
    + done.
    + intros x Hx. destruct (decide (x = S i)) as [->|]; [lia|].
      specialize (Hbest x ltac:(lia)). lia.
Qed.

Lemma rows_loop_diag n :
  n <= length s ->
  diag_inv s n (foldl (rows_step s s 0 (length s)) (∅, (0, 0, 0)) (seq 0 n)).
Proof.
  induction n as [|n IH]; intros Hn; [apply diag_inv_init|].
  rewrite seq_S, foldl_snoc. simpl. apply diag_inv_step; [lia|]. apply IH. lia.
Qed.

Lemma same_at_diag i : i < length s -> same_at s s i i = true.
Proof.
  intros Hi. unfold same_at.
  destruct (lookup_lt_is_Some_2 s i Hi) as [c ->]. apply Ascii.eqb_refl.
Qed.

Lemma extend_left_diag p k :
  p <= length s -> extend_left s s 0 0 p p k = (0, 0, p + k).
Proof.
  revert k. induction p as [|p IH]; intros k Hp; [done|].
  cbn [extend_left]. rewrite same_at_diag by lia. simpl.
  rewrite IH by lia. f_equal. lia.
Qed.

Lemma extend_right_diag d k :
  d + k = length s -> extend_right s s d (length s) 0 0 k = (0, 0, length s).
Proof.
  revert k. induction d as [|d IH]; intros k Hk; [simpl in *; by subst|].
  cbn [extend_right]. simpl. rewrite same_at_diag by lia.
  replace (k <? length s) with true by (symmetry; apply Nat.ltb_lt; lia).
  simpl. apply IH. lia.
Qed.

(** Matched against itself, a sequence is one block. *)
Lemma find_longest_match_self :
  find_longest_match s s 0 (length s) 0 (length s) = (0, 0, length s).
Proof.
  unfold find_longest_match, rows_loop. rewrite Nat.sub_0_r.
  pose proof (rows_loop_diag (length s) ltac:(lia)) as Hinv.
  destruct (foldl _ _ _) as [j2len [[bi bj] bs]].
  destruct Hinv as (_ & _ & Heq & Hin & _). cbn [fst snd] in *. subst bj.
  rewrite extend_left_diag by lia. apply extend_right_diag. lia.
Qed.

Lemma found_blocks_self :
  found_blocks s s = if length s =? 0 then [] else [(0, 0, length s)].
Proof.
  unfold found_blocks. replace (2 * length s + 1) with (S (2 * length s)) by lia.
  cbn [blocks_loop]. rewrite find_longest_match_self.
  destruct (length s =? 0) eqn:E.
  - by destruct (2 * length s).
  - rewrite !Nat.add_0_l, !Nat.ltb_irrefl. cbn [andb app].
    by destruct (2 * length s).
Qed.

Lemma matches_self : matches s s = length s.
Proof.
  unfold matches, get_matching_blocks. rewrite found_blocks_self.
  destruct (length s =? 0) eqn:E.
  - apply Nat.eqb_eq in E. rewrite E. reflexivity.
  - unfold collapse. simpl. rewrite E. simpl. lia.
Qed.
End Identical.

Section Empty.
Variable s : list ascii.

Lemma rows_loop_no_b alo n :
  foldl (rows_step s [] 0 0) (∅, (0, 0, 0)) (seq alo n) = (∅, (0, 0, 0)).
Proof.
  revert alo. induction n as [|n IH]; intros alo; [done|].
  cbn [seq foldl].
  replace (rows_step s [] 0 0 (∅, (0, 0, 0)) alo) with
    ((∅, (0, 0, 0)) : gmap nat nat * block); [apply IH|].
  unfold rows_step. by destruct (s !! alo).
Qed.

Lemma find_longest_match_no_b :
  find_longest_match s [] 0 (length s) 0 0 = (0, 0, 0).
Proof.
  unfold find_longest_match, rows_loop. rewrite rows_loop_no_b.
  simpl. by destruct (length s).
Qed.

Lemma matches_no_b : matches s [] = 0.
Proof.
  unfold matches, get_matching_blocks, found_blocks.
  replace (2 * length s + 1) with (S (2 * length s)) by lia.
  cbn [blocks_loop length]. rewrite find_longest_match_no_b. simpl.
  by destruct (length s + (length s + 0)).
Qed.

Lemma matches_no_a : matches [] s = 0.
Proof. reflexivity. Qed.
End Empty.
End DifflibFacts.

(** ** Sorting *)

Section SortFacts.
Context {A : Type} (lt : A -> A -> bool).

Lemma insert_sorted_perm x l : insert_sorted lt x l ≡ₚ x :: l.
Proof.
  induction l as [|y l IH]; simpl; [done|].
  destruct (lt y x); [|done]. rewrite IH. apply Permutation_swap.
Qed.

Lemma list_sort_perm l : list_sort lt l ≡ₚ l.
Proof.
  induction l as [|x l IH]; simpl; [done|].
  rewrite insert_sorted_perm. by rewrite IH.
Qed.

Lemma list_sort_reverse_perm l : list_sort_reverse lt l ≡ₚ l.
Proof.
  unfold list_sort_reverse.
  rewrite <- Permutation_rev, list_sort_perm. symmetry. apply Permutation_rev.
Qed.

(** Stability: elements none of which is less than another keep their
    order. *)
Section Stable.
Context (P : A -> Prop) `{!forall x, Decision (P x)}.
Hypothesis P_tied : forall x y, P x -> P y -> lt x y = false.

Lemma filter_insert_sorted x l :
  filter P (insert_sorted lt x l) = filter P (x :: l).
Proof.
  induction l as [|y l IH]; simpl; [done|].
  destruct (lt y x) eqn:E; [|done].
  rewrite filter_cons, IH, !filter_cons.
  destruct (decide (P y)) as [Py|]; [|done].
  destruct (decide (P x)) as [Px|]; [|done].
  by rewrite (P_tied y x Py Px) in E.
Qed.

Lemma filter_list_sort l : filter P (list_sort lt l) = filter P l.
Proof.
  induction l as [|x l IH]; simpl; [done|].
  by rewrite filter_insert_sorted, !filter_cons, IH.
Qed.

Lemma filter_rev l : filter P (rev l) = rev (filter P l).
Proof.
  induction l as [|x l IH]; simpl; [done|].
  rewrite filter_app, IH, !filter_cons.
  destruct (decide (P x)); simpl; [done|]. by rewrite filter_nil, app_nil_r.
Qed.

Lemma filter_list_sort_reverse l :
  filter P (list_sort_reverse lt l) = filter P l.
Proof.
  unfold list_sort_reverse.
  by rewrite filter_rev, filter_list_sort, filter_rev, rev_involutive.
Qed.
End Stable.

(** No element is followed by a smaller one. *)
Section Ordered.
Hypothesis lt_asym : forall x y, lt x y = true -> lt y x = false.

Lemma insert_sorted_Sorted x l :
  Sorted (fun u v => lt v u = false) l ->
  Sorted (fun u v => lt v u = false) (insert_sorted lt x l).
Proof.
  induction 1 as [|y l Hs IH Hd]; simpl; [by repeat constructor|].
  destruct (lt y x) eqn:E.
  - constructor; [done|].
    destruct l as [|z l]; simpl.
    + constructor. by apply lt_asym.
    + destruct (lt z x) eqn:E'.
      * constructor. by inversion Hd.
      * constructor. by apply lt_asym.
  - constructor; [by constructor|]. by constructor.
Qed.

Lemma list_sort_Sorted l : Sorted (fun u v => lt v u = false) (list_sort lt l).
Proof.
  induction l as [|x l IH]; simpl; [constructor|]. by apply insert_sorted_Sorted.
Qed.
End Ordered.

Lemma Sorted_snoc (R : A -> A -> Prop) l x :
  Sorted R l -> (forall y, last l = Some y -> R y x) -> Sorted R (l ++ [x]).
Proof.
  induction 1 as [|y l Hs IH Hd]; intros Hlast; simpl; [by repeat constructor|].
  constructor.
  - apply IH. intros z Hz. apply Hlast. destruct l; [done|]. done.
  - destruct l as [|z l]; simpl.
    + constructor. by apply Hlast.
    + constructor. by inversion Hd.
Qed.

Lemma Sorted_rev (R : A -> A -> Prop) l :
  Sorted R l -> Sorted (fun u v => R v u) (rev l).
Proof.
  induction 1 as [|y l Hs IH Hd]; simpl; [constructor|].
  apply Sorted_snoc; [done|].
  intros z Hz. destruct l as [|w l]; [done|].
  simpl in Hz. rewrite last_snoc in Hz. injection Hz as <-. by inversion Hd.
Qed.

Lemma list_sort_reverse_Sorted l :
  (forall x y, lt x y = true -> lt y x = false) ->
  Sorted (fun u v => lt u v = false) (list_sort_reverse lt l).
Proof.
  intros Hasym. unfold list_sort_reverse.
  apply (Sorted_rev (fun u v => lt v u = false)). by apply list_sort_Sorted.
Qed.
End SortFacts.

(** ** Order laws *)

Module Binary64Facts.
Ltac sf_cases :=
  repeat match goal with
    | |- context [Z.compare ?a ?b] => destruct (Z.compare_spec a b)
    | |- context [Pos.compare_cont Eq ?a ?b] =>
        change (Pos.compare_cont Eq a b) with (Pos.compare a b)
    | |- context [Pos.compare ?a ?b] => destruct (Pos.compare_spec a b)
    | |- context [CompOpp _] => cbn [CompOpp]
    end; try done; try lia.

Lemma SFleb_trans x y z :
  SFleb x y = true -> SFleb y z = true -> SFleb x z = true.
Proof.
  unfold SFleb, SFcompare.
  destruct x as [[]|[]| |[] m1 e1], y as [[]|[]| |[] m2 e2], z as [[]|[]| |[] m3 e3];
    try done; sf_cases.
Qed.

Lemma SFltb_asym x y : SFltb x y = true -> SFltb y x = false.
Proof.
  unfold SFltb, SFcompare.
  destruct x as [[]|[]| |[] m1 e1], y as [[]|[]| |[] m2 e2]; try done; sf_cases.
Qed.

Lemma SFeqb_ltb x y s :
  SFeqb x s = true -> SFeqb y s = true -> SFltb x y = false.
Proof.
  unfold SFeqb, SFltb, SFcompare.
  destruct x as [[]|[]| |[] m1 e1], y as [[]|[]| |[] m2 e2], s as [[]|[]| |[] m3 e3];
    try done; sf_cases.
Qed.
End Binary64Facts.

Lemma float_leb_trans (x y z : float) :
  PrimFloat.leb x y = true -> PrimFloat.leb y z = true -> PrimFloat.leb x z = true.
Proof. rewrite !FloatAxioms.leb_spec. apply Binary64Facts.SFleb_trans. Qed.

Lemma float_ltb_asym (x y : float) :
  PrimFloat.ltb x y = true -> PrimFloat.ltb y x = false.
Proof. rewrite !FloatAxioms.ltb_spec. apply Binary64Facts.SFltb_asym. Qed.

Lemma float_eqb_ltb (x y s : float) :
  PrimFloat.eqb x s = true -> PrimFloat.eqb y s = true -> PrimFloat.ltb x y = false.
Proof. rewrite !FloatAxioms.eqb_spec, FloatAxioms.ltb_spec. apply Binary64Facts.SFeqb_ltb. Qed.

#[export] Instance float_order : ArithOrder float.
Proof.
  split; [exact float_leb_trans | exact float_ltb_asym | exact float_eqb_ltb].
Qed.

Module ExactFacts.
Import Exact.
Lemma leb_true x y : leb x y = true <-> (x <= y)%R.
Proof. unfold leb. destruct (Rle_dec x y); split; try done; lra. Qed.
Lemma ltb_true x y : ltb x y = true <-> (x < y)%R.
Proof. unfold ltb. destruct (Rlt_dec x y); split; try done; lra. Qed.
Lemma ltb_false x y : ltb x y = false <-> (y <= x)%R.
Proof. unfold ltb. destruct (Rlt_dec x y); split; try done; lra. Qed.
Lemma eqb_true x y : eqb x y = true <-> x = y.
Proof. unfold eqb. destruct (Req_dec_T x y); split; try done. Qed.
Lemma eqb_false x y : eqb x y = false <-> x <> y.
Proof. unfold eqb. destruct (Req_dec_T x y); split; try done. Qed.
End ExactFacts.

Lemma real_leb_trans (x y z : R) :
  Exact.leb x y = true -> Exact.leb y z = true -> Exact.leb x z = true.
Proof. rewrite !ExactFacts.leb_true. lra. Qed.

Lemma real_ltb_asym (x y : R) : Exact.ltb x y = true -> Exact.ltb y x = false.
Proof. rewrite ExactFacts.ltb_true, ExactFacts.ltb_false. lra. Qed.

Lemma real_eqb_ltb (x y s : R) :
  Exact.eqb x s = true -> Exact.eqb y s = true -> Exact.ltb x y = false.
Proof. rewrite !ExactFacts.eqb_true, ExactFacts.ltb_false. intros -> ->. lra. Qed.

#[export] Instance real_order : ArithOrder R.
Proof.
  split; [exact real_leb_trans | exact real_ltb_asym | exact real_eqb_ltb].
Qed.

(** ** The scorer and the ranking *)

Section CheckerFacts.
Context {F : Type} `{Arith F}.

Lemma weight_lookup (w : gmap string F) key x :
  w !! key = Some x -> weight w key = Ok x.
Proof. unfold weight. by intros ->. Qed.

Lemma size_nonzero_lookup (w : gmap string F) key x :
  w !! key = Some x -> (size w =? 0) = false.
Proof.
  intros Hk. apply Nat.eqb_neq. intros Hs.
  apply map_size_empty_iff in Hs. subst w. by rewrite lookup_empty in Hk.
Qed.

(** With the four keys present the scorer returns the weighted sum and
    its rounded breakdown, whatever the weights are. *)
Lemma calculate_with (new_bug existing_bug : gmap string string)
    (w : gmap string F) ws wd wc wst :
  w !! "summary"%string = Some ws -> w !! "description"%string = Some wd ->
  w !! "component"%string = Some wc -> w !! "steps"%string = Some wst ->
  calculate_bug_similarity new_bug existing_bug (Some w) =
    Ok (overall_with ws wd wc wst new_bug existing_bug,
        breakdown_with ws wd wc wst new_bug existing_bug).
Proof.
  intros H1 H2 H3 H4. unfold calculate_bug_similarity.
  rewrite (size_nonzero_lookup w _ _ H1).
  rewrite (weight_lookup _ _ _ H1), (weight_lookup _ _ _ H2),
    (weight_lookup _ _ _ H3), (weight_lookup _ _ _ H4).
  reflexivity.
Qed.

Lemma calculate_default (new_bug existing_bug : gmap string string) :
  calculate_bug_similarity new_bug existing_bug None =
    Ok (score new_bug existing_bug, score_breakdown new_bug existing_bug).
Proof. reflexivity. Qed.

Lemma scan_retained new_bug threshold candidates matches :
  scan new_bug threshold candidates matches =
    Ok (matches ++ retained new_bug threshold candidates).
Proof.
  revert matches. induction candidates as [|c cs IH]; intros matches.
  - simpl. unfold retained. simpl. by rewrite app_nil_r.
  - cbn [scan]. rewrite calculate_default. cbn [mbind result_bind].
    rewrite IH. unfold retained. rewrite filter_cons.
    destruct (fgeb (score new_bug c) threshold) eqn:E.
    + rewrite decide_True by done. rewrite fmap_cons, <- app_assoc. done.
    + rewrite decide_False by (by intros ?). done.
Qed.

(** [find_duplicates] never raises, and returns the retained entries
    sorted. *)
Lemma find_duplicates_retained new_bug candidates threshold :
  find_duplicates new_bug candidates threshold =
    Ok (list_sort_reverse by_similarity (retained new_bug threshold candidates)).
Proof. unfold find_duplicates. rewrite scan_retained. reflexivity. Qed.

Lemma elem_of_retained new_bug threshold candidates m :
  m ∈ retained new_bug threshold candidates <->
  exists c, c ∈ candidates /\ fgeb (score new_bug c) threshold = true /\
            m = entry new_bug c.
Proof.
  unfold retained. rewrite list_elem_of_fmap. split.
  - intros (c & -> & Hc). apply list_elem_of_filter in Hc as [Hc1 Hc2]. eauto.
  - intros (c & Hc1 & Hc2 & ->). exists c. split; [done|].
    by apply list_elem_of_filter.
Qed.

Lemma retained_mono `{!ArithOrder F} new_bug t1 t2 candidates :
  fleb t1 t2 = true ->
  retained new_bug t2 candidates `sublist_of` retained new_bug t1 candidates.
Proof.
  intros Ht. unfold retained. apply fmap_sublist.
  induction candidates as [|c cs IH]; [done|].
  rewrite !filter_cons.
  destruct (decide (fgeb (score new_bug c) t2 = true)) as [E2|E2].
  - rewrite decide_True; [by constructor|].
    unfold fgeb in *. by apply (fleb_trans t1 t2).
  - destruct (decide (fgeb (score new_bug c) t1 = true)); [by constructor|done].
Qed.
End CheckerFacts.

(** ** Exact arithmetic *)

Module RealFacts.
Import Exact ExactFacts.

Lemma of_int_INR n : of_int (F:=R) n = INR n.
Proof.
  unfold of_int. cbn [lit real_arith]. unfold Q2R, inject_Z. cbn [Qnum Qden].
  rewrite INR_IZR_INZ. lra.
Qed.

Lemma lit_0 : lit (F:=R) 0 = 0%R.
Proof. cbn [lit real_arith]. unfold Q2R. simpl. lra. Qed.

Lemma lit_1 : lit (F:=R) 1 = 1%R.
Proof. cbn [lit real_arith]. unfold Q2R. simpl. lra. Qed.

Lemma lit_2 : lit (F:=R) 2 = 2%R.
Proof. cbn [lit real_arith]. unfold Q2R. simpl. lra. Qed.

(** [n / n] for a positive [int]. *)
Lemma lit_ratio_self n : 0 < n -> lit (F:=R) (Z.of_nat n # Pos.of_nat n) = 1%R.
Proof.
  intros Hn. cbn [lit real_arith]. unfold Q2R. cbn [Qnum Qden].
  replace (Z.pos (Pos.of_nat n)) with (Z.of_nat n)
    by (destruct n; [lia|]; by rewrite <- Pos.of_nat_succ, Zpos_P_of_succ_nat, Nat2Z.inj_succ).
  apply Rinv_r. apply not_0_IZR. lia.
Qed.

Lemma floor_IZR n : floor (IZR n) = n.
Proof.
  unfold floor. rewrite <- (tech_up (IZR n) (n + 1)).
  - lia.
  - rewrite plus_IZR. lra.
  - rewrite plus_IZR. lra.
Qed.

Lemma round_half_even_IZR n : round_half_even (IZR n) = n.
Proof.
  unfold round_half_even. rewrite floor_IZR.
  destruct (Rlt_dec (IZR n - IZR n) (1 / 2)) as [|Hn]; [done|].
  exfalso. apply Hn. lra.
Qed.

(** A value with at most three decimals is its own rounding. *)
Lemma round3_exact n : round3 (IZR n / 1000) = (IZR n / 1000)%R.
Proof.
  unfold round3. replace (IZR n / 1000 * 1000)%R with (IZR n) by lra.
  by rewrite round_half_even_IZR.
Qed.

Lemma lit_040 : lit (F:=R) 0.40 = (4 / 10)%R.
Proof. cbn [lit real_arith]. unfold Q2R. simpl. lra. Qed.

Lemma lit_010 : lit (F:=R) 0.10 = (1 / 10)%R.
Proof. cbn [lit real_arith]. unfold Q2R. simpl. lra. Qed.

Lemma lit_085 : lit (F:=R) 0.85 = (85 / 100)%R.
Proof. cbn [lit real_arith]. unfold Q2R. simpl. lra. Qed.

Lemma round3_0 : round3 0 = 0%R.
Proof. replace 0%R with (IZR 0 / 1000)%R at 1 by lra. rewrite round3_exact. lra. Qed.

Lemma round3_1 : round3 1 = 1%R.
Proof. replace 1%R with (IZR 1000 / 1000)%R at 1 by lra. rewrite round3_exact. lra. Qed.

Lemma round3_09 : round3 (9 / 10) = (9 / 10)%R.
Proof.
  replace (9 / 10)%R with (IZR 900 / 1000)%R at 1 by lra.
  rewrite round3_exact. lra.
Qed.
End RealFacts.

Section VectorFacts.
Lemma zip_with_mul_self (v : list nat) :
  zip_with Nat.mul v v = (fun a => a * a) <$> v.
Proof. induction v as [|x v IH]; simpl; [done|]. by rewrite IH. Qed.

Lemma count_elem (tokens : list string) (w : string) :
  w ∈ tokens -> 0 < count tokens w.
Proof.
  unfold count. induction 1 as [w l|w y l Hin IH]; rewrite filter_cons.
  - rewrite decide_True by done. simpl. lia.
  - destruct (decide (y = w)); simpl; lia.
Qed.

(** A text with a token has a positive squared norm. *)
Lemma norm_pos (tokens : list string) (vocab : gset string) :
  tokens <> [] -> list_to_set tokens ⊆ vocab ->
  0 < sum_list ((fun a => a * a) <$> (count tokens <$> elements vocab)).
Proof.
  intros Hne Hsub. destruct tokens as [|w tokens]; [done|].
  assert (w ∈ elements vocab) as Hw.
  { apply elem_of_elements. apply Hsub. apply elem_of_list_to_set. by left. }
  assert (0 < count (w :: tokens) w) as Hc by (apply count_elem; by left).
  revert Hw Hc. generalize (elements vocab), (count (w :: tokens)).
  clear Hne Hsub. intros l f Hw Hc.
  induction Hw as [w l|w y l Hin IH]; simpl; [nia|].
  apply Nat.lt_lt_add_l. exact (IH Hc).
Qed.

Lemma size_tokens_zero (tokens : list string) :
  (size (list_to_set tokens : gset string) =? 0) = is_nil tokens.
Proof.
  destruct tokens as [|w tokens]; [done|]. simpl.
  apply Nat.eqb_neq. intros Hs. apply size_empty_iff in Hs.
  assert (w ∈ ({[w]} ∪ list_to_set tokens : gset string)) as Hw by set_solver.
  rewrite Hs in Hw. set_solver.
Qed.
End VectorFacts.

Module SimilarityFacts.
Import Exact ExactFacts RealFacts.

Lemma cosine_no_tokens_l {F} `{Arith F} t x :
  tokenize t = [] -> cosine_similarity (F:=F) t x = lit 0.
Proof. intros Ht. unfold cosine_similarity. by rewrite Ht. Qed.

Lemma cosine_self t :
  tokenize t <> [] -> cosine_similarity (F:=R) t t = 1%R.
Proof.
  intros Ht. unfold cosine_similarity.
  destruct (tokenize t) as [|w ts] eqn:E; [done|]. cbn [is_nil orb].
  rewrite zip_with_mul_self.
  set (d := sum_list _).
  assert (0 < d) as Hd by (apply norm_pos; [done|apply union_subseteq_l]).
  rewrite !of_int_INR. cbn [fsqrt feqb fdiv fmul real_arith].
  assert (0 < INR d)%R as HR by (by apply lt_0_INR).
  assert (0 < R_sqrt.sqrt (INR d))%R as Hs by (by apply sqrt_lt_R0).
  replace (eqb (R_sqrt.sqrt (INR d)) (INR 0)) with false
    by (symmetry; apply eqb_false; simpl; lra).
  cbn [orb]. rewrite sqrt_sqrt by lra. field. lra.
Qed.

Lemma keyword_self t :
  tokenize t <> [] -> keyword_overlap (F:=R) t t = 1%R.
Proof.
  intros Ht. unfold keyword_overlap. rewrite size_tokens_zero.
  destruct (tokenize t) as [|w ts] eqn:E; [done|]. cbn [is_nil orb].
  rewrite intersection_idemp_L, union_idemp_L.
  apply lit_ratio_self.
  pose proof (size_tokens_zero (w :: ts)) as Hz. cbn [is_nil] in Hz.
  apply Nat.eqb_neq in Hz. lia.
Qed.

Lemma ratio_self s : Difflib.ratio (F:=R) s s = 1%R.
Proof.
  unfold Difflib.ratio. rewrite DifflibFacts.matches_self.
  destruct (length s + length s =? 0) eqn:E; [apply lit_1|].
  apply Nat.eqb_neq in E.
  rewrite !of_int_INR, lit_2. cbn [fdiv fmul real_arith].
  rewrite plus_INR. field.
  assert (0 < INR (length s))%R by (apply lt_0_INR; lia). lra.
Qed.

Lemma ratio_no_b s : s <> [] -> Difflib.ratio (F:=R) s [] = 0%R.
Proof.
  intros Hs. unfold Difflib.ratio. rewrite DifflibFacts.matches_no_b.
  destruct s as [|c s]; [done|]. simpl length. cbn [Nat.add Nat.eqb].
  rewrite !of_int_INR. cbn [fdiv fmul real_arith]. simpl INR at 1.
  unfold Rdiv. lra.
Qed.

Lemma ratio_no_a s : s <> [] -> Difflib.ratio (F:=R) [] s = 0%R.
Proof.
  intros Hs. unfold Difflib.ratio. rewrite DifflibFacts.matches_no_a.
  destruct s as [|c s]; [done|]. simpl length. cbn [Nat.add Nat.eqb].
  rewrite !of_int_INR. cbn [fdiv fmul real_arith]. simpl INR at 1.
  unfold Rdiv. lra.
Qed.
End SimilarityFacts.

(** ** Binary64: the quotients of [ratio] *)

Module Binary64Ratio.
Import Binary64.
Local Open Scope Z_scope.

Lemma div_eucl_self_shift m :
  Z.div_eucl (Z.shiftl (Zpos m) 53) (Zpos m) = (2 ^ 53, 0).
Proof.
  rewrite Z.shiftl_mul_pow2 by lia.
  pose proof (Z.div_mul (2 ^ 53) (Zpos m) ltac:(lia)) as Hq.
  pose proof (Z.mod_mul (2 ^ 53) (Zpos m) ltac:(lia)) as Hr.
  rewrite (Z.mul_comm (Z.pos m)).
  unfold Z.div, Z.modulo in Hq, Hr.
  destruct (Z.div_eucl (2 ^ 53 * Z.pos m) (Z.pos m)) as [q r]. by subst.
Qed.

(** A finite number divided by itself is 1.0. *)
Lemma SFdiv_self s m e :
  SFdiv prec emax (S754_finite s m e) (S754_finite s m e) =
    S754_finite false 4503599627370496 (-52).
Proof.
  unfold SFdiv, SFdiv_core_binary.
  replace (Zdigits2 (Z.pos m) + e - (Zdigits2 (Z.pos m) + e)) with 0 by lia.
  replace (e - e) with 0 by lia.
  change (Z.min (fexp prec emax 0) 0) with (-53).
  change (0 - -53) with 53.
  cbv iota beta.
  rewrite div_eucl_self_shift.
  replace (new_location (Z.pos m) 0) with loc_Exact
    by (unfold new_location; by destruct (Z.even (Z.pos m))).
  rewrite xorb_nilpotent. reflexivity.
Qed.

Lemma float_div_self x s m e :
  Prim2SF x = S754_finite s m e -> PrimFloat.div x x = 1%float.
Proof.
  intros Hx. rewrite <- (SF2Prim_Prim2SF (x / x)), <- (SF2Prim_Prim2SF 1).
  f_equal. rewrite div_spec, Hx. unfold SF64div. apply SFdiv_self.
Qed.

Lemma float_zero_div x m e :
  Prim2SF x = S754_finite false m e -> PrimFloat.div 0 x = 0%float.
Proof.
  intros Hx. rewrite <- (SF2Prim_Prim2SF (0 / x)), <- (SF2Prim_Prim2SF 0).
  f_equal. rewrite div_spec, Hx. reflexivity.
Qed.

Lemma digits_shl k p :
  Zpos (digits2_pos (shl k p)) = Zpos (digits2_pos p) + Z.of_nat k.
Proof.
  induction k as [|k IH]; [simpl; lia|].
  change (shl (S k) p) with (xO (shl k p)). cbn [digits2_pos]. lia.
Qed.

Lemma shl_xO k p : shl k (xO p) = shl (S k) p.
Proof. induction k as [|k IH]; [done|]. unfold shl in *. simpl. by rewrite IH. Qed.

Lemma shiftl_shl p k : Z.shiftl (Zpos p) (Z.of_nat k) = Zpos (shl k p).
Proof.
  rewrite Z.shiftl_mul_pow2 by lia.
  induction k as [|k IH]; [simpl; lia|].
  change (shl (S k) p) with (xO (shl k p)).
  rewrite Nat2Z.inj_succ, Z.pow_succ_r by lia. lia.
Qed.

Lemma iter_pos_nat {A} (f : A -> A) n x :
  SpecFloat.iter_pos f n x = Nat.iter (Pos.to_nat n) f x.
Proof.
  revert x. induction n as [n IH|n IH|]; intros x; cbn [SpecFloat.iter_pos].
  - rewrite !IH, Pos2Nat.inj_xI.
    replace (S (2 * Pos.to_nat n))%nat with (Pos.to_nat n + (Pos.to_nat n + 1))%nat by lia.
    rewrite !Nat.iter_add. done.
  - rewrite !IH, Pos2Nat.inj_xO.
    replace (2 * Pos.to_nat n)%nat with (Pos.to_nat n + Pos.to_nat n)%nat by lia.
    by rewrite Nat.iter_add.
  - done.
Qed.

Lemma shr_shl k p :
  Nat.iter k shr_1 (Build_shr_record (Zpos (shl k p)) false false) =
    Build_shr_record (Zpos p) false false.
Proof.
  induction k as [|k IH]; [done|].
  rewrite Nat.iter_succ_r. change (shl (S k) p) with (xO (shl k p)).
  cbn [shr_1 orb]. apply IH.
Qed.

(** Rounding a mantissa that is a 53-bit number followed by zero bits
    drops the zero bits: nothing is lost. *)
Lemma binary_round_aux_exact s p k e :
  Zpos (digits2_pos p) = 53 -> -1074 <= e + Z.of_nat k <= 971 ->
  binary_round_aux prec emax s (Zpos (shl k p)) e loc_Exact =
    S754_finite s p (e + Z.of_nat k).
Proof.
  intros Hd He. unfold binary_round_aux, shr_fexp.
  cbn [Zdigits2 shr_record_of_loc]. rewrite digits_shl, Hd.
  replace (fexp prec emax (53 + Z.of_nat k + e) - e) with (Z.of_nat k)
    by (unfold fexp, emin, prec, emax; lia).
  assert (shr (Build_shr_record (Zpos (shl k p)) false false) e (Z.of_nat k) =
          (Build_shr_record (Zpos p) false false, e + Z.of_nat k)) as ->.
  { destruct k as [|k]; [simpl; f_equal; lia|].
    change (Z.of_nat (S k)) with (Zpos (Pos.of_succ_nat k)).
    unfold shr. rewrite iter_pos_nat, SuccNat2Pos.id_succ.
    by rewrite shr_shl. }
  cbn [shr_m loc_of_shr_record round_nearest_even Zdigits2 shr_record_of_loc].
  rewrite Hd.
  replace (fexp prec emax (53 + (e + Z.of_nat k)) - (e + Z.of_nat k)) with 0
    by (unfold fexp, emin, prec, emax; lia).
  cbn [shr shr_m].
  replace (e + Z.of_nat k <=? emax - prec) with true
    by (symmetry; apply Z.leb_le; unfold emax, prec; lia).
  done.
Qed.

(** The double of an integer below [2^53] is the integer itself,
    normalised to 53 bits. *)
Lemma digits_lower_bound p : 2 ^ (Zpos (digits2_pos p) - 1) <= Zpos p.
Proof.
  induction p as [p IH|p IH|]; cbn [digits2_pos]; [| |simpl; lia].
  - rewrite Pos2Z.inj_succ. replace (Z.succ (Zpos (digits2_pos p)) - 1)
      with (Z.succ (Zpos (digits2_pos p) - 1)) by lia.
    rewrite Z.pow_succ_r by lia. lia.
  - rewrite Pos2Z.inj_succ. replace (Z.succ (Zpos (digits2_pos p)) - 1)
      with (Z.succ (Zpos (digits2_pos p) - 1)) by lia.
    rewrite Z.pow_succ_r by lia. lia.
Qed.

Lemma digits_le_53 p : Zpos p < 2 ^ 53 -> Zpos (digits2_pos p) <= 53.
Proof.
  intros Hp. destruct (Z_le_gt_dec (Zpos (digits2_pos p)) 53) as [|Hd]; [done|].
  pose proof (digits_lower_bound p) as Hl.
  assert (2 ^ 53 <= 2 ^ (Zpos (digits2_pos p) - 1)) by (apply Z.pow_le_mono_r; lia).
  lia.
Qed.

Lemma div_eucl_1 m : Z.div_eucl m 1 = (m, 0).
Proof.
  pose proof (Z.div_1_r m) as Hq. pose proof (Z.mod_1_r m) as Hr.
  unfold Z.div, Z.modulo in Hq, Hr. destruct (Z.div_eucl m 1). by subst.
Qed.

Lemma digits_mant p : Zpos (digits2_pos p) <= 53 -> Zpos (digits2_pos (mant p)) = 53.
Proof. intros Hd. unfold mant. rewrite digits_shl. lia. Qed.

Lemma SFdiv_pos_1 p :
  Zpos (digits2_pos p) <= 53 ->
  SFdiv prec emax (S754_finite false p 0) (S754_finite false 1 0) =
    S754_finite false (mant p) (Zpos (digits2_pos p) - 53).
Proof.
  intros Hd. unfold SFdiv, SFdiv_core_binary. cbv zeta. rewrite div_eucl_1.
  cbn [Zdigits2 digits2_pos xorb].
  set (d := Zpos (digits2_pos p)) in *.
  replace (Z.min (fexp prec emax (d + 0 - (1 + 0))) (0 - 0)) with (d - 54)
    by (unfold fexp, emin, prec, emax; lia).
  replace (0 - 0 - (d - 54)) with (Z.of_nat (S (Z.to_nat (53 - d)))) by lia.
  rewrite shiftl_shl.
  change (Z.of_nat (S (Z.to_nat (53 - d)))) with (Zpos (Pos.of_succ_nat (Z.to_nat (53 - d)))).
  cbv iota beta.
  change (new_location 1 0) with loc_Exact.
  change (shl (S (Z.to_nat (53 - d))) p) with (shl 1 (mant p)).
  rewrite binary_round_aux_exact.
  - f_equal. lia.
  - by apply digits_mant.
  - assert (0 < d) by (unfold d; lia). lia.
Qed.

Lemma SFdiv_double_1 p :
  Zpos (digits2_pos p) <= 53 ->
  SFdiv prec emax (S754_finite false p~0 0) (S754_finite false 1 0) =
    S754_finite false (mant p) (Zpos (digits2_pos p) - 52).
Proof.
  intros Hd.
  destruct (Z.eq_dec (Zpos (digits2_pos p)) 53) as [E|E].
  - unfold SFdiv, SFdiv_core_binary. cbv zeta. rewrite div_eucl_1.
    cbn [Zdigits2 digits2_pos xorb]. rewrite Pos2Z.inj_succ, E.
    change (Z.min (fexp prec emax (Z.succ 53 + 0 - (1 + 0))) (0 - 0)) with 0.
    change (0 - 0 - 0) with 0.
    cbv iota beta. change (new_location 1 0) with loc_Exact.
    change (Zpos p~0) with (Zpos (shl 1 p)).
    rewrite binary_round_aux_exact by (done || lia).
    unfold mant. rewrite E. reflexivity.
  - rewrite SFdiv_pos_1 by (cbn [digits2_pos]; lia).
    cbn [digits2_pos]. rewrite Pos2Z.inj_succ. f_equal; [|lia].
    unfold mant. cbn [digits2_pos]. rewrite Pos2Z.inj_succ, shl_xO.
    f_equal. lia.
Qed.

Lemma SFmul_two p e :
  Zpos (digits2_pos p) = 53 -> -1075 <= e <= 970 ->
  SFmul prec emax (S754_finite false 4503599627370496 (-51)) (S754_finite false p e) =
    S754_finite false p (e + 1).
Proof.
  intros Hd He. unfold SFmul. cbn [xorb].
  change (Pos.mul 4503599627370496 p) with (shl 52 p).
  rewrite binary_round_aux_exact by (done || lia). f_equal. lia.
Qed.

Lemma valid_mant p e :
  Zpos (digits2_pos p) = 53 -> -1074 <= e <= 971 ->
  FloatAxioms.valid_binary (S754_finite false p e) = true.
Proof.
  intros Hd He. unfold FloatAxioms.valid_binary. cbn [valid_binary].
  unfold bounded, canonical_mantissa. rewrite Hd.
  apply andb_true_iff. split.
  - apply Z.eqb_eq. unfold fexp, emin, FloatOps.prec, FloatOps.emax. lia.
  - apply Z.leb_le. unfold FloatOps.prec, FloatOps.emax. lia.
Qed.

(** [float(n)] and [float(2 * n)] for an integer [n] below [2^53]. *)
Lemma of_Q_pos p :
  Zpos p < 2 ^ 53 ->
  Prim2SF (Binary64.of_Q (Zpos p # 1)) =
    S754_finite false (mant p) (Zpos (digits2_pos p) - 53) /\
  Prim2SF (Binary64.of_Q (Zpos p~0 # 1)) =
    S754_finite false (mant p) (Zpos (digits2_pos p) - 52).
Proof.
  intros Hp. pose proof (digits_le_53 p Hp) as Hd.
  pose proof (digits_mant p Hd) as Hm.
  assert (0 < Zpos (digits2_pos p)) as H0 by lia.
  unfold Binary64.of_Q. cbn [Qnum Qden Binary64.of_Z].
  rewrite SFdiv_pos_1, SFdiv_double_1 by done.
  split; apply Prim2SF_SF2Prim; apply valid_mant; (done || lia).
Qed.

Lemma float_inj x y : Prim2SF x = Prim2SF y -> x = y.
Proof. intros E. by rewrite <- (SF2Prim_Prim2SF x), <- (SF2Prim_Prim2SF y), E. Qed.

Lemma float_double p :
  Zpos p < 2 ^ 53 ->
  PrimFloat.mul 2 (Binary64.of_Q (Zpos p # 1)) = Binary64.of_Q (Zpos p~0 # 1).
Proof.
  intros Hp. destruct (of_Q_pos p Hp) as [H1 H2].
  pose proof (digits_le_53 p Hp) as Hd.
  apply float_inj. rewrite mul_spec, H1, H2.
  change (Prim2SF 2) with (S754_finite false 4503599627370496 (-51)).
  unfold SF64mul. rewrite SFmul_two; [f_equal; lia| by apply digits_mant |].
  assert (0 < Zpos (digits2_pos p)) by lia. lia.
Qed.

(** The two quotients that [ratio] can be when the sequences match
    fully or not at all, for fewer than [2^53] elements. *)
Lemma ratio_full n :
  (0 < n)%nat -> Z.of_nat n < 2 ^ 53 ->
  fdiv (F:=float) (fmul (lit 2) (of_int n)) (of_int (n + n)) = lit 1 /\
  fdiv (F:=float) (fmul (lit 2) (of_int 0)) (of_int n) = lit 0.
Proof.
  intros Hn Hb. unfold of_int. cbn [lit fdiv fmul float_arith].
  destruct (Z.of_nat n) as [|p|p] eqn:E; [lia| |lia].
  replace (Z.of_nat (n + n)) with (Zpos p~0) by lia.
  unfold inject_Z.
  change (Binary64.of_Q 2) with 2%float.
  change (Binary64.of_Q 1) with 1%float.
  change (Binary64.of_Q 0) with 0%float.
  change (Binary64.of_Q (Z.of_nat 0 # 1)) with 0%float.
  destruct (of_Q_pos p Hb) as [H1 H2].
  rewrite float_double by done. split.
  - by eapply float_div_self.
  - change (2 * 0)%float with 0%float. by eapply float_zero_div.
Qed.
End Binary64Ratio.

(** ** Vocabulary order, and [sequence_similarity] on binary64 *)

(** The order in which the vocabulary is listed does not change the sums
    that [cosine_similarity] takes over it. *)
Lemma zip_with_mul_fmap {A} (f g : A -> nat) (l : list A) :
  zip_with Nat.mul (f <$> l) (g <$> l) = (fun x => f x * g x) <$> l.
Proof. induction l as [|x l IH]; [done|]. rewrite !fmap_cons. simpl. f_equal. apply IH. Qed.

Lemma dot_product_perm {A} (f g : A -> nat) (l l' : list A) :
  l ≡ₚ l' ->
  sum_list (zip_with Nat.mul (f <$> l) (g <$> l)) =
    sum_list (zip_with Nat.mul (f <$> l') (g <$> l')).
Proof. intros Hp. rewrite !zip_with_mul_fmap. by rewrite Hp. Qed.

Lemma length_lower t : length (list_ascii_of_string (Text.lower t)) = String.length t.
Proof. induction t as [|c t IH]; simpl; [done|]. by rewrite IH. Qed.

Lemma lower_nil t : list_ascii_of_string (Text.lower t) = [] <-> t = ""%string.
Proof. destruct t; simpl; split; done. Qed.

(** On binary64 [sequence_similarity] takes the same values as in exact
    arithmetic, for every string of fewer than [2^53] characters. *)
Lemma sequence_similarity_float (t : string) :
  (Z.of_nat (String.length t) < 2 ^ 53)%Z ->
  sequence_similarity (F:=float) t t = lit 1 /\
  sequence_similarity (F:=float) t "" = (if String.eqb t "" then lit 1 else lit 0) /\
  sequence_similarity (F:=float) "" t = (if String.eqb t "" then lit 1 else lit 0).
Proof.
  intros Hlen. rewrite <- length_lower in Hlen.
  unfold sequence_similarity, Difflib.ratio.
  rewrite DifflibFacts.matches_self, DifflibFacts.matches_no_b,
    DifflibFacts.matches_no_a.
  destruct (String.eqb_spec t "") as [->|Hne]; [done|].
  assert (0 < length (list_ascii_of_string (Text.lower t))) as Hpos
    by (destruct t; [done|simpl; lia]).
  change (list_ascii_of_string (Text.lower "")) with (@nil ascii).
  cbn [length]. rewrite Nat.add_0_r, Nat.add_0_l.
  destruct (Binary64Ratio.ratio_full _ Hpos Hlen) as [H1 H2].
  replace (length (list_ascii_of_string (Text.lower t)) +
           length (list_ascii_of_string (Text.lower t)) =? 0) with false
    by (symmetry; apply Nat.eqb_neq; lia).
  replace (length (list_ascii_of_string (Text.lower t)) =? 0) with false
    by (symmetry; apply Nat.eqb_neq; lia).
  by rewrite H1, H2.
Qed.

(** * Further facts *)

(** ** Tokens *)

Module TokenFacts.
Import Text TextFacts.

Lemma lower_char_idemp c : lower_char (lower_char c) = lower_char c.
Proof. destruct c as [[] [] [] [] [] [] [] []]; reflexivity. Qed.

Lemma lower_idemp t : lower (lower t) = lower t.
Proof. induction t as [|c t IH]; simpl; [done|]. by rewrite lower_char_idemp, IH. Qed.

Lemma alnum_lower_char c :
is_ascii_alnum (lower_char c) = true -> is_lower_alnum (lower_char c) = true.
Proof. destruct c as [[] [] [] [] [] [] [] []]; vm_compute; done. Qed.

Lemma list_ascii_lower t :
list_ascii_of_string (lower t) = lower_char <$> list_ascii_of_string t.
Proof. induction t as [|c t IH]; simpl; [done|]. by rewrite IH. Qed.

Lemma list_ascii_app s t :
list_ascii_of_string (s ++ t) = list_ascii_of_string s ++ list_ascii_of_string t.
Proof. induction s as [|c s IH]; simpl; [done|]. by rewrite IH. Qed.

(** Every run is non-empty and made of characters of the input. *)
Lemma word_runs_from_elem cur l w :
w ∈ word_runs_from cur l -> w <> [] /\ forall c, c ∈ w -> c ∈ cur ++ l.
Proof.
revert cur. induction l as [|c l IH]; intros cur Hw.
- simpl in Hw. destruct cur as [|d cur]; [by apply elem_of_nil in Hw|].
  apply list_elem_of_singleton in Hw as ->. split; [done|].
  intros x Hx. by rewrite app_nil_r.
- cbn [word_runs_from] in Hw. destruct (is_word c).
  + apply IH in Hw as [Hne Hin]. split; [done|].
    intros x Hx. specialize (Hin x Hx). rewrite <- app_assoc in Hin. done.
  + destruct cur as [|d cur].
    * apply IH in Hw as [Hne Hin]. split; [done|].
      intros x Hx. specialize (Hin x Hx). simpl in *. apply elem_of_cons. by right.
    * apply elem_of_cons in Hw as [->|Hw].
      -- split; [done|]. intros x Hx. apply elem_of_app. by left.
      -- apply IH in Hw as [Hne Hin]. split; [done|].
         intros x Hx. specialize (Hin x Hx). simpl in Hin.
         apply elem_of_app. right. apply elem_of_cons. by right.
Qed.

(** A character that is not a word character ends the run before it. *)
Lemma word_runs_from_sep cur l1 c l2 :
is_word c = false ->
word_runs_from cur (l1 ++ c :: l2) = word_runs_from cur l1 ++ word_runs_from [] l2.
Proof.
intros Hc. revert cur. induction l1 as [|d l1 IH]; intros cur.
- simpl. rewrite Hc. by destruct cur.
- cbn [app word_runs_from]. destruct (is_word d); [apply IH|].
  destruct cur; by rewrite IH.
Qed.

Lemma tokenize_runs text :
tokenize text =
  string_of_list_ascii <$>
    filter (fun w => pure w = true)
           (word_runs_from [] (lower_char <$> list_ascii_of_string text)).
Proof.
unfold tokenize, findall. fold (tokens_of None (list_ascii_of_string (lower text))).
rewrite tokens_of_runs by done. by rewrite list_ascii_lower.
Qed.

End TokenFacts.

(** Tokens joined by spaces are read back as they are. *)
Module RoundTrip.
Import Text TextFacts TokenFacts.

Lemma lower_alnum_fixed c : is_lower_alnum c = true -> lower_char c = c.
Proof. destruct c as [[] [] [] [] [] [] [] []]; vm_compute; done. Qed.

Lemma lower_alnum_alnum c : is_lower_alnum c = true -> is_ascii_alnum c = true.
Proof. destruct c as [[] [] [] [] [] [] [] []]; vm_compute; done. Qed.

Lemma word_runs_from_all cur l :
forallb is_word l = true -> cur ++ l <> [] -> word_runs_from cur l = [cur ++ l].
Proof.
revert cur. induction l as [|c l IH]; intros cur Hw Hne.
- rewrite app_nil_r in *. simpl. by destruct cur.
- cbn [forallb] in Hw. apply andb_true_iff in Hw as [Hc Hl].
  cbn [word_runs_from]. rewrite Hc. rewrite IH; [|done|].
  + by rewrite <- app_assoc.
  + rewrite <- app_assoc. by destruct cur.
Qed.

Lemma tokenize_one (w : string) :
w <> ""%string -> forallb is_lower_alnum (list_ascii_of_string w) = true ->
tokenize w = [w].
Proof.
intros Hne Hw. rewrite tokenize_runs.
assert (lower_char <$> list_ascii_of_string w = list_ascii_of_string w) as ->.
{ rewrite forallb_forall in Hw.
  induction (list_ascii_of_string w) as [|c l IH]; [done|].
  rewrite fmap_cons, lower_alnum_fixed by (apply Hw; by left).
  f_equal. apply IH. intros x Hx. apply Hw. by right. }
assert (list_ascii_of_string w <> []) as Hl.
{ intros E. apply Hne. rewrite <- (string_of_list_ascii_of_string w). by rewrite E. }
rewrite (word_runs_from_all [] (list_ascii_of_string w)); [|..|done].
- rewrite app_nil_l, filter_cons, decide_True.
  + simpl. by rewrite string_of_list_ascii_of_string.
  + unfold pure. apply forallb_forall. intros c Hc.
    rewrite forallb_forall in Hw. by apply lower_alnum_alnum, Hw.
- apply forallb_forall. intros c Hc.
  rewrite forallb_forall in Hw. by apply alnum_is_word, lower_alnum_alnum, Hw.
Qed.

Lemma tokenize_sep a b c :
is_word c = false -> tokenize (a ++ String c b) = tokenize a ++ tokenize b.
Proof.
intros Hc. rewrite !tokenize_runs, list_ascii_app. cbn [list_ascii_of_string].
rewrite fmap_app, fmap_cons.
rewrite word_runs_from_sep by (by rewrite is_word_lower_char).
by rewrite filter_app, fmap_app.
Qed.

Lemma tokenize_concat (ts : list string) :
Forall (fun t => t <> ""%string /\
                 forallb is_lower_alnum (list_ascii_of_string t) = true) ts ->
tokenize (String.concat " " ts) = ts.
Proof.
induction 1 as [|w ts [Hne Hw] Hts IH]; [done|].
destruct ts as [|w' ts].
- simpl. by apply tokenize_one.
- change (String.concat " " (w :: w' :: ts))
    with (w ++ String " " (String.concat " " (w' :: ts)))%string.
  rewrite tokenize_sep, IH, tokenize_one by done. done.
Qed.

Lemma tokens_shape (text : string) :
Forall (fun t => t <> ""%string /\
                 forallb is_lower_alnum (list_ascii_of_string t) = true)
       (tokenize text).
Proof.
rewrite tokenize_runs. apply Forall_fmap, Forall_forall. intros w Hw.
apply list_elem_of_filter in Hw as [Hp Hw].
apply word_runs_from_elem in Hw as [Hne Hin]. simpl. split.
- destruct w; [done|]. done.
- rewrite list_ascii_of_string_of_list_ascii.
  apply forallb_forall. intros c Hc.
  unfold pure in Hp. rewrite forallb_forall in Hp.
  specialize (Hp c Hc). apply list_elem_of_In in Hc.
  specialize (Hin c Hc). rewrite app_nil_l in Hin.
  apply list_elem_of_fmap in Hin as (d & -> & _).
  by apply alnum_lower_char.
Qed.
End RoundTrip.

(** ** Symmetry and the keyword overlap *)

Section MeasureFacts.
Context {F : Type} `{Arith F}.

Lemma keyword_overlap_comm (t1 t2 : string) :
keyword_overlap (F:=F) t1 t2 = keyword_overlap t2 t1.
Proof.
unfold keyword_overlap. rewrite orb_comm.
by rewrite (comm_L (∩) (list_to_set (tokenize t1))),
           (comm_L (∪) (list_to_set (tokenize t1))).
Qed.

Lemma cosine_similarity_comm (t1 t2 : string) :
(forall x y : F, fmul x y = fmul y x) ->
cosine_similarity (F:=F) t1 t2 = cosine_similarity t2 t1.
Proof.
intros Hc. unfold cosine_similarity.
rewrite (orb_comm (is_nil (tokenize t1))).
rewrite (comm_L (∪) (list_to_set (tokenize t1))).
set (vocab := elements _).
rewrite (orb_comm (feqb (fsqrt (of_int (sum_list ((fun a => a * a) <$> (count (tokenize t1) <$> vocab))))) _)).
rewrite (Hc (fsqrt (of_int (sum_list ((fun a => a * a) <$> (count (tokenize t1) <$> vocab)))))).
rewrite !zip_with_mul_fmap.
by rewrite (list_fmap_ext (fun x => count (tokenize t1) x * count (tokenize t2) x)
                          (fun x => count (tokenize t2) x * count (tokenize t1) x) vocab)
  by (intros; apply Nat.mul_comm).
Qed.

Lemma keyword_overlap_sets (t1 t2 : string) :
keyword_overlap (F:=F) t1 t2 =
  if bool_decide (token_set t1 = ∅ \/ token_set t2 = ∅) then lit 0
  else lit (Z.of_nat (size (token_set t1 ∩ token_set t2))
            # Pos.of_nat (size (token_set t1 ∪ token_set t2))).
Proof.
unfold keyword_overlap. fold (token_set t1) (token_set t2).
destruct (size (token_set t1) =? 0) eqn:E1.
- apply Nat.eqb_eq, size_empty_iff in E1. apply leibniz_equiv in E1.
  rewrite bool_decide_eq_true_2 by (by left). done.
- destruct (size (token_set t2) =? 0) eqn:E2.
  + apply Nat.eqb_eq, size_empty_iff in E2. apply leibniz_equiv in E2.
    rewrite bool_decide_eq_true_2 by (by right). done.
  + apply Nat.eqb_neq in E1, E2.
    rewrite bool_decide_eq_false_2; [done|].
    intros [E|E]; rewrite E, size_empty in *; done.
Qed.
End MeasureFacts.

Module Binary64Mul.
Lemma SFmul_comm x y : SFmul prec emax x y = SFmul prec emax y x.
Proof.
destruct x as [sx|sx| |sx mx ex], y as [sy|sy| |sy my ey]; simpl;
  rewrite ?(xorb_comm sy sx); try reflexivity.
by rewrite (Pos.mul_comm my mx), (Z.add_comm ey ex).
Qed.

Lemma float_mul_comm (x y : float) : PrimFloat.mul x y = PrimFloat.mul y x.
Proof.
apply Binary64Ratio.float_inj. rewrite !FloatAxioms.mul_spec. apply SFmul_comm.
Qed.

Lemma float_ratio_self n : 0 < n -> lit (F:=float) (Z.of_nat n # Pos.of_nat n) = lit 1.
Proof.
intros Hn. cbn [lit float_arith]. unfold Binary64.of_Q. cbn [Qnum Qden].
replace (Z.of_nat n) with (Z.pos (Pos.of_nat n))
  by (destruct n; [lia|]; by rewrite <- Pos.of_nat_succ, Zpos_P_of_succ_nat, Nat2Z.inj_succ).
cbn [Binary64.of_Z]. rewrite Binary64Ratio.SFdiv_self. reflexivity.
Qed.

End Binary64Mul.

Module KeywordFacts.
Import Exact ExactFacts RealFacts.

Lemma pos_of_nat_Z n : 0 < n -> Z.pos (Pos.of_nat n) = Z.of_nat n.
Proof.
intros Hn. destruct n; [lia|].
by rewrite <- Pos.of_nat_succ, Zpos_P_of_succ_nat, Nat2Z.inj_succ.
Qed.

Lemma lit_ratio i u : 0 < u -> lit (F:=R) (Z.of_nat i # Pos.of_nat u) = (INR i / INR u)%R.
Proof.
intros Hu. cbn [lit real_arith]. unfold Q2R. cbn [Qnum Qden].
rewrite pos_of_nat_Z by done. by rewrite !INR_IZR_INZ.
Qed.

Lemma token_set_empty t : token_set t = ∅ <-> tokenize t = [].
Proof.
unfold token_set. split.
- intros E. destruct (tokenize t) as [|w ws]; [done|].
  assert (w ∈ (∅ : gset string)) as Hw by (rewrite <- E; set_solver).
  set_solver.
- by intros ->.
Qed.

Lemma size_pos (s : gset string) : s <> ∅ -> 0 < size s.
Proof.
intros Hs. destruct (size s) eqn:E; [|lia].
apply size_empty_iff in E. apply leibniz_equiv in E. done.
Qed.

(** In exact arithmetic the overlap is [|s1 ∩ s2| / |s1 ∪ s2|]. *)
Lemma keyword_overlap_real t1 t2 :
token_set t1 <> ∅ -> token_set t2 <> ∅ ->
keyword_overlap (F:=R) t1 t2 =
  (INR (size (token_set t1 ∩ token_set t2)) / INR (size (token_set t1 ∪ token_set t2)))%R
/\ 0 < size (token_set t1 ∪ token_set t2)
/\ size (token_set t1 ∩ token_set t2) <= size (token_set t1 ∪ token_set t2).
Proof.
intros H1 H2. rewrite keyword_overlap_sets.
rewrite bool_decide_eq_false_2 by tauto.
assert (0 < size (token_set t1 ∪ token_set t2)) as Hu.
{ apply size_pos. intros E. apply H1. set_solver. }
split; [by apply lit_ratio|]. split; [done|].
apply subseteq_size. set_solver.
Qed.
Lemma keyword_range t1 t2 : (0 <= keyword_overlap (F:=R) t1 t2 <= 1)%R.
Proof.
destruct (decide (token_set t1 = ∅ \/ token_set t2 = ∅)) as [He|Hne].
- rewrite keyword_overlap_sets, bool_decide_eq_true_2 by done.
  rewrite RealFacts.lit_0. lra.
- assert (token_set t1 <> ∅) as H1 by tauto.
  assert (token_set t2 <> ∅) as H2 by tauto.
  destruct (keyword_overlap_real t1 t2 H1 H2) as (-> & Hu & Hle).
  assert (0 < INR (size (token_set t1 ∪ token_set t2)))%R as HU by (by apply lt_0_INR).
  assert (0 <= INR (size (token_set t1 ∩ token_set t2)))%R as HI by apply pos_INR.
  apply le_INR in Hle. split.
  + apply Rmult_le_pos; [exact HI|]. left. by apply Rinv_0_lt_compat.
  + apply (Rmult_le_reg_r (INR (size (token_set t1 ∪ token_set t2)))); [exact HU|].
    unfold Rdiv. rewrite Rmult_assoc, Rinv_l by lra. lra.
Qed.
End KeywordFacts.

(** ** The cosine *)

Section CosineFacts.

Lemma am_gm (s p q : nat) : s * s <= p * q -> 2 * s <= p + q.
Proof.
intros Hs. destruct (le_gt_dec (2 * s) (p + q)) as [|Hlt]; [done|]. exfalso.
assert ((p + q) * (p + q) < 2 * s * (2 * s)) as H1
  by (apply Nat.square_lt_mono_nonneg; lia).
pose proof (Z.square_nonneg (Z.of_nat p - Z.of_nat q)) as H2.
nia.
Qed.

(** Cauchy-Schwarz for two vectors of counts over the same vocabulary. *)
Lemma cauchy_schwarz {A} (f g : A -> nat) (l : list A) :
let dot := sum_list ((fun x => f x * g x) <$> l) in
dot * dot <=
  sum_list ((fun a => a * a) <$> (f <$> l)) * sum_list ((fun b => b * b) <$> (g <$> l)).
Proof.
induction l as [|x l IH]; [done|]. cbn zeta in *.
rewrite !fmap_cons. cbn [sum_list sum_list_with].
set (S := sum_list ((fun x => f x * g x) <$> l)) in *.
set (P := sum_list ((fun a => a * a) <$> (f <$> l))) in *.
set (Q := sum_list ((fun b => b * b) <$> (g <$> l))) in *.
assert (2 * (f x * g x * S) <= f x * f x * Q + g x * g x * P) as H.
{ apply am_gm. 
  replace (f x * g x * S * (f x * g x * S)) with (f x * f x * (g x * g x) * (S * S)) by lia.
  replace (f x * f x * Q * (g x * g x * P)) with (f x * f x * (g x * g x) * (P * Q)) by lia.
  apply Nat.mul_le_mono_l. exact IH. }
unfold Datatypes.id.
replace ((f x * g x + S) * (f x * g x + S))
  with (f x * f x * (g x * g x) + 2 * (f x * g x * S) + S * S) by ring.
replace ((f x * f x + P) * (g x * g x + Q))
  with (f x * f x * (g x * g x) + (f x * f x * Q + g x * g x * P) + P * Q) by ring.
apply Nat.add_le_mono; [apply Nat.add_le_mono_l; exact H | exact IH].
Qed.



End CosineFacts.

Section CosineCounts.
Context {F : Type} `{Arith F}.

End CosineCounts.

Module CosineReal.
Import Exact ExactFacts RealFacts.

(** In exact arithmetic, for two texts with tokens the cosine is the dot
  product over the product of the norms, which are positive. *)
Lemma cosine_real t1 t2 :
tokenize t1 <> [] -> tokenize t2 <> [] ->
let vocab : gset string := list_to_set (tokenize t1) ∪ list_to_set (tokenize t2) in
let v1 := count (tokenize t1) <$> elements vocab in
let v2 := count (tokenize t2) <$> elements vocab in
let d := sum_list (zip_with Nat.mul v1 v2) in
let n1 := sum_list ((fun a => a * a) <$> v1) in
let n2 := sum_list ((fun b => b * b) <$> v2) in
cosine_similarity (F:=R) t1 t2 =
  (INR d / (R_sqrt.sqrt (INR n1) * R_sqrt.sqrt (INR n2)))%R /\
0 < n1 /\ 0 < n2 /\ d * d <= n1 * n2.
Proof.
intros H1 H2. cbn zeta. unfold cosine_similarity.
destruct (tokenize t1) as [|w1 ts1] eqn:E1; [done|].
destruct (tokenize t2) as [|w2 ts2] eqn:E2; [done|]. cbn [is_nil orb].
set (vocab := elements _).
set (n1 := sum_list ((fun a => a * a) <$> (count (w1 :: ts1) <$> vocab))).
set (n2 := sum_list ((fun a => a * a) <$> (count (w2 :: ts2) <$> vocab))).
assert (0 < n1) as Hn1 by (apply norm_pos; [done|apply union_subseteq_l]).
assert (0 < n2) as Hn2 by (apply norm_pos; [done|apply union_subseteq_r]).
rewrite !of_int_INR. cbn [fsqrt feqb fdiv fmul real_arith].
assert (0 < R_sqrt.sqrt (INR n1))%R as Hs1 by (apply sqrt_lt_R0; by apply lt_0_INR).
assert (0 < R_sqrt.sqrt (INR n2))%R as Hs2 by (apply sqrt_lt_R0; by apply lt_0_INR).
replace (eqb (R_sqrt.sqrt (INR n1)) (INR 0)) with false
  by (symmetry; apply eqb_false; simpl; lra).
replace (eqb (R_sqrt.sqrt (INR n2)) (INR 0)) with false
  by (symmetry; apply eqb_false; simpl; lra).
cbn [orb]. split; [done|]. split; [done|]. split; [done|].
rewrite zip_with_mul_fmap. apply cauchy_schwarz.
Qed.
Lemma cosine_range t1 t2 : (0 <= cosine_similarity (F:=R) t1 t2 <= 1)%R.
Proof.
destruct (decide (tokenize t1 = [])) as [E1|H1].
{ rewrite SimilarityFacts.cosine_no_tokens_l, RealFacts.lit_0 by done. lra. }
destruct (decide (tokenize t2 = [])) as [E2|H2].
{ rewrite (cosine_similarity_comm (F:=R)) by apply Rmult_comm.
  rewrite SimilarityFacts.cosine_no_tokens_l, RealFacts.lit_0 by done. lra. }
destruct (cosine_real t1 t2 H1 H2) as (-> & Hn1 & Hn2 & Hcs).
set (vocab := elements (list_to_set (tokenize t1) ∪ list_to_set (tokenize t2) : gset string)) in *.
set (d := sum_list (zip_with Nat.mul (count (tokenize t1) <$> vocab)
                                     (count (tokenize t2) <$> vocab))) in *.
set (n1 := sum_list ((fun a => a * a) <$> (count (tokenize t1) <$> vocab))) in *.
set (n2 := sum_list ((fun b => b * b) <$> (count (tokenize t2) <$> vocab))) in *.
assert (0 < INR n1)%R as HR1 by (by apply lt_0_INR).
assert (0 < INR n2)%R as HR2 by (by apply lt_0_INR).
assert (0 < R_sqrt.sqrt (INR n1) * R_sqrt.sqrt (INR n2))%R as Hp.
{ apply Rmult_lt_0_compat; by apply sqrt_lt_R0. }
assert (0 <= INR d)%R as Hd by apply pos_INR.
split.
- apply Rmult_le_pos; [exact Hd|]. left. by apply Rinv_0_lt_compat.
- apply (Rmult_le_reg_r (R_sqrt.sqrt (INR n1) * R_sqrt.sqrt (INR n2))); [exact Hp|].
  unfold Rdiv. rewrite Rmult_assoc, Rinv_l, Rmult_1_r, Rmult_1_l by lra.
  rewrite <- sqrt_mult by lra.
  rewrite <- (sqrt_square (INR d)) at 1 by exact Hd.
  apply sqrt_le_1_alt. rewrite <- !mult_INR. by apply le_INR.
Qed.
End CosineReal.

(** ** The size of the matching blocks *)

Module DifflibSize.
Import Difflib DifflibFacts.

Section Columns.
Variables a b : list ascii.

(** The column side of [row_loop_bounds]: a length recorded at column
[j] fits between [blo] and [j], and the best block lies in
[b[blo:bhi]]. *)
Lemma j2lenget_col blo j2len j :
(forall j v, j2len !! j = Some v -> blo + v <= j + 1) ->
blo <= j -> blo + (j2lenget j2len j + 1) <= j + 1.
Proof.
intros Hv Hj. destruct j as [|j]; simpl; [lia|].
destruct (j2len !! j) as [v|] eqn:E; simpl; [|lia].
specialize (Hv j v E). lia.
Qed.

Lemma row_loop_cols i blo bhi j2len js st :
(forall j v, j2len !! j = Some v -> blo + v <= j + 1) ->
(forall j v, st.1 !! j = Some v -> blo + v <= j + 1) ->
blo <= st.2.1.2 /\ st.2.1.2 + st.2.2 <= bhi ->
let st' := row_loop i blo bhi j2len js st in
(forall j v, st'.1 !! j = Some v -> blo + v <= j + 1) /\
blo <= st'.2.1.2 /\ st'.2.1.2 + st'.2.2 <= bhi.
Proof.
intros Hj. revert st.
induction js as [|j js IH]; intros [new [[bi bj] bs]] Hnew Hbest; [done|].
cbn [row_loop]. destruct (j <? blo) eqn:E1; [by apply IH|].
destruct (bhi <=? j) eqn:E2; [done|].
apply Nat.ltb_ge in E1. apply Nat.leb_gt in E2.
pose proof (j2lenget_col blo j2len j Hj E1) as Hk.
apply IH; cbn [fst snd].
- intros j' v. destruct (decide (j = j')) as [->|Hne].
+ rewrite lookup_insert_eq. intros [= <-]. lia.
+ rewrite lookup_insert_ne by done. apply Hnew.
- cbn [fst snd] in Hbest.
destruct (bs <? j2lenget j2len j + 1); cbn [fst snd]; lia.
Qed.

Lemma rows_loop_cols alo blo bhi l :
blo <= bhi ->
let st := foldl (rows_step a b blo bhi) (∅, (alo, blo, 0)) l in
(forall j v, st.1 !! j = Some v -> blo + v <= j + 1) /\
blo <= st.2.1.2 /\ st.2.1.2 + st.2.2 <= bhi.
Proof.
intros Hb. induction l as [|i l IH] using rev_ind; cbn zeta.
- cbn [foldl fst snd]. split; [intros j v; by rewrite lookup_empty|]. lia.
- rewrite foldl_snoc. cbn zeta in IH.
destruct (foldl (rows_step a b blo bhi) (∅, (alo, blo, 0)) l) as [j2len best].
destruct IH as [IH1 IH2]. cbn [fst snd] in *. unfold rows_step.
apply row_loop_cols; cbn [fst snd]; [done| |done].
intros j v. by rewrite lookup_empty.
Qed.

Lemma extend_left_cols alo blo bi bj bs :
blo <= bj ->
blo <= (extend_left a b alo blo bi bj bs).1.2 /\
(extend_left a b alo blo bi bj bs).1.2 + (extend_left a b alo blo bi bj bs).2
= bj + bs.
Proof.
revert bj bs. induction bi as [|bi IH]; intros bj bs H; [simpl; lia|].
cbn [extend_left]. destruct bj as [|bj]; [simpl; lia|].
destruct ((alo <? S bi) && (blo <? S bj) && same_at a b bi bj) eqn:E;
[|simpl; lia].
apply andb_true_iff in E as [E _]. apply andb_true_iff in E as [_ E].
apply Nat.ltb_lt in E.
destruct (IH bj (S bs)) as [H1 H2]; [lia|]. split; [done|]. lia.
Qed.

Lemma extend_right_cols d bhi bi bj bs :
bj + bs <= bhi -> bj + (extend_right a b d bhi bi bj bs).2 <= bhi.
Proof.
revert bs. induction d as [|d IH]; intros bs Hb; [done|].
cbn [extend_right].
destruct ((bj + bs <? bhi) && same_at a b (bi + bs) (bj + bs)) eqn:E; [|done].
apply andb_true_iff in E as [E _]. apply Nat.ltb_lt in E.
apply IH. lia.
Qed.

(** The block found lies within the columns it was searched in. *)
Lemma find_longest_match_cols alo ahi blo bhi :
blo <= bhi ->
let x := find_longest_match a b alo ahi blo bhi in
blo <= x.1.2 /\ x.1.2 + x.2 <= bhi.
Proof.
intros Hle. cbn zeta. unfold find_longest_match, rows_loop.
pose proof (rows_loop_cols alo blo bhi (seq alo (ahi - alo)) Hle) as Hrows.
cbn zeta in Hrows.
destruct (foldl _ _ _) as [j2len [[bi bj] bs]]. destruct Hrows as [_ [H1 H2]].
cbn [fst snd] in *.
pose proof (extend_left_cols alo blo bi bj bs H1) as [H3 H4].
destruct (extend_left a b alo blo bi bj bs) as [[bi' bj'] bs'].
cbn [fst snd] in *.
pose proof (extend_right_bounds a b (ahi - (bi' + bs')) bhi bi' bj' bs') as [H5 _].
pose proof (extend_right_cols (ahi - (bi' + bs')) bhi bi' bj' bs') as H6.
destruct (extend_right _ _ _ _ _ _ _) as [[bi'' bj''] bs''].
cbn [fst snd] in *. injection H5 as -> ->.
split; lia.
Qed.
End Columns.

Section Blocks.
Variables a b : list ascii.

Lemma blocks_size_app l1 l2 : blocks_size (l1 ++ l2) = blocks_size l1 + blocks_size l2.
Proof. unfold blocks_size. rewrite fmap_app. apply sum_list_with_app. Qed.

Lemma blocks_size_snoc l (i j k : nat) : blocks_size (l ++ [(i, j, k)]) = blocks_size l + k.
Proof. rewrite blocks_size_app. unfold blocks_size at 2. simpl. lia. Qed.

(** The blocks found are disjoint pieces of the ranges searched: their
sizes add up to no more than the rows, and no more than the
columns, of the ranges in the queue. *)
Lemma blocks_loop_size fuel queue acc out :
Forall (fun r : range => r.1.1.1 <= r.1.1.2 /\ r.1.2 <= r.2) queue ->
blocks_loop a b fuel queue acc = Some out ->
blocks_size out <=
blocks_size acc + sum_list_with (fun r : range => r.1.1.2 - r.1.1.1) queue /\
blocks_size out <=
blocks_size acc + sum_list_with (fun r : range => r.2 - r.1.2) queue.
Proof.
revert queue acc. induction fuel as [|fuel IH]; intros queue acc Hok Hout.
- destruct queue as [|[[[alo ahi] blo] bhi] queue]; [|done].
injection Hout as <-. simpl. lia.
- destruct queue as [|[[[alo ahi] blo] bhi] queue].
{ injection Hout as <-. simpl. lia. }
cbn [blocks_loop] in Hout.
apply Forall_cons in Hok as [[Hr Hc] Hok]. cbn [fst snd] in Hr, Hc.
pose proof (find_longest_match_bounds a b alo ahi blo bhi Hr) as [H1 H2].
pose proof (find_longest_match_cols a b alo ahi blo bhi Hc) as [H3 H4].
destruct (find_longest_match a b alo ahi blo bhi) as [[i j] k].
cbn [fst snd] in *. cbn [sum_list_with fst snd].
destruct (k =? 0) eqn:Hk.
{ apply IH in Hout; [lia|done]. }
apply IH in Hout.
+ rewrite blocks_size_snoc in Hout.
  destruct ((i + k <? ahi) && (j + k <? bhi)) eqn:E2;
    destruct ((alo <? i) && (blo <? j)) eqn:E1;
    cbn [sum_list_with fst snd] in Hout; lia.
+ destruct ((i + k <? ahi) && (j + k <? bhi)) eqn:E2;
    destruct ((alo <? i) && (blo <? j)) eqn:E1;
    try (apply andb_true_iff in E1 as [E1a E1b];
         apply Nat.ltb_lt in E1a; apply Nat.ltb_lt in E1b);
    try (apply andb_true_iff in E2 as [E2a E2b];
         apply Nat.ltb_lt in E2a; apply Nat.ltb_lt in E2b);
    repeat (constructor; [cbn [fst snd]; lia|]); done.
Qed.

Lemma found_blocks_size :
blocks_size (found_blocks a b) <= length a /\
blocks_size (found_blocks a b) <= length b.
Proof.
unfold found_blocks.
destruct (blocks_loop a b (2 * length a + 1) [(0, length a, 0, length b)] [])
as [out|] eqn:E; [|change (blocks_size []) with 0; lia].
apply blocks_loop_size in E.
- cbn [sum_list_with fst snd] in E. change (blocks_size []) with 0 in E. lia.
- constructor; [|done]. cbn [fst snd]. lia.
Qed.

Lemma collapse_step_size st blocks :
let st' := foldl collapse_step st blocks in
blocks_size st'.2 + st'.1.2 = blocks_size st.2 + st.1.2 + blocks_size blocks.
Proof.
revert st. induction blocks as [|[[i2 j2] k2] blocks IH];
intros [[[i1 j1] k1] na]; cbn zeta.
- cbn [foldl]. change (blocks_size []) with 0. lia.
- cbn [foldl]. cbn zeta in IH. rewrite IH.
change (blocks_size (((i2, j2), k2) :: blocks)) with (k2 + blocks_size blocks).
unfold collapse_step.
destruct ((i1 + k1 =? i2) && (j1 + k1 =? j2)); cbn [fst snd]; [lia|].
destruct (k1 =? 0) eqn:E; [apply Nat.eqb_eq in E; lia|].
rewrite blocks_size_snoc. lia.
Qed.

Lemma collapse_size blocks : blocks_size (collapse blocks) = blocks_size blocks.
Proof.
unfold collapse.
pose proof (collapse_step_size ((0, 0, 0), []) blocks) as H. cbn zeta in H.
destruct (foldl collapse_step ((0, 0, 0), []) blocks) as [[[i1 j1] k1] na].
cbn [fst snd] in H. change (blocks_size []) with 0 in H.
destruct (k1 =? 0) eqn:E; [apply Nat.eqb_eq in E; lia|].
rewrite blocks_size_snoc. lia.
Qed.

(** The characters matched are at most the characters of either side. *)
Lemma matches_le : matches a b <= length a /\ matches a b <= length b.
Proof.
assert (matches a b = blocks_size (found_blocks a b)) as ->.
{ unfold matches, get_matching_blocks. fold (blocks_size (collapse (list_sort block_ltb (found_blocks a b)) ++ [(length a, length b, 0)])).
rewrite blocks_size_snoc, collapse_size, Nat.add_0_r. unfold blocks_size.
by rewrite (list_sort_perm block_ltb (found_blocks a b)). }
apply found_blocks_size.
Qed.
End Blocks.
End DifflibSize.

(** ** The range of the sequence ratio *)

Module RangeFacts.
Import Exact ExactFacts RealFacts.

Lemma ratio_range a b : (0 <= Difflib.ratio (F:=R) a b <= 1)%R.
Proof.
unfold Difflib.ratio.
destruct (length a + length b =? 0) eqn:E; [rewrite lit_1; lra|].
apply Nat.eqb_neq in E.
destruct (DifflibSize.matches_le a b) as [Ha Hb].
rewrite !of_int_INR, lit_2. cbn [fdiv fmul real_arith].
assert (0 < INR (length a + length b))%R as HT by (apply lt_0_INR; lia).
assert (0 <= INR (Difflib.matches a b))%R as HM by apply pos_INR.
assert (2 * INR (Difflib.matches a b) <= INR (length a + length b))%R as HL.
{ replace 2%R with (INR 2) by (simpl; lra). rewrite <- mult_INR. apply le_INR. lia. }
split.
- apply Rmult_le_pos; [lra|]. left. by apply Rinv_0_lt_compat.
- apply (Rmult_le_reg_r (INR (length a + length b))); [exact HT|].
  unfold Rdiv. rewrite Rmult_assoc, Rinv_l by lra. lra.
Qed.
End RangeFacts.

(** ** The weights *)

Section WeightFacts.
Context {F : Type} `{Arith F}.

Lemma weight_missing (w : gmap string F) key :
w !! key = None -> weight w key = Raise (KeyError key).
Proof. unfold weight. by intros ->. Qed.

Lemma size_zero_empty (w : gmap string F) : (size w =? 0) = true -> w = ∅.
Proof. intros E. apply Nat.eqb_eq in E. by apply map_size_empty_iff in E. Qed.
End WeightFacts.

(** ** The ranking *)

Module Binary64Total.
Lemma SFleb_total t x y :
SFleb t x = true -> SFleb t y = true -> SFltb x y = false -> SFleb y x = true.
Proof.
unfold SFleb, SFltb, SFcompare.
destruct x as [[]|[]| |[] m1 e1], y as [[]|[]| |[] m2 e2], t as [[]|[]| |[] m3 e3];
  try done; Binary64Facts.sf_cases.
Qed.

Lemma SFleb_nan x : SFleb S754_nan x = false.
Proof. reflexivity. Qed.
End Binary64Total.

Lemma float_leb_total (t x y : float) :
  PrimFloat.leb t x = true -> PrimFloat.leb t y = true ->
  PrimFloat.ltb x y = false -> PrimFloat.leb y x = true.
Proof. rewrite !FloatAxioms.leb_spec, FloatAxioms.ltb_spec. apply Binary64Total.SFleb_total. Qed.

#[export] Instance float_total : ArithTotal float.
Proof. split. exact float_leb_total. Qed.

Lemma real_leb_total (t x y : R) :
  Exact.leb t x = true -> Exact.leb t y = true ->
  Exact.ltb x y = false -> Exact.leb y x = true.
Proof.
  rewrite ExactFacts.ltb_false, !ExactFacts.leb_true. tauto.
Qed.

#[export] Instance real_total : ArithTotal R.
Proof. split. exact real_leb_total. Qed.

Section RankingFacts.
Context {F : Type} `{Arith F}.

Lemma retained_perm new_bug threshold (c1 c2 : list (gmap string string)) :
c1 ≡ₚ c2 -> retained new_bug threshold c1 ≡ₚ retained new_bug threshold c2.
Proof. intros Hp. unfold retained. by rewrite Hp. Qed.

Lemma retained_app new_bug threshold (c1 c2 : list (gmap string string)) :
retained new_bug threshold (c1 ++ c2) =
  retained new_bug threshold c1 ++ retained new_bug threshold c2.
Proof. unfold retained. by rewrite filter_app, fmap_app. Qed.

Lemma retained_length new_bug threshold (cs : list (gmap string string)) :
length (retained new_bug threshold cs) <= length cs.
Proof. unfold retained. rewrite length_fmap. apply length_filter. Qed.

Lemma retained_above new_bug threshold (cs : list (gmap string string)) :
Forall (fun m => fleb threshold (m_similarity m) = true)
       (retained new_bug threshold cs).
Proof.
apply Forall_forall. intros m Hm.
apply elem_of_retained in Hm as (c & _ & Hc & ->). exact Hc.
Qed.

(** A list in which no entry is followed by a greater one, all entries
  being comparable, is decreasing throughout. *)
Lemma Sorted_descending `{!ArithOrder F, !ArithTotal F} threshold
  (l : list (match_entry F)) :
Forall (fun m => fleb threshold (m_similarity m) = true) l ->
Sorted (fun x y => fltb (m_similarity x) (m_similarity y) = false) l ->
StronglySorted (fun x y => fleb (m_similarity y) (m_similarity x) = true) l.
Proof.
intros Hall Hs. apply Sorted_StronglySorted.
{ intros x y z Hxy Hyz. by apply (fleb_trans _ (m_similarity y)). }
induction Hs as [|x l Hs IH Hhd]; [constructor|].
apply Forall_cons in Hall as [Hx Hall]. constructor; [by apply IH|].
destruct Hhd as [|y l' Hxy]; constructor.
apply Forall_cons in Hall as [Hy _].
by apply (fleb_total threshold).
Qed.
End RankingFacts.

(** ** The range of the score *)

Module ScoreRange.
Import Exact ExactFacts RealFacts.

Lemma summary_sim_range nb eb : (0 <= summary_sim (F:=R) nb eb <= 1)%R.
Proof.
unfold summary_sim.
pose proof (CosineReal.cosine_range (get nb "summary") (get eb "summary")) as Hcos.
pose proof (KeywordFacts.keyword_range (get nb "summary") (get eb "summary")) as Hkey.
rewrite of_int_INR. cbn [fdiv fadd real_arith]. simpl INR. lra.
Qed.

Lemma comp_sim_range nb eb : (0 <= comp_sim (F:=R) nb eb <= 1)%R.
Proof. unfold comp_sim. destruct (bool_decide _); rewrite ?lit_0, ?lit_1; lra. Qed.

(** A weighted sum of values in [[0, 1]] with weights that are not negative. *)
Lemma overall_range nb eb (ws wd wc wst : R) :
(0 <= ws)%R -> (0 <= wd)%R -> (0 <= wc)%R -> (0 <= wst)%R ->
(0 <= overall_with ws wd wc wst nb eb <= ws + wd + wc + wst)%R.
Proof.
intros Hs Hd Hc Hst. unfold overall_with. cbn [fadd fmul real_arith].
pose proof (summary_sim_range nb eb) as E1.
pose proof (CosineReal.cosine_range (get nb "description") (get eb "description")) as E2.
fold (desc_sim (F:=R) nb eb) in E2.
pose proof (comp_sim_range nb eb) as E3.
pose proof (RangeFacts.ratio_range
              (list_ascii_of_string (Text.lower (get nb "steps_to_reproduce")))
              (list_ascii_of_string (Text.lower (get eb "steps_to_reproduce")))) as E4.
fold (sequence_similarity (F:=R) (get nb "steps_to_reproduce")
                                 (get eb "steps_to_reproduce")) in E4.
fold (steps_sim (F:=R) nb eb) in E4.
set (s := summary_sim nb eb) in *. set (d := desc_sim nb eb) in *.
set (c := comp_sim nb eb) in *. set (p := steps_sim nb eb) in *.
assert (0 <= s * ws <= ws)%R by nra.
assert (0 <= d * wd <= wd)%R by nra.
assert (0 <= c * wc <= wc)%R by nra.
assert (0 <= p * wst <= wst)%R by nra.
lra.
Qed.

Lemma score_unit nb eb : (0 <= score (F:=R) nb eb <= 1)%R.
Proof.
unfold score. rewrite lit_040, lit_010.
pose proof (overall_range nb eb (4/10) (4/10) (1/10) (1/10)). lra.
Qed.
End ScoreRange.

Section RetainedFacts.
Context {F : Type} `{Arith F}.

Lemma retained_none new_bug (t : F) (cs : list (gmap string string)) :
(forall c, fgeb (score new_bug c) t = false) -> retained new_bug t cs = [].
Proof.
intros Hn. unfold retained. induction cs as [|c cs IH]; [done|].
rewrite filter_cons, decide_False; [exact IH|]. by rewrite Hn.
Qed.

Lemma retained_all new_bug (t : F) (cs : list (gmap string string)) :
(forall c, fgeb (score new_bug c) t = true) ->
retained new_bug t cs = entry new_bug <$> cs.
Proof.
intros Hn. unfold retained. f_equal. induction cs as [|c cs IH]; [done|].
rewrite filter_cons, decide_True; [by rewrite IH|]. apply Hn.
Qed.
End RetainedFacts.

Lemma float_nan_leb (x : float) : PrimFloat.leb nan x = false.
Proof. rewrite FloatAxioms.leb_spec. reflexivity. Qed.

(** ** The report *)

Module Binary64Tiers.
Lemma SFleb_ltb_excl t x : SFleb t x = true -> SFltb x t = false.
Proof.
unfold SFleb, SFltb, SFcompare.
destruct x as [[]|[]| |[] m1 e1], t as [[]|[]| |[] m3 e3];
  try done; Binary64Facts.sf_cases.
Qed.

Lemma SFleb_ltb_total t x :
SFeqb t t = true -> SFeqb x x = true -> SFleb t x = false -> SFltb x t = true.
Proof.
unfold SFeqb, SFleb, SFltb, SFcompare.
destruct x as [[]|[]| |[] m1 e1], t as [[]|[]| |[] m3 e3];
  try done; Binary64Facts.sf_cases.
Qed.

Lemma SFleb_refl t x : SFleb t x = true -> SFeqb x x = true /\ SFeqb t t = true.
Proof.
unfold SFeqb, SFleb, SFcompare.
destruct x as [[]|[]| |[] m1 e1], t as [[]|[]| |[] m3 e3];
  try done; intros _; split; try done;
  rewrite ?Z.compare_refl, ?Pos.compare_cont_refl; done.
Qed.
End Binary64Tiers.

Section TierFacts.
Implicit Types x t : float.

Lemma float_leb_ltb_excl t x : PrimFloat.leb t x = true -> PrimFloat.ltb x t = false.
Proof. rewrite FloatAxioms.leb_spec, FloatAxioms.ltb_spec. apply Binary64Tiers.SFleb_ltb_excl. Qed.

Lemma float_leb_ltb_total t x :
PrimFloat.eqb t t = true -> PrimFloat.eqb x x = true ->
PrimFloat.leb t x = false -> PrimFloat.ltb x t = true.
Proof.
rewrite !FloatAxioms.eqb_spec, FloatAxioms.leb_spec, FloatAxioms.ltb_spec.
apply Binary64Tiers.SFleb_ltb_total.
Qed.

Lemma float_leb_eqb t x :
PrimFloat.leb t x = true -> PrimFloat.eqb x x = true /\ PrimFloat.eqb t t = true.
Proof. rewrite !FloatAxioms.eqb_spec, FloatAxioms.leb_spec. apply Binary64Tiers.SFleb_refl. Qed.

Lemma float_nan_ltb x : PrimFloat.ltb x nan = false.
Proof.
rewrite FloatAxioms.ltb_spec. unfold SFltb, SFcompare.
change (Prim2SF nan) with S754_nan. by destruct (Prim2SF x) as [[]|[]| |[] m e].
Qed.
End TierFacts.

Module ReportFacts.
Import Report.

Lemma join_snoc (sep : text) (ls : list text) (l : text) :
ls <> [] -> join sep (ls ++ [l]) = join sep ls ++ sep ++ l.
Proof.
destruct ls as [|l0 ls]; [done|]. intros _. cbn [app join].
rewrite fmap_app, concat_app. cbn [fmap list_fmap concat].
by rewrite app_nil_r, app_assoc.
Qed.

Lemma join_two (sep l1 l2 : text) (ls : list text) :
join sep (l1 :: l2 :: ls) = l1 ++ sep ++ l2 ++ concat ((fun x => sep ++ x) <$> ls).
Proof. cbn [join fmap list_fmap concat]. by rewrite <- app_assoc. Qed.

Lemma filter_none {A} (P : A -> Prop) `{!forall x, Decision (P x)} (l : list A) :
Forall (fun x => ~ P x) l -> filter P l = [].
Proof.
induction 1 as [|x l Hx _ IH]; [done|]. by rewrite filter_cons, decide_False.
Qed.

Lemma filter_all {A} (P : A -> Prop) `{!forall x, Decision (P x)} (l : list A) :
Forall P l -> filter P l = l.
Proof.
induction 1 as [|x l Hx _ IH]; [done|]. by rewrite filter_cons, decide_True, IH.
Qed.

(** A list in descending order splits at the threshold: the entries
  that pass come first. *)
Lemma filter_prefix {A} (R : A -> A -> Prop) (P : A -> Prop)
  `{!forall x, Decision (P x)} (l : list A) :
StronglySorted R l -> (forall x y, R x y -> P y -> P x) ->
l = filter P l ++ filter (fun x => ~ P x) l.
Proof.
intros Hs Hdown. induction Hs as [|x l Hs IH Hx]; [done|].
rewrite !filter_cons. destruct (decide (P x)) as [Hp|Hp].
- rewrite decide_False by tauto. cbn [app]. by rewrite <- IH.
- rewrite decide_True by done.
  assert (Forall (fun y => ~ P y) l) as Hn.
  { eapply Forall_impl; [exact Hx|]. intros y Hxy Hy. apply Hp. by apply (Hdown x y). }
  by rewrite (filter_none P l Hn), (filter_all _ l Hn).
Qed.

Lemma filter_ext_in {A} (P Q : A -> Prop) `{!forall x, Decision (P x)}
  `{!forall x, Decision (Q x)} (l : list A) :
(forall x, x ∈ l -> (P x <-> Q x)) -> filter P l = filter Q l.
Proof.
induction l as [|x l IH]; intros He; [done|].
rewrite !filter_cons. rewrite IH by (intros y Hy; apply He; by right).
destruct (decide (P x)) as [Hp|Hp].
- rewrite decide_True; [done|]. apply He; [by left|done].
- rewrite decide_False; [done|]. intros Hq. apply Hp. apply He; [by left|done].
Qed.

Lemma report_lines_last ms th :
exists pre, pre <> [] /\
  report_lines ms th =
    pre ++ [recommendation (high_matches ms th) (possible_matches ms th)].
Proof.
unfold report_lines. cbn zeta.
set (hi := if is_nil (high_matches ms th) then [] else _).
set (po := if is_nil (possible_matches ms th) then [] else _).
exists ([of_string "Duplicate Check Results:"; replicate 50 61%N] ++ hi ++ po ++
        [[10%N; 128203%N] ++ of_string " Recommendation:"]).
split; [done|]. by rewrite <- !app_assoc.
Qed.

Lemma report_lines_first ms th :
exists rest,
  report_lines ms th =
    of_string "Duplicate Check Results:" :: replicate 50 61%N :: rest.
Proof. unfold report_lines. cbn zeta. by eexists. Qed.

(** The two tiers of a result of [find_duplicates], for a threshold
  that is not a NaN: the high matches are a prefix of the result and
  the possible matches are the rest. *)
Lemma tiers_split new_bug candidates (t th : float) :
PrimFloat.eqb th th = true ->
let out := list_sort_reverse by_similarity (retained new_bug t candidates) in
out = high_matches out th ++ possible_matches out th.
Proof.
intros Hth out.
assert (Forall (fun m => fleb t (m_similarity m) = true) out) as Hall.
{ unfold out. rewrite list_sort_reverse_perm. apply retained_above. }
assert (StronglySorted (fun x y => fleb (m_similarity y) (m_similarity x) = true) out)
  as Hs.
{ apply (Sorted_descending t); [done|].
  apply (list_sort_reverse_Sorted by_similarity). intros x y. apply fltb_asym. }
rewrite (filter_prefix _ (fun m => fgeb (m_similarity m) th = true) out Hs) at 1.
- unfold high_matches, possible_matches. f_equal.
  apply filter_ext_in. intros m Hm.
  rewrite Forall_forall in Hall. specialize (Hall m Hm).
  cbn [fleb float_arith] in Hall. apply float_leb_eqb in Hall as [Hm' _].
  unfold fgeb. cbn [fleb fltb float_arith]. split.
  + intros Hn. apply float_leb_ltb_total; [done|done|].
    by destruct (PrimFloat.leb th (m_similarity m)).
  + intros Hlt Hle. apply float_leb_ltb_excl in Hle. congruence.
- intros x y Hxy Hy. unfold fgeb in *. by apply (fleb_trans _ (m_similarity y)).
Qed.
End ReportFacts.

Module ReportText.
Import Report.

Lemma format_results_opening ms th :
ms <> [] ->
exists rest,
  format_results ms th =
    of_string "Duplicate Check Results:" ++ [10%N] ++ replicate 50 61%N ++ rest.
Proof.
intros Hm. unfold format_results.
destruct ms as [|m ms]; [done|]. cbn [is_nil].
destruct (ReportFacts.report_lines_first (m :: ms) th) as [rest ->].
rewrite ReportFacts.join_two. by eexists.
Qed.

Lemma format_results_nil_iff ms th :
format_results ms th = no_duplicate <-> ms = [].
Proof.
split; [|by intros ->].
intros E. destruct ms as [|m ms]; [done|]. exfalso.
destruct (format_results_opening (m :: ms) th) as [rest Hr]; [done|].
rewrite Hr in E. vm_compute in E. discriminate.
Qed.
End ReportText.

Section SwapFacts.
Context {F : Type} `{Arith F}.

Lemma comp_sim_comm nb eb : comp_sim (F:=F) nb eb = comp_sim eb nb.
Proof.
unfold comp_sim.
destruct (decide (nb !! "component"%string = eb !! "component"%string)) as [E|E].
- by rewrite !bool_decide_eq_true_2.
- by rewrite !bool_decide_eq_false_2.
Qed.
End SwapFacts.

(** ** Rounding to three decimals *)

Module RoundFacts.
Import Exact ExactFacts RealFacts.

Lemma floor_spec x : (IZR (floor x) <= x < IZR (floor x) + 1)%R.
Proof.
unfold floor. destruct (archimed x) as [H1 H2]. rewrite minus_IZR. lra.
Qed.

Lemma round_half_even_cases x :
round_half_even x = floor x \/ round_half_even x = (floor x + 1)%Z.
Proof.
unfold round_half_even.
destruct (Rlt_dec _ _); [by left|].
destruct (Rlt_dec _ _); [by right|].
destruct (Z.even _); [by left|by right].
Qed.

(** Rounding to the nearest integer moves a number by at most a half. *)
Lemma round_half_even_close x : (- (1 / 2) <= IZR (round_half_even x) - x <= 1 / 2)%R.
Proof.
pose proof (floor_spec x) as [H1 H2]. unfold round_half_even.
destruct (Rlt_dec (x - IZR (floor x)) (1 / 2)) as [Ha|Ha]; [lra|].
destruct (Rlt_dec (1 / 2) (x - IZR (floor x))) as [Hb|Hb].
{ rewrite plus_IZR. lra. }
destruct (Z.even (floor x)); [|rewrite plus_IZR]; lra.
Qed.

(** Between two integers, so is the rounded value. *)
Lemma round_half_even_between x (lo hi : Z) :
(IZR lo <= x <= IZR hi)%R -> (lo <= round_half_even x <= hi)%Z.
Proof.
intros [Hlo Hhi]. pose proof (floor_spec x) as [H1 H2].
assert (lo <= floor x)%Z as Hf.
{ apply Z.lt_succ_r. apply lt_IZR. rewrite succ_IZR. lra. }
assert (floor x <= hi)%Z as Hg by (apply le_IZR; lra).
unfold round_half_even.
destruct (Rlt_dec (x - IZR (floor x)) (1 / 2)) as [Ha|Ha]; [lia|].
assert (floor x < hi)%Z as Hlt.
{ apply lt_IZR. lra. }
destruct (Rlt_dec _ _); [lia|]. destruct (Z.even _); lia.
Qed.

Lemma round3_close x : (Rabs (round3 x - x) <= 1 / 2000)%R.
Proof.
unfold round3. pose proof (round_half_even_close (x * 1000)) as H.
apply Rabs_le. lra.
Qed.

Lemma round3_unit x : (0 <= x <= 1)%R -> (0 <= round3 x <= 1)%R.
Proof.
intros Hx. unfold round3.
destruct (round_half_even_between (x * 1000) 0 1000) as [H1 H2]; [lra|].
apply IZR_le in H1, H2. lra.
Qed.
End RoundFacts.

(** ** Machine integers and doubles *)

Module Binary64Int.
Import Binary64 Binary64Ratio.
Local Open Scope Z_scope.

Lemma iter_xO_shl q p : Pos.iter xO p q = shl (Pos.to_nat q) p.
Proof. unfold shl. apply Pos2Nat.inj_iter. Qed.

(** The conversion of an integer below [2^53] to a double is exact. *)
Lemma binary_normalize_pos p :
Zpos p < 2 ^ 53 ->
binary_normalize prec emax (Zpos p) 0 false =
  S754_finite false (mant p) (Zpos (digits2_pos p) - 53).
Proof.
intros Hp. pose proof (digits_le_53 p Hp) as Hd.
cbn [binary_normalize]. unfold binary_round, shl_align, fexp, emin.
change prec with 53. change emax with 1024.
rewrite Z.add_0_r.
replace (Z.max (Zpos (digits2_pos p) - 53) (3 - 1024 - 53))
  with (Zpos (digits2_pos p) - 53) by lia.
rewrite Z.sub_0_r.
assert (binary_round_aux 53 1024 false (Zpos (mant p)) (Zpos (digits2_pos p) - 53) loc_Exact
        = S754_finite false (mant p) (Zpos (digits2_pos p) - 53)) as Hr.
{ pose proof (binary_round_aux_exact false (mant p) 0 (Zpos (digits2_pos p) - 53)) as H.
  cbn [shl Nat.iter] in H. change (shl 0 (mant p)) with (mant p) in H.
  rewrite Z.add_0_r in H. apply H; [by apply digits_mant|lia]. }
destruct (Zpos (digits2_pos p) - 53) as [|q|q] eqn:E; [| lia |].
- assert (mant p = p) as Hm.
  { unfold mant. replace (53 - Zpos (digits2_pos p)) with 0 by lia. done. }
  rewrite Hm in Hr |- *. exact Hr.
- assert (mant p = Pos.iter xO p q) as Hm.
  { unfold mant. rewrite iter_xO_shl. f_equal.
    replace (53 - Zpos (digits2_pos p)) with (Zpos q) by lia. done. }
  rewrite <- Hm. exact Hr.
Qed.

Lemma of_uint63_of_Q (i : PrimInt63.int) (p : positive) :
Uint63.to_Z i = Zpos p -> Zpos p < 2 ^ 53 ->
PrimFloat.of_uint63 i = Binary64.of_Q (Zpos p # 1).
Proof.
intros Hi Hp. apply float_inj.
rewrite FloatAxioms.of_uint63_spec, Hi, binary_normalize_pos by done.
symmetry. by apply of_Q_pos.
Qed.
End Binary64Int.

Module SweepFacts.
Import Sweep.

(** A double that compares equal to a finite double which is not a zero
  is that double. *)
Lemma eqb_finite_eq (x y : float) s m e :
Prim2SF y = S754_finite s m e -> PrimFloat.eqb x y = true -> x = y.
Proof.
intros Hy E. apply Binary64Ratio.float_inj.
rewrite FloatAxioms.eqb_spec, Hy in E. rewrite Hy.
unfold SFeqb, SFcompare in E.
destruct (Prim2SF x) as [sz|si| |s' m' e'].
- by destruct s.
- by destruct si.
- done.
- destruct s', s; try done.
  + destruct (Z.compare_spec e' e) as [He|?|?]; try done.
    cbn [CompOpp] in E. change (Pos.compare_cont Eq m' m) with (Pos.compare m' m) in E.
    destruct (Pos.compare_spec m' m) as [Hm|?|?]; try done. by subst.
  + destruct (Z.compare_spec e' e) as [He|?|?]; try done.
    change (Pos.compare_cont Eq m' m) with (Pos.compare m' m) in E.
    destruct (Pos.compare_spec m' m) as [Hm|?|?]; try done. by subst.
Qed.

Lemma is_near_one_elem (c : float) : is_near_one c = true -> c ∈ near_one.
Proof.
unfold is_near_one. intros E. apply existsb_exists in E as (v & Hv & E).
assert (c = v) as ->; [|by apply list_elem_of_In].
unfold near_one in Hv. cbn [In] in Hv.
destruct Hv as [<-|[<-|[<-|[<-|[]]]]];
  (eapply eqb_finite_eq; [vm_compute; reflexivity|exact E]).
Qed.

Lemma iter_sweep (k : nat) :
(Z.of_nat k < 2 ^ 62)%Z ->
let st := Nat.iter k
            (fun st : PrimInt63.int * bool =>
               (PrimInt63.add st.1 one,
                st.2 && is_near_one (self_cosine (PrimFloat.of_uint63 st.1))))
            (one, true) in
Uint63.to_Z st.1 = (1 + Z.of_nat k)%Z /\
(st.2 = true ->
 forall i, (1 <= Uint63.to_Z i <= Z.of_nat k)%Z ->
           is_near_one (self_cosine (PrimFloat.of_uint63 i)) = true).
Proof.
induction k as [|k IH]; intros Hk; cbn zeta.
- split; [done|]. intros _ i Hi. lia.
- rewrite Nat.iter_succ. cbn zeta in IH. destruct IH as [IH1 IH2]; [lia|].
  destruct (Nat.iter k _ _) as [z b]. cbn [fst snd] in *.
  split.
  + rewrite Uint63.add_spec, IH1. change (Uint63.to_Z one) with 1%Z.
    rewrite Z.mod_small; [lia|].
    change Uint63.wB with (2 ^ 63)%Z. lia.
  + intros E i Hi. apply andb_true_iff in E as [Eb En].
    destruct (decide (Uint63.to_Z i = 1 + Z.of_nat k)%Z) as [Heq|Hne].
    * assert (i = z) as -> by (apply Uint63.to_Z_inj; lia). exact En.
    * apply IH2; [done|lia].
Qed.

Lemma sweep_spec (k : positive) :
(Zpos k < 2 ^ 53)%Z -> (sweep k).2 = true ->
forall n : positive, (n <= k)%positive ->
  self_cosine (Binary64.of_Q (Zpos n # 1)) ∈ near_one.
Proof.
unfold sweep. rewrite Pos2Nat.inj_iter. intros Hk E n Hn.
destruct (iter_sweep (Pos.to_nat k)) as [_ H]; [lia|].
assert (Uint63.to_Z (Uint63.of_Z (Zpos n)) = Zpos n) as Hi.
{ rewrite Uint63.of_Z_spec, Z.mod_small; [done|]. change Uint63.wB with (2 ^ 63)%Z. lia. }
rewrite <- (Binary64Int.of_uint63_of_Q (Uint63.of_Z (Zpos n)) n Hi) by lia.
apply is_near_one_elem, H; [done|]. lia.
Qed.

Lemma sweep_bound : (sweep bound).2 = true.
Proof. vm_compute. reflexivity. Qed.

Lemma self_cosine_near (n : nat) :
0 < n -> (Z.of_nat n <= Zpos bound)%Z ->
self_cosine (of_int n) ∈ near_one.
Proof.
intros H0 Hn. unfold of_int. cbn [lit float_arith]. unfold inject_Z.
replace (Z.of_nat n) with (Zpos (Pos.of_nat n)) in * by lia.
apply (sweep_spec bound); [done|apply sweep_bound|lia].
Qed.
End SweepFacts.

Section NormFacts.

Lemma sum_squares_le (l : list nat) :
sum_list ((fun a => a * a) <$> l) <= sum_list l * sum_list l.
Proof.
induction l as [|a l IH]; [done|]. rewrite fmap_cons.
change (a * a + sum_list ((fun a => a * a) <$> l) <=
        (a + sum_list l) * (a + sum_list l)).
set (S := sum_list l) in *. set (Q := sum_list ((fun a => a * a) <$> l)) in *.
replace ((a + S) * (a + S)) with (a * a + (2 * (a * S) + S * S)) by ring.
apply Nat.add_le_mono_l. lia.
Qed.

Lemma count_cons (x w : string) (l : list string) :
count (x :: l) w = (if decide (x = w) then 1 else 0) + count l w.
Proof. unfold count. rewrite filter_cons. by destruct (decide (x = w)). Qed.

Lemma sum_list_cons (x : nat) (l : list nat) : sum_list (x :: l) = x + sum_list l.
Proof. reflexivity. Qed.

Lemma sum_indicator (x : string) (V : list string) :
NoDup V -> x ∈ V ->
sum_list ((fun w => if decide (x = w) then 1 else 0) <$> V) = 1.
Proof.
induction 1 as [|w V Hw Hnd IH]; intros Hx; [by apply elem_of_nil in Hx|].
rewrite fmap_cons, sum_list_cons.
destruct (decide (x = w)) as [->|Hne].
- assert (sum_list ((fun w0 => if decide (w = w0) then 1 else 0) <$> V) = 0) as ->; [|done].
  clear IH Hnd Hx. induction V as [|v V IH]; [done|].
  rewrite fmap_cons, sum_list_cons.
  rewrite decide_False by (intros ->; apply Hw; by left).
  rewrite IH; [done|]. intros H. apply Hw. by right.
- apply elem_of_cons in Hx as [?|Hx]; [done|]. by rewrite IH.
Qed.

(** The counts over a vocabulary that holds every token add up to the
  number of tokens. *)
Lemma sum_count (tokens V : list string) :
NoDup V -> (forall x, x ∈ tokens -> x ∈ V) ->
sum_list (count tokens <$> V) = length tokens.
Proof.
intros Hnd. induction tokens as [|x l IH]; intros Hin.
- clear. induction V as [|v V IH]; [done|].
  rewrite fmap_cons, sum_list_cons, IH. done.
- assert (sum_list (count (x :: l) <$> V) =
          sum_list ((fun w => if decide (x = w) then 1 else 0) <$> V) +
          sum_list (count l <$> V)) as ->.
  { clear. induction V as [|v V IH]; [done|].
    rewrite !fmap_cons, !sum_list_cons, count_cons, IH. lia. }
  rewrite sum_indicator; [|done|apply Hin; by left].
  rewrite IH; [done|]. intros y Hy. apply Hin. by right.
Qed.

Lemma squared_norm_le (text : string) :
squared_norm text <= length (tokenize text) * length (tokenize text).
Proof.
unfold squared_norm. cbn zeta.
etransitivity; [apply sum_squares_le|].
rewrite sum_count; [done|apply NoDup_elements|].
intros x Hx. apply elem_of_elements. apply elem_of_union. left.
by apply elem_of_list_to_set.
Qed.

Lemma squared_norm_pos (text : string) : tokenize text <> [] -> 0 < squared_norm text.
Proof. intros Ht. apply norm_pos; [done|apply union_subseteq_l]. Qed.

(** On binary64 the cosine of a text with itself is a function of its
  squared norm. *)
Lemma cosine_self_float (text : string) :
tokenize text <> [] ->
cosine_similarity (F:=float) text text = Sweep.self_cosine (of_int (squared_norm text)).
Proof.
intros Ht. unfold cosine_similarity.
destruct (tokenize text) as [|w ts] eqn:E; [done|]. cbn [is_nil orb].
rewrite zip_with_mul_self. unfold squared_norm. rewrite E. reflexivity.
Qed.
End NormFacts.

Section ScenarioFacts.

Lemma keyword_self_float (t : string) :
tokenize t <> [] -> keyword_overlap (F:=float) t t = lit 1.
Proof.
intros Ht. rewrite keyword_overlap_sets.
rewrite <- KeywordFacts.token_set_empty in Ht.
rewrite bool_decide_eq_false_2 by (intros [?|?]; congruence).
rewrite intersection_idemp_L, union_idemp_L.
apply Binary64Mul.float_ratio_self. by apply KeywordFacts.size_pos.
Qed.

(** The cosine of a text of at most a thousand tokens with itself is
  one of the four doubles next to 1. *)
Lemma cosine_self_near (t : string) :
tokenize t <> [] -> length (tokenize t) <= 1000 ->
cosine_similarity (F:=float) t t ∈ Sweep.near_one.
Proof.
intros Ht Hl. rewrite cosine_self_float by done.
apply SweepFacts.self_cosine_near; [by apply squared_norm_pos|].
pose proof (squared_norm_le t) as Hn. unfold Sweep.bound.
apply Nat2Z.inj_le in Hn, Hl. rewrite Nat2Z.inj_mul in Hn.
change (Z.of_nat 1000) with 1000%Z in Hl. nia.
Qed.

(** Scenario B on binary64, from the two cosines. *)
Lemma scenario_b_float (cs cd : float) :
cs ∈ Sweep.near_one -> cd ∈ Sweep.near_one ->
let summary := fdiv (fadd cs (lit 1)) (of_int 2) in
let overall :=
  fadd (fadd (fadd (fmul summary (lit 0.40)) (fmul cd (lit 0.40)))
             (fmul (lit 0) (lit 0.10)))
       (fmul (lit 1) (lit 0.10)) in
Breakdown (round3 summary) (round3 cd) (round3 (lit 0)) (round3 (lit 1))
          (round3 overall) =
  Breakdown (lit 1) (lit 1) (lit 0) (lit 1) (lit 0.9) /\
fleb (lit 0.8999999999999998) overall = true /\
fleb overall (lit 0.9000000000000001) = true /\
fltb (lit 0.85) overall = true /\
fgeb overall (lit 0.85) = true.
Proof.
unfold Sweep.near_one. intros Hs Hd.
repeat (apply elem_of_cons in Hs as [->|Hs]);
  [| | | |by apply elem_of_nil in Hs];
  repeat (apply elem_of_cons in Hd as [->|Hd]);
  try (by apply elem_of_nil in Hd);
  vm_compute; repeat split; reflexivity.
Qed.
End ScenarioFacts.

(** * The claims *)

(** C1 (as amended): the scorer does not validate the weights.  For any
    four weights, whatever their sum, it returns the weighted sum of the
    four field similarities and the rounded breakdown; it raises no
    configuration error. *)
Theorem calculate_bug_similarity_any_weights {F} `{Arith F}
    (new_bug existing_bug : gmap string string) (ws wd wc wst : F) :
  calculate_bug_similarity new_bug existing_bug (Some (weights_dict ws wd wc wst)) =
    Ok (overall_with ws wd wc wst new_bug existing_bug,
        breakdown_with ws wd wc wst new_bug existing_bug).
Proof. by apply calculate_with. Qed.

(** C1 (as stated) fails: weights that sum to 0.99 and to 1.01 are outside
    the tolerance and are scored all the same, breakdown included. *)
Lemma weights_off_tolerance_are_scored :
  sum_within_tolerance 0.39 0.40 0.10 0.10 = false /\
  sum_within_tolerance 0.41 0.40 0.10 0.10 = false /\
  (exists s b, calculate_bug_similarity (F:=float) new_report near_miss
               (Some (weights_dict (lit 0.39) (lit 0.40) (lit 0.10) (lit 0.10)))
             = Ok (s, b) /\ bd_overall b = lit 0.69) /\
  (exists s b, calculate_bug_similarity (F:=float) new_report near_miss
               (Some (weights_dict (lit 0.41) (lit 0.40) (lit 0.10) (lit 0.10)))
             = Ok (s, b) /\ bd_overall b = lit 0.71).
Proof.
  split; [reflexivity|]. split; [reflexivity|].
  split; do 2 eexists; (split; [by apply calculate_with|]); vm_compute; reflexivity.
Qed.

(** C2 (as amended): [find_duplicates] has no weights among its inputs.
    The scorer called without weights gives every candidate the score and
    the breakdown of the default weights 0.40 / 0.40 / 0.10 / 0.10, and
    the result holds, up to its order, one entry for each candidate whose
    score reaches the threshold and no other entry: the entry carries the
    key, the summary and the url of that candidate together with that
    candidate's default-weight score and breakdown. *)
Theorem find_duplicates_uses_default_weights {F} `{Arith F}
    (new_bug : gmap string string) (candidates : list (gmap string string))
    (threshold : F) :
  (forall c,
     calculate_bug_similarity new_bug c None =
       Ok (score new_bug c, score_breakdown new_bug c) /\
     calculate_bug_similarity new_bug c
       (Some (weights_dict (lit 0.40) (lit 0.40) (lit 0.10) (lit 0.10))) =
       Ok (score new_bug c, score_breakdown new_bug c)) /\
  exists out,
    find_duplicates new_bug candidates threshold = Ok out /\
    out ≡ₚ
      (fun c => Match (default "UNKNOWN"%string (c !! "key"%string))
                      (get c "summary") (score new_bug c)
                      (score_breakdown new_bug c) (get c "url")) <$>
        filter (fun c => fgeb (score new_bug c) threshold = true) candidates /\
    length out <= length candidates.
Proof.
  split.
  - intros c. split; [apply calculate_default|]. by apply calculate_with.
  - eexists. split; [apply find_duplicates_retained|].
    rewrite list_sort_reverse_perm. split; [reflexivity|].
    unfold retained. rewrite length_fmap. apply length_filter.
Qed.

(** C2 (as stated) fails: with the valid weights 1 / 0 / 0 / 0 the scorer
    gives the pair the score 1.0, and [find_duplicates], which cannot be
    given them, reports the default-weight score instead. *)
Lemma find_duplicates_ignores_weights :
  exists m s b,
    find_duplicates (F:=float) new_report [near_miss] (lit 0.5) = Ok [m] /\
    calculate_bug_similarity new_report near_miss
      (Some (weights_dict (lit 1) (lit 0) (lit 0) (lit 0))) = Ok (s, b) /\
    sum_within_tolerance 1 0 0 0 = true /\
    s = lit 1 /\
    PrimFloat.ltb (m_similarity m) s = true /\
    PrimFloat.ltb (bd_overall (m_breakdown m)) (bd_overall b) = true.
Proof.
  do 3 eexists. split; [vm_compute; reflexivity|].
  split; [by apply calculate_with|].
  repeat split; vm_compute; reflexivity.
Qed.



(** C4: a report without [component] against one whose [component] is the
    empty string: the component similarity is 0.0, although for the
    other text fields absent and empty are the same. *)
Theorem component_absent_vs_empty :
  let absent := delete "component"%string new_report in
  let empty := <["component"%string := ""%string]> new_report in
  absent !! "component"%string = None /\
  empty !! "component"%string = Some ""%string /\
  comp_sim (F:=float) absent empty = lit 0 /\
  (exists s b, calculate_bug_similarity (F:=float) absent empty None = Ok (s, b) /\
               bd_component b = lit 0 /\ s = lit 0.9) /\
  summary_sim (F:=float) (delete "summary"%string new_report)
                         (<["summary"%string := ""%string]> new_report) =
    summary_sim (F:=float) (<["summary"%string := ""%string]> new_report)
                           (<["summary"%string := ""%string]> new_report).
Proof.
  cbn zeta. split; [reflexivity|]. split; [reflexivity|]. split; [reflexivity|].
  split; [|vm_compute; reflexivity].
  do 2 eexists. split; [apply calculate_default|]. split; vm_compute; reflexivity.
Qed.

(** C5 (as amended): the cosine similarity of a text with itself is 1.0,
    in exact arithmetic, when the text has at least one token; it is 0.0
    when the text has none, and the similarity of any text with the
    empty text is 0.0, in every arithmetic. *)
Theorem cosine_similarity_self_or_empty (t x : string) :
  cosine_similarity (F:=R) t t = (if is_nil (tokenize t) then 0 else 1)%R /\
  forall F (HF : Arith F),
    cosine_similarity (F:=F) "" x = lit 0 /\
    cosine_similarity (F:=F) x "" = lit 0 /\
    (tokenize t = [] -> cosine_similarity (F:=F) t t = lit 0).
Proof.
  split.
  - destruct (tokenize t) as [|w ts] eqn:E; cbn [is_nil].
    + rewrite SimilarityFacts.cosine_no_tokens_l by done. apply RealFacts.lit_0.
    + apply SimilarityFacts.cosine_self. by rewrite E.
  - intros F HF. split; [|split].
    + by apply SimilarityFacts.cosine_no_tokens_l.
    + unfold cosine_similarity. change (tokenize "") with (@nil string).
      cbn [is_nil]. by rewrite orb_true_r.
    + apply SimilarityFacts.cosine_no_tokens_l.
Qed.

(** C5 (as stated) fails: ["!!!"] is not empty, has no token, and its
    similarity with itself is 0.0, on binary64 and in exact arithmetic. *)
Lemma cosine_similarity_without_token :
  "!!!"%string <> ""%string /\
  cosine_similarity (F:=float) "!!!" "!!!" = lit 0 /\
  PrimFloat.eqb (cosine_similarity (F:=float) "!!!" "!!!") (lit 1) = false /\
  cosine_similarity (F:=R) "!!!" "!!!" <> 1%R.
Proof.
  split; [discriminate|]. split; [reflexivity|]. split; [reflexivity|].
  rewrite SimilarityFacts.cosine_no_tokens_l by reflexivity.
  rewrite RealFacts.lit_0. lra.
Qed.

(** On binary64 the quotient is rounded: the text ["a b"] has the norm
    [sqrt 2], whose square is not 2. *)
Example cosine_similarity_binary64_rounding :
  PrimFloat.ltb (cosine_similarity (F:=float) "a b" "a b") (lit 1) = true.
Proof. vm_compute. reflexivity. Qed.

(** C6: the sequence similarity of a string with itself is 1.0, the
    empty string included, and that of a non-empty string with the empty
    string is 0.0, either way round: in exact arithmetic for every
    string, and on binary64 for every string of fewer than [2^53]
    characters. *)
Theorem sequence_similarity_identical_or_empty (t : string) :
  (sequence_similarity (F:=R) t t = 1%R /\
   sequence_similarity (F:=R) "" "" = 1%R /\
   sequence_similarity (F:=R) t "" = (if String.eqb t "" then 1 else 0)%R /\
   sequence_similarity (F:=R) "" t = (if String.eqb t "" then 1 else 0)%R) /\
  ((Z.of_nat (String.length t) < 2 ^ 53)%Z ->
   sequence_similarity (F:=float) t t = lit 1 /\
   sequence_similarity (F:=float) "" "" = lit 1 /\
   sequence_similarity (F:=float) t "" = (if String.eqb t "" then lit 1 else lit 0) /\
   sequence_similarity (F:=float) "" t = (if String.eqb t "" then lit 1 else lit 0)).
Proof.
  split.
  - unfold sequence_similarity. split; [apply SimilarityFacts.ratio_self|].
    split; [apply SimilarityFacts.ratio_self|].
    destruct (String.eqb_spec t "") as [->|Hne].
    + split; apply SimilarityFacts.ratio_self.
    + assert (list_ascii_of_string (Text.lower t) <> []) as Hl
        by (by rewrite lower_nil).
      split; [by apply SimilarityFacts.ratio_no_b | by apply SimilarityFacts.ratio_no_a].
  - intros Hlen. destruct (sequence_similarity_float t Hlen) as (H1 & H2 & H3).
    repeat split; done.
Qed.

(** Examples on binary64; case is folded before the comparison. *)
Example sequence_similarity_binary64_examples :
  sequence_similarity (F:=float) "Open the page" "open the PAGE" = lit 1 /\
  sequence_similarity (F:=float) "" "" = lit 1 /\
  sequence_similarity (F:=float) "open" "" = lit 0 /\
  sequence_similarity (F:=float) "" "open" = lit 0.
Proof. repeat split; vm_compute; reflexivity. Qed.

(** C7: raising the threshold never adds a match: for [t1 <= t2] the
    matches returned for [t2] are among those returned for [t1], counted
    with multiplicity, and are no more in number. *)
Theorem find_duplicates_threshold_monotone {F} `{!Arith F, !ArithOrder F}
    (new_bug : gmap string string) (candidates : list (gmap string string))
    (t1 t2 : F) :
  fleb t1 t2 = true ->
  exists out1 out2,
    find_duplicates new_bug candidates t1 = Ok out1 /\
    find_duplicates new_bug candidates t2 = Ok out2 /\
    out2 ⊆+ out1 /\
    length out2 <= length out1.
Proof.
  intros Ht. do 2 eexists.
  split; [apply find_duplicates_retained|].
  split; [apply find_duplicates_retained|].
  assert (list_sort_reverse by_similarity (retained new_bug t2 candidates) ⊆+
          list_sort_reverse by_similarity (retained new_bug t1 candidates)) as Hsub.
  { rewrite !list_sort_reverse_perm. apply sublist_submseteq. by apply retained_mono. }
  split; [done|]. by apply submseteq_length.
Qed.

(** The thresholds 0.5 and 0.70 on a corpus of three. *)
Lemma find_duplicates_threshold_monotone_witness :
  fleb (F:=float) (lit 0.5) (lit 0.70) = true /\
  exists out1 out2,
    find_duplicates (F:=float) new_report [twin_b; near_miss; twin_a] (lit 0.5) = Ok out1 /\
    find_duplicates (F:=float) new_report [twin_b; near_miss; twin_a] (lit 0.70) = Ok out2 /\
    out2 ⊆+ out1 /\
    length out2 <= length out1.
Proof.
  split; [reflexivity|].
  apply (find_duplicates_threshold_monotone (F:=float)). reflexivity.
Defined.

(** C8: the result is a rearrangement of the retained entries in which
    no entry is followed by one of a greater score, and entries of equal
    score stand in the order of their candidates in the corpus. *)
Theorem find_duplicates_sorted_stable {F} `{!Arith F, !ArithOrder F}
    (new_bug : gmap string string) (candidates : list (gmap string string))
    (threshold : F) :
  exists out,
    find_duplicates new_bug candidates threshold = Ok out /\
    out ≡ₚ retained new_bug threshold candidates /\
    Sorted (fun x y => fltb (m_similarity x) (m_similarity y) = false) out /\
    forall s, tied s out = tied s (retained new_bug threshold candidates).
Proof.
  eexists. split; [apply find_duplicates_retained|].
  split; [apply list_sort_reverse_perm|].
  split.
  - apply (list_sort_reverse_Sorted by_similarity).
    intros x y. apply fltb_asym.
  - intros s. unfold tied. apply filter_list_sort_reverse.
    intros x y Hx Hy. by apply (feqb_fltb _ _ s).
Qed.

(** On binary64, for a corpus in which [B] and [A] tie. *)
Lemma find_duplicates_sorted_stable_witness :
  exists out,
    find_duplicates (F:=float) new_report [twin_b; near_miss; twin_a] (lit 0.5) = Ok out /\
    out ≡ₚ retained new_report (lit 0.5) [twin_b; near_miss; twin_a] /\
    Sorted (fun x y => fltb (m_similarity x) (m_similarity y) = false) out /\
    forall s, tied s out = tied s (retained new_report (lit 0.5) [twin_b; near_miss; twin_a]).
Proof. apply (find_duplicates_sorted_stable (F:=float)). Defined.

(** Scenario E on binary64: [B] and [A] both score 0.9 and come out as
    [B], [A], before the lower-scored [BUG-7]. *)
Example scenario_e :
  exists out,
    find_duplicates (F:=float) new_report [twin_b; near_miss; twin_a] (lit 0.5) = Ok out /\
    m_key <$> out = ["B"; "A"; "BUG-7"]%string /\
    m_similarity <$> out = [lit 0.9; lit 0.9; score new_report near_miss].
Proof. eexists. split; [vm_compute; reflexivity|]. split; vm_compute; reflexivity. Qed.

(** C9 (Scenario B, as amended): with the default weights, two reports
    that agree on a summary, a description and steps that each have a
    token, and that carry different components, score 0.9 in exact
    arithmetic: the
    breakdown is 1, 1, 0, 1 and 0.9, and 0.9 exceeds 0.85.  On binary64,
    when the summary and the description have at most a thousand tokens
    each (and the steps fewer than [2^53] characters), the breakdown is
    the same 1, 1, 0, 1 and 0.9, while the unrounded score that is
    returned with it need not be the double 0.9: it lies between
    0.8999999999999998 and 0.9000000000000001, above 0.85. *)
Theorem scenario_b_scores_09 (new_bug existing_bug : gmap string string)
    (c1 c2 : string) :
  get new_bug "summary" = get existing_bug "summary" ->
  tokenize (get new_bug "summary") <> [] ->
  get new_bug "description" = get existing_bug "description" ->
  tokenize (get new_bug "description") <> [] ->
  get new_bug "steps_to_reproduce" = get existing_bug "steps_to_reproduce" ->
  tokenize (get new_bug "steps_to_reproduce") <> [] ->
  new_bug !! "component"%string = Some c1 ->
  existing_bug !! "component"%string = Some c2 ->
  c1 <> c2 ->
  (calculate_bug_similarity (F:=R) new_bug existing_bug None =
     Ok ((9 / 10)%R, Breakdown 1%R 1%R 0%R 1%R (9 / 10)%R) /\
   fltb (lit (F:=R) 0.85) (9 / 10)%R = true /\
   fgeb (9 / 10)%R (lit (F:=R) 0.85) = true) /\
  (length (tokenize (get new_bug "summary")) <= 1000 ->
   length (tokenize (get new_bug "description")) <= 1000 ->
   (Z.of_nat (String.length (get new_bug "steps_to_reproduce")) < 2 ^ 53)%Z ->
   exists s : float,
     calculate_bug_similarity (F:=float) new_bug existing_bug None =
       Ok (s, Breakdown (lit 1) (lit 1) (lit 0) (lit 1) (lit 0.9)) /\
     fleb (lit 0.8999999999999998) s = true /\
     fleb s (lit 0.9000000000000001) = true /\
     fltb (lit 0.85) s = true /\
     fgeb s (lit 0.85) = true).
Proof.
  intros Hs Hst Hd Hdt Hp Hpt Hc1 Hc2 Hne. split.
  - assert (summary_sim (F:=R) new_bug existing_bug = 1%R) as E1.
    { unfold summary_sim. rewrite <- Hs.
      rewrite SimilarityFacts.cosine_self, SimilarityFacts.keyword_self by done.
      rewrite RealFacts.of_int_INR. cbn [fdiv fadd real_arith]. simpl. lra. }
    assert (desc_sim (F:=R) new_bug existing_bug = 1%R) as E2.
    { unfold desc_sim. rewrite <- Hd. by apply SimilarityFacts.cosine_self. }
    assert (comp_sim (F:=R) new_bug existing_bug = 0%R) as E3.
    { unfold comp_sim. rewrite Hc1, Hc2.
      rewrite bool_decide_eq_false_2 by congruence. apply RealFacts.lit_0. }
    assert (steps_sim (F:=R) new_bug existing_bug = 1%R) as E4.
    { unfold steps_sim, sequence_similarity. rewrite <- Hp.
      apply SimilarityFacts.ratio_self. }
    assert (score (F:=R) new_bug existing_bug = (9 / 10)%R) as E5.
    { unfold score, overall_with. rewrite E1, E2, E3, E4.
      rewrite RealFacts.lit_040, RealFacts.lit_010. cbn [fadd fmul real_arith]. lra. }
    split; [|split].
    + rewrite calculate_default. unfold score_breakdown, breakdown_with.
      fold (score (F:=R) new_bug existing_bug).
      rewrite E1, E2, E3, E4, E5. cbn [round3 real_arith].
      by rewrite RealFacts.round3_0, RealFacts.round3_1, RealFacts.round3_09.
    + cbn [fltb real_arith]. rewrite RealFacts.lit_085. apply ExactFacts.ltb_true. lra.
    + unfold fgeb. cbn [fleb real_arith]. rewrite RealFacts.lit_085.
      apply ExactFacts.leb_true. lra.
  - intros Hls Hld Hlp.
    pose proof (cosine_self_near _ Hst Hls) as Ncs.
    pose proof (cosine_self_near _ Hdt Hld) as Ncd.
    destruct (sequence_similarity_float _ Hlp) as [Eseq _].
    destruct (scenario_b_float _ _ Ncs Ncd) as (Eb & B1 & B2 & B3 & B4).
    assert (summary_sim (F:=float) new_bug existing_bug =
            fdiv (fadd (cosine_similarity (get new_bug "summary") (get new_bug "summary"))
                       (lit 1)) (of_int 2)) as E1.
    { unfold summary_sim. rewrite <- Hs. by rewrite keyword_self_float. }
    assert (desc_sim (F:=float) new_bug existing_bug =
            cosine_similarity (get new_bug "description") (get new_bug "description"))
      as E2 by (unfold desc_sim; by rewrite <- Hd).
    assert (comp_sim (F:=float) new_bug existing_bug = lit 0) as E3.
    { unfold comp_sim. rewrite Hc1, Hc2.
      by rewrite bool_decide_eq_false_2 by congruence. }
    assert (steps_sim (F:=float) new_bug existing_bug = lit 1) as E4
      by (unfold steps_sim; by rewrite <- Hp).
    eexists. rewrite calculate_default.
    unfold score_breakdown, breakdown_with, score, overall_with.
    rewrite E1, E2, E3, E4. rewrite Eb.
    split; [reflexivity|]. by repeat split.
Qed.

(** [new_report] and [twin_b] differ in their components only. *)
Lemma scenario_b_scores_09_witness :
  (calculate_bug_similarity (F:=R) new_report twin_b None =
     Ok ((9 / 10)%R, Breakdown 1%R 1%R 0%R 1%R (9 / 10)%R) /\
   fltb (lit (F:=R) 0.85) (9 / 10)%R = true /\
   fgeb (9 / 10)%R (lit (F:=R) 0.85) = true) /\
  exists s : float,
    calculate_bug_similarity (F:=float) new_report twin_b None =
      Ok (s, Breakdown (lit 1) (lit 1) (lit 0) (lit 1) (lit 0.9)) /\
    fleb (lit 0.8999999999999998) s = true /\
    fleb s (lit 0.9000000000000001) = true /\
    fltb (lit 0.85) s = true /\
    fgeb s (lit 0.85) = true.
Proof.
  destruct (scenario_b_scores_09 new_report twin_b "UI" "API") as [HR HF];
    try reflexivity; try (vm_compute; discriminate).
  split; [exact HR|].
  apply HF; [vm_compute; lia | vm_compute; lia | reflexivity].
Defined.

(** C9 (as stated) fails on binary64: the reports [probe_new] and
    [probe_other] agree on the summary ["a b"], the description ["a b"]
    and the steps, and differ in their components.  The norm of ["a b"]
    is the double of [sqrt 2], whose square is above 2: the cosines are
    one bit below 1 and the score that is returned is below the double
    0.9, while the breakdown holds the rounded 0.9. *)
Lemma scenario_b_binary64_below_09 :
  get probe_new "summary" = get probe_other "summary" /\
  tokenize (get probe_new "summary") <> [] /\
  get probe_new "description" = get probe_other "description" /\
  tokenize (get probe_new "description") <> [] /\
  get probe_new "steps_to_reproduce" = get probe_other "steps_to_reproduce" /\
  tokenize (get probe_new "steps_to_reproduce") <> [] /\
  probe_new !! "component"%string = Some "UI"%string /\
  probe_other !! "component"%string = Some "API"%string /\
  "UI"%string <> "API"%string /\
  exists (s : float) bd,
    calculate_bug_similarity (F:=float) probe_new probe_other None = Ok (s, bd) /\
    s <> lit 0.9 /\
    PrimFloat.ltb s (lit 0.9) = true /\
    fleb (lit 0.8999999999999998) s = true /\
    bd = Breakdown (lit 1) (lit 1) (lit 0) (lit 1) (lit 0.9).
Proof.
  repeat split; try (vm_compute; reflexivity); try (vm_compute; discriminate).
  eexists _, _. split; [vm_compute; reflexivity|].
  repeat split; try (vm_compute; reflexivity).
  intros E. apply (f_equal (fun x => PrimFloat.eqb x (lit 0.9))) in E.
  vm_compute in E. discriminate.
Qed.

(** Scenario B on binary64, for the sample reports. *)
Example scenario_b_binary64 :
  calculate_bug_similarity (F:=float) new_report twin_b None =
    Ok (lit 0.9, Breakdown (lit 1) (lit 1) (lit 0) (lit 1) (lit 0.9)) /\
  PrimFloat.ltb (lit 0.85) (lit 0.9) = true.
Proof. split; vm_compute; reflexivity. Qed.

(** C10: entries are kept and ordered by the unrounded score, which is
    what an entry stores as its similarity, while its breakdown stores
    the score rounded to three decimals.  The result is a rearrangement
    of the entries of the candidates whose unrounded score reaches the
    threshold, and in it no entry is followed by one of a greater
    unrounded score.  On binary64 the pair ([new_report], [near_miss])
    scores 0.6995...: below the threshold 0.70, to which it rounds, and
    so it is left out.  And the candidates [P] and [R], which both
    round to 1.0, come out as [R], [P]: [R] scores 1.0 and [P] one bit
    less, so that ordering by the rounded value would have left them in
    the order of the corpus. *)
Theorem find_duplicates_filters_unrounded :
  (forall F (HF : Arith F) (HO : ArithOrder F) (new_bug : gmap string string)
          (candidates : list (gmap string string)) (threshold : F),
      exists out,
        find_duplicates new_bug candidates threshold = Ok out /\
        out = list_sort_reverse by_similarity (retained new_bug threshold candidates) /\
        out ≡ₚ retained new_bug threshold candidates /\
        Sorted (fun x y => fltb (m_similarity x) (m_similarity y) = false) out /\
        forall m, m ∈ out <->
          exists c, c ∈ candidates /\ fgeb (score new_bug c) threshold = true /\
            m = entry new_bug c /\
            m_similarity m = score new_bug c /\
            bd_overall (m_breakdown m) = round3 (score new_bug c)) /\
  PrimFloat.ltb (score new_report near_miss) default_threshold = true /\
  round3 (score (F:=float) new_report near_miss) = default_threshold /\
  find_duplicates (F:=float) new_report [near_miss] default_threshold = Ok [] /\
  (exists m,
    find_duplicates (F:=float) new_report [near_miss] (lit 0.5) = Ok [m] /\
    m_similarity m = score new_report near_miss /\
    bd_overall (m_breakdown m) = lit 0.70 /\
    PrimFloat.ltb (m_similarity m) (bd_overall (m_breakdown m)) = true) /\
  exists p r,
    find_duplicates (F:=float) probe_new [probe_same; probe_tripled] default_threshold =
      Ok [r; p] /\
    m_key p = "P"%string /\ m_key r = "R"%string /\
    bd_overall (m_breakdown p) = lit 1 /\ bd_overall (m_breakdown r) = lit 1 /\
    m_similarity r = lit 1 /\
    PrimFloat.ltb (m_similarity p) (m_similarity r) = true.
Proof.
  split.
  - intros F HF HO new_bug candidates threshold. eexists.
    split; [apply find_duplicates_retained|]. split; [done|].
    split; [apply list_sort_reverse_perm|].
    split.
    { apply (list_sort_reverse_Sorted by_similarity). intros x y. apply fltb_asym. }
    intros m. rewrite list_sort_reverse_perm, elem_of_retained.
    split.
    + intros (c & H1 & H2 & ->). by exists c.
    + intros (c & H1 & H2 & -> & _). by exists c.
  - split; [vm_compute; reflexivity|]. split; [vm_compute; reflexivity|].
    split; [vm_compute; reflexivity|].
    split.
    + eexists. split; [vm_compute; reflexivity|].
      repeat split; vm_compute; reflexivity.
    + do 2 eexists. split; [vm_compute; reflexivity|].
      repeat split; vm_compute; reflexivity.
Qed.

(** * Further properties of the checker *)

(** ** [tokenize] *)

(** X1: every token is a non-empty string of lower-case ASCII letters
    and digits, whatever the text. *)
Theorem tokenize_tokens_shape (text : string) :
  Forall (fun t => t <> ""%string /\
                   forallb is_lower_alnum (list_ascii_of_string t) = true)
         (tokenize text).
Proof. apply RoundTrip.tokens_shape. Qed.

(** X2: tokenizing is compositional across a separator: when two texts
    are joined by a character that is not a word character (a space, a
    comma, a line break), the tokens of the whole are the tokens of the
    first text followed by those of the second. *)
Theorem tokenize_app_separator (a b : string) (c : ascii) :
  Text.is_word c = false ->
  tokenize (a ++ String c b) = tokenize a ++ tokenize b.
Proof. intros Hc. by apply RoundTrip.tokenize_sep. Qed.

(** Two words joined by a space. *)
Lemma tokenize_app_separator_witness :
  tokenize ("Login" ++ String " " "page") = tokenize "Login" ++ tokenize "page".
Proof. apply tokenize_app_separator. reflexivity. Defined.

(** X3: letter case is ignored.  Texts that are equal once lower-cased
    have the same tokens, and pairs of such texts get the same cosine
    similarity, keyword overlap and sequence similarity; lower-casing a
    text beforehand changes nothing, [str.lower] being idempotent. *)
Theorem measures_ignore_case {F} `{Arith F} (t1 t2 u1 u2 : string) :
  Text.lower t1 = Text.lower u1 -> Text.lower t2 = Text.lower u2 ->
  (tokenize t1 = tokenize u1 /\
   cosine_similarity (F:=F) t1 t2 = cosine_similarity u1 u2 /\
   keyword_overlap (F:=F) t1 t2 = keyword_overlap u1 u2 /\
   sequence_similarity (F:=F) t1 t2 = sequence_similarity u1 u2) /\
  (tokenize (Text.lower t1) = tokenize t1 /\
   cosine_similarity (F:=F) (Text.lower t1) (Text.lower t2) = cosine_similarity t1 t2 /\
   keyword_overlap (F:=F) (Text.lower t1) (Text.lower t2) = keyword_overlap t1 t2 /\
   sequence_similarity (F:=F) (Text.lower t1) (Text.lower t2) =
     sequence_similarity t1 t2).
Proof.
  intros E1 E2.
  assert (forall t, tokenize (Text.lower t) = tokenize t) as E.
  { intros t. unfold tokenize. by rewrite TokenFacts.lower_idemp. }
  assert (tokenize t1 = tokenize u1) as T1 by (unfold tokenize; by rewrite E1).
  assert (tokenize t2 = tokenize u2) as T2 by (unfold tokenize; by rewrite E2).
  split.
  - split; [done|].
    unfold cosine_similarity, keyword_overlap, sequence_similarity.
    by rewrite T1, T2, E1, E2.
  - split; [apply E|].
    unfold cosine_similarity, keyword_overlap, sequence_similarity.
    by rewrite !E, !TokenFacts.lower_idemp.
Qed.

(** Two summaries that differ in case only, on binary64. *)
Lemma measures_ignore_case_witness :
  (tokenize "Login Page" = tokenize "LOGIN page" /\
   cosine_similarity (F:=float) "Login Page" "Open" = cosine_similarity "LOGIN page" "open" /\
   keyword_overlap (F:=float) "Login Page" "Open" = keyword_overlap "LOGIN page" "open" /\
   sequence_similarity (F:=float) "Login Page" "Open" =
     sequence_similarity "LOGIN page" "open") /\
  (tokenize (Text.lower "Login Page") = tokenize "Login Page" /\
   cosine_similarity (F:=float) (Text.lower "Login Page") (Text.lower "Open") =
     cosine_similarity "Login Page" "Open" /\
   keyword_overlap (F:=float) (Text.lower "Login Page") (Text.lower "Open") =
     keyword_overlap "Login Page" "Open" /\
   sequence_similarity (F:=float) (Text.lower "Login Page") (Text.lower "Open") =
     sequence_similarity "Login Page" "Open").
Proof.
  apply (measures_ignore_case (F:=float) "Login Page" "Open" "LOGIN page" "open");
    reflexivity.
Defined.

(** X22: a round trip: the tokens of a text, joined by spaces, are
    tokenized into the same tokens again; and so is any list of
    non-empty strings of lower-case ASCII letters and digits. *)
Theorem tokenize_join_round_trip (text : string) (ts : list string) :
  tokenize (String.concat " " (tokenize text)) = tokenize text /\
  (Forall (fun t => t <> ""%string /\
                    forallb is_lower_alnum (list_ascii_of_string t) = true) ts ->
   tokenize (String.concat " " ts) = ts).
Proof.
  split; [|apply RoundTrip.tokenize_concat].
  apply RoundTrip.tokenize_concat, RoundTrip.tokens_shape.
Qed.

(** ** [keyword_overlap] *)

(** X4: the keyword overlap does not depend on the order of its two
    arguments, whatever the arithmetic. *)
Theorem keyword_overlap_symmetric {F} `{Arith F} (t1 t2 : string) :
  keyword_overlap (F:=F) t1 t2 = keyword_overlap t2 t1.
Proof. apply keyword_overlap_comm. Qed.

(** X5: in exact arithmetic the keyword overlap lies between 0 and 1; it
    is 0 exactly when the two texts share no token, and 1 exactly when
    they have the same set of tokens and that set is not empty. *)
Theorem keyword_overlap_exact (t1 t2 : string) :
  let k := keyword_overlap (F:=R) t1 t2 in
  (0 <= k <= 1)%R /\
  (k = 0%R <-> token_set t1 ∩ token_set t2 = ∅) /\
  (k = 1%R <-> tokenize t1 <> [] /\ token_set t1 = token_set t2).
Proof.
  intros k. subst k. split; [apply KeywordFacts.keyword_range|].
  destruct (decide (token_set t1 = ∅ \/ token_set t2 = ∅)) as [He|Hne].
  - rewrite keyword_overlap_sets, bool_decide_eq_true_2 by done.
    rewrite RealFacts.lit_0. split.
    + split; [intros _|reflexivity]. destruct He as [-> | ->]; set_solver.
    + split; [lra|]. intros [Ht E]. exfalso.
      rewrite <- KeywordFacts.token_set_empty in Ht.
      destruct He as [He|He]; congruence.
  - assert (token_set t1 <> ∅) as H1 by tauto.
    assert (token_set t2 <> ∅) as H2 by tauto.
    destruct (KeywordFacts.keyword_overlap_real t1 t2 H1 H2) as (-> & Hu & Hle).
    set (i := size (token_set t1 ∩ token_set t2)) in *.
    set (u := size (token_set t1 ∪ token_set t2)) in *.
    assert (0 < INR u)%R as HU by (by apply lt_0_INR).
    split.
    + split.
      * intros E. assert (INR i = 0%R) as E0.
        { apply (Rmult_eq_reg_r (/ INR u)); [|apply Rinv_neq_0_compat; lra].
          unfold Rdiv in E. lra. }
        replace 0%R with (INR 0) in E0 by done. apply INR_eq in E0.
        subst i. apply size_empty_iff in E0. by apply leibniz_equiv in E0.
      * intros E. subst i. rewrite E, size_empty. simpl. unfold Rdiv. lra.
    + split.
      * intros E. assert (INR i = INR u) as E0.
        { apply (Rmult_eq_reg_r (/ INR u)); [|apply Rinv_neq_0_compat; lra].
          unfold Rdiv in E. rewrite Rinv_r by lra. lra. }
        apply INR_eq in E0. split; [by rewrite <- KeywordFacts.token_set_empty|].
        assert (token_set t1 ∩ token_set t2 = token_set t1 ∪ token_set t2) as Hs.
        { apply set_subseteq_size_eq; [set_solver|]. subst i u. lia. }
        apply leibniz_equiv. set_solver.
      * intros [_ E]. subst i u. rewrite <- E.
        rewrite intersection_idemp_L, union_idemp_L. unfold Rdiv.
        rewrite Rinv_r; [done|]. rewrite <- E, union_idemp_L in HU. lra.
Qed.

(** X6: on binary64 the two extreme values are exact: texts with the
    same non-empty set of tokens have overlap [1.0] (the quotient of an
    integer by itself), and texts that share no token have overlap [0.0]. *)
Theorem keyword_overlap_binary64 (t1 t2 : string) :
  (tokenize t1 <> [] -> token_set t1 = token_set t2 ->
   keyword_overlap (F:=float) t1 t2 = lit 1) /\
  (token_set t1 ∩ token_set t2 = ∅ -> keyword_overlap (F:=float) t1 t2 = lit 0).
Proof.
  split.
  - intros Ht E. rewrite keyword_overlap_sets.
    rewrite <- KeywordFacts.token_set_empty in Ht.
    rewrite bool_decide_eq_false_2 by (intros [?|?]; congruence).
    rewrite <- E, intersection_idemp_L, union_idemp_L.
    apply Binary64Mul.float_ratio_self. by apply KeywordFacts.size_pos.
  - intros E. rewrite keyword_overlap_sets. rewrite E, size_empty.
    by destruct (bool_decide _).
Qed.

(** The same words in another order and case, and two texts without a
    common word. *)
Lemma keyword_overlap_binary64_witness :
  keyword_overlap (F:=float) "Login page" "page LOGIN page" = lit 1 /\
  keyword_overlap (F:=float) "Login page" "timeout" = lit 0.
Proof.
  split.
  - apply (proj1 (keyword_overlap_binary64 "Login page" "page LOGIN page"));
      [vm_compute; discriminate|].
    apply leibniz_equiv. apply set_equiv. intros x.
    unfold token_set. vm_compute tokenize. set_solver.
  - apply (proj2 (keyword_overlap_binary64 "Login page" "timeout")).
    apply leibniz_equiv. apply set_equiv. intros x.
    unfold token_set. vm_compute tokenize. set_solver.
Defined.

(** ** [cosine_similarity] *)

(** X7: the cosine similarity does not depend on the order of its two
    arguments, on binary64 (where the product of the two norms is the
    one rounded operation that sees the order) and in exact arithmetic. *)
Theorem cosine_similarity_symmetric (t1 t2 : string) :
  cosine_similarity (F:=float) t1 t2 = cosine_similarity t2 t1 /\
  cosine_similarity (F:=R) t1 t2 = cosine_similarity t2 t1.
Proof.
  split; apply cosine_similarity_comm.
  - apply Binary64Mul.float_mul_comm.
  - apply Rmult_comm.
Qed.


(** ** [sequence_similarity] *)


(** ** [calculate_bug_similarity] *)

(** X10: the range of the score.  In exact arithmetic the four field
    similarities lie between 0 and 1; with weights that are not negative
    the overall score lies between 0 and the sum of the weights, and with
    the default weights between 0 and 1.  On binary64 the bound 1 does
    not hold: for two identical reports whose summary and description
    are ["a b c"] the description similarity and the score that is
    returned are [1.0000000000000002], while every entry of the
    breakdown is the rounded [1.0]. *)
Theorem score_range (new_bug existing_bug : gmap string string) (ws wd wc wst : R) :
  (0 <= ws)%R -> (0 <= wd)%R -> (0 <= wc)%R -> (0 <= wst)%R ->
  ((0 <= summary_sim (F:=R) new_bug existing_bug <= 1)%R /\
   (0 <= desc_sim (F:=R) new_bug existing_bug <= 1)%R /\
   (0 <= comp_sim (F:=R) new_bug existing_bug <= 1)%R /\
   (0 <= steps_sim (F:=R) new_bug existing_bug <= 1)%R /\
   (0 <= overall_with ws wd wc wst new_bug existing_bug <= ws + wd + wc + wst)%R /\
   (0 <= score (F:=R) new_bug existing_bug <= 1)%R) /\
  (desc_sim (F:=float) probe_words_new probe_words = lit 1.0000000000000002 /\
   calculate_bug_similarity (F:=float) probe_words_new probe_words None =
     Ok (lit 1.0000000000000002, Breakdown (lit 1) (lit 1) (lit 1) (lit 1) (lit 1)) /\
   PrimFloat.ltb (lit 1) (lit 1.0000000000000002) = true).
Proof.
  intros Hs Hd Hc Hst. split.
  - split; [apply ScoreRange.summary_sim_range|].
    split; [apply CosineReal.cosine_range|].
    split; [apply ScoreRange.comp_sim_range|].
    split; [apply RangeFacts.ratio_range|].
    split; [by apply ScoreRange.overall_range|].
    apply ScoreRange.score_unit.
  - repeat split; vm_compute; reflexivity.
Qed.

(** The weights 1/2, 1/4, 1/8 and 1/8 on the sample pair. *)
Lemma score_range_witness :
  ((0 <= summary_sim (F:=R) new_report near_miss <= 1)%R /\
   (0 <= desc_sim (F:=R) new_report near_miss <= 1)%R /\
   (0 <= comp_sim (F:=R) new_report near_miss <= 1)%R /\
   (0 <= steps_sim (F:=R) new_report near_miss <= 1)%R /\
   (0 <= overall_with (1/2) (1/4) (1/8) (1/8) new_report near_miss
      <= 1/2 + 1/4 + 1/8 + 1/8)%R /\
   (0 <= score (F:=R) new_report near_miss <= 1)%R) /\
  (desc_sim (F:=float) probe_words_new probe_words = lit 1.0000000000000002 /\
   calculate_bug_similarity (F:=float) probe_words_new probe_words None =
     Ok (lit 1.0000000000000002, Breakdown (lit 1) (lit 1) (lit 1) (lit 1) (lit 1)) /\
   PrimFloat.ltb (lit 1) (lit 1.0000000000000002) = true).
Proof. apply (score_range new_report near_miss (1/2) (1/4) (1/8) (1/8)); lra. Defined.

(** X23: the breakdown against the unrounded values.  In exact
    arithmetic every entry of the breakdown is within 0.0005 of the
    similarity it rounds (the component entry is that similarity), and
    every entry lies between 0 and 1.  On binary64 the distance can
    exceed 0.0005 in the last bits: steps of which one character in
    thirty-two matches have the similarity [0.0625], which is rounded to
    the double [0.062]; that double is below 0.062, and the difference
    of the two doubles is above the double [0.0005]. *)
Theorem breakdown_rounding (new_bug existing_bug : gmap string string) :
  (exists s b,
     calculate_bug_similarity (F:=R) new_bug existing_bug None = Ok (s, b) /\
     (Rabs (bd_overall b - s) <= 1 / 2000)%R /\
     (Rabs (bd_summary b - summary_sim new_bug existing_bug) <= 1 / 2000)%R /\
     (Rabs (bd_description b - desc_sim new_bug existing_bug) <= 1 / 2000)%R /\
     (Rabs (bd_steps b - steps_sim new_bug existing_bug) <= 1 / 2000)%R /\
     bd_component b = comp_sim new_bug existing_bug /\
     Forall (fun v => 0 <= v <= 1)%R
       [bd_summary b; bd_description b; bd_component b; bd_steps b; bd_overall b]) /\
  (exists s b,
     calculate_bug_similarity (F:=float) probe_steps_new probe_steps None = Ok (s, b) /\
     steps_sim (F:=float) probe_steps_new probe_steps = lit 0.0625 /\
     bd_steps b = lit 0.062 /\
     PrimFloat.ltb (lit 0.0005) (PrimFloat.sub (lit 0.0625) (lit 0.062)) = true).
Proof.
  split; [|do 2 eexists; repeat split; vm_compute; reflexivity].
  do 2 eexists. split; [apply calculate_default|].
  unfold score_breakdown, breakdown_with. cbn [bd_overall bd_summary bd_description
    bd_steps bd_component round3 real_arith].
  fold (score (F:=R) new_bug existing_bug).
  repeat (split; [apply RoundFacts.round3_close|]).
  split.
  - unfold comp_sim.
    destruct (bool_decide (new_bug !! "component"%string = existing_bug !! "component"%string)).
    + rewrite RealFacts.lit_1. apply RealFacts.round3_1.
    + rewrite RealFacts.lit_0. apply RealFacts.round3_0.
  - repeat (apply Forall_cons; split; [apply RoundFacts.round3_unit|]).
    + apply ScoreRange.summary_sim_range.
    + apply CosineReal.cosine_range.
    + apply ScoreRange.comp_sim_range.
    + apply RangeFacts.ratio_range.
    + apply ScoreRange.score_unit.
    + by apply Forall_nil.
Qed.

(** X11: the weights dictionary.  An empty dictionary is falsy and is
    replaced by the default weights, like [None].  A dictionary that is
    not empty is used as it is: if it lacks one of the four keys, the
    call raises [KeyError] for the first one missing in the order
    summary, description, component, steps; otherwise it returns a score
    and a breakdown. *)
Theorem calculate_bug_similarity_missing_weight {F} `{Arith F}
    (new_bug existing_bug : gmap string string) (w : gmap string F) :
  calculate_bug_similarity new_bug existing_bug (Some ∅) =
    calculate_bug_similarity new_bug existing_bug None /\
  (w <> ∅ ->
   (forall k, first_missing w = Some k ->
      calculate_bug_similarity new_bug existing_bug (Some w) = Raise (KeyError k)) /\
   (first_missing w = None ->
      exists s b, calculate_bug_similarity new_bug existing_bug (Some w) = Ok (s, b))).
Proof.
  split; [reflexivity|]. intros Hne.
  assert ((size w =? 0) = false) as Hs.
  { destruct (size w =? 0) eqn:E; [|done]. by apply size_zero_empty in E. }
  assert (match first_missing w with
          | Some k =>
              calculate_bug_similarity new_bug existing_bug (Some w) = Raise (KeyError k)
          | None =>
              exists s b, calculate_bug_similarity new_bug existing_bug (Some w) = Ok (s, b)
          end) as Hm.
  { unfold first_missing, weight_keys. cbn [List.find].
    unfold calculate_bug_similarity. rewrite Hs.
    destruct (w !! "summary"%string) as [ws|] eqn:E1.
    2: { rewrite bool_decide_eq_true_2 by done. by rewrite (weight_missing _ _ E1). }
    rewrite bool_decide_eq_false_2 by done. rewrite (weight_lookup _ _ _ E1).
    destruct (w !! "description"%string) as [wd|] eqn:E2.
    2: { rewrite bool_decide_eq_true_2 by done. by rewrite (weight_missing _ _ E2). }
    rewrite bool_decide_eq_false_2 by done. rewrite (weight_lookup _ _ _ E2).
    destruct (w !! "component"%string) as [wc|] eqn:E3.
    2: { rewrite bool_decide_eq_true_2 by done. by rewrite (weight_missing _ _ E3). }
    rewrite bool_decide_eq_false_2 by done. rewrite (weight_lookup _ _ _ E3).
    destruct (w !! "steps"%string) as [wst|] eqn:E4.
    2: { rewrite bool_decide_eq_true_2 by done. by rewrite (weight_missing _ _ E4). }
    rewrite bool_decide_eq_false_2 by done. rewrite (weight_lookup _ _ _ E4).
    cbn [mbind result_bind]. by do 2 eexists. }
  destruct (first_missing w) as [k0|]; split.
  - by intros k [= <-].
  - done.
  - done.
  - by intros _.
Qed.

(** The weights [{'summary': 1.0, 'steps': 0.0}]. *)
Lemma calculate_bug_similarity_missing_weight_witness :
  calculate_bug_similarity (F:=float) new_report near_miss
    (Some (<["summary"%string := lit 1]> (<["steps"%string := lit 0]> ∅))) =
    Raise (KeyError "description").
Proof.
  apply (proj1 (proj2 (calculate_bug_similarity_missing_weight (F:=float)
           new_report near_miss
           (<["summary"%string := lit 1]> (<["steps"%string := lit 0]> ∅)))
         ltac:(intros E; apply (f_equal (fun m => m !! "summary"%string)) in E;
               by rewrite lookup_insert_eq, lookup_empty in E))).
  vm_compute. reflexivity.
Defined.

(** ** [find_duplicates] *)

(** X12: the order of the candidates matters for ties only: two corpora
    with the same candidates in another order give the same matches, up
    to their order. *)
Theorem find_duplicates_permutation {F} `{Arith F}
    (new_bug : gmap string string) (c1 c2 : list (gmap string string)) (threshold : F) :
  c1 ≡ₚ c2 ->
  exists out1 out2,
    find_duplicates new_bug c1 threshold = Ok out1 /\
    find_duplicates new_bug c2 threshold = Ok out2 /\
    out1 ≡ₚ out2.
Proof.
  intros Hp. do 2 eexists.
  split; [apply find_duplicates_retained|].
  split; [apply find_duplicates_retained|].
  rewrite !list_sort_reverse_perm. by apply retained_perm.
Qed.

(** A corpus of three, rotated. *)
Lemma find_duplicates_permutation_witness :
  exists out1 out2,
    find_duplicates (F:=float) new_report [twin_b; near_miss; twin_a] (lit 0.5) = Ok out1 /\
    find_duplicates (F:=float) new_report [near_miss; twin_a; twin_b] (lit 0.5) = Ok out2 /\
    out1 ≡ₚ out2.
Proof.
  apply (find_duplicates_permutation (F:=float)).
  change [twin_b; near_miss; twin_a] with ([twin_b] ++ [near_miss; twin_a]).
  change [near_miss; twin_a; twin_b] with ([near_miss; twin_a] ++ [twin_b]).
  apply Permutation_app_comm.
Defined.

(** X13: candidates are judged one by one: the matches of a corpus
    made of two parts are the matches of the parts taken together, and
    there are never more matches than candidates. *)
Theorem find_duplicates_app {F} `{Arith F}
    (new_bug : gmap string string) (c1 c2 : list (gmap string string)) (threshold : F) :
  exists out1 out2 out,
    find_duplicates new_bug c1 threshold = Ok out1 /\
    find_duplicates new_bug c2 threshold = Ok out2 /\
    find_duplicates new_bug (c1 ++ c2) threshold = Ok out /\
    out ≡ₚ out1 ++ out2 /\
    length out1 <= length c1 /\
    length out <= length c1 + length c2.
Proof.
  do 3 eexists.
  split; [apply find_duplicates_retained|].
  split; [apply find_duplicates_retained|].
  split; [apply find_duplicates_retained|].
  split; [|split].
  - rewrite !list_sort_reverse_perm. by rewrite retained_app.
  - rewrite list_sort_reverse_perm. apply retained_length.
  - rewrite list_sort_reverse_perm, <- length_app. apply retained_length.
Qed.

(** X14: the result is in descending order throughout: every match,
    the first one included, scores at least the threshold; a match
    never scores more than one that stands before it; and the first
    match has the greatest score.  This holds on binary64 and in exact
    arithmetic. *)
Theorem find_duplicates_descending {F} `{!Arith F, !ArithOrder F, !ArithTotal F}
    (new_bug : gmap string string) (candidates : list (gmap string string))
    (threshold : F) :
  exists out,
    find_duplicates new_bug candidates threshold = Ok out /\
    Forall (fun m => fleb threshold (m_similarity m) = true) out /\
    (forall i j x y, i < j -> out !! i = Some x -> out !! j = Some y ->
       fleb (m_similarity y) (m_similarity x) = true) /\
    (forall x y, head out = Some x -> y ∈ out ->
       fleb (m_similarity y) (m_similarity x) = true).
Proof.
  eexists. split; [apply find_duplicates_retained|].
  set (out := list_sort_reverse by_similarity (retained new_bug threshold candidates)).
  assert (Forall (fun m => fleb threshold (m_similarity m) = true) out) as Hall.
  { unfold out. rewrite list_sort_reverse_perm. apply retained_above. }
  assert (StronglySorted (fun x y => fleb (m_similarity y) (m_similarity x) = true) out)
    as Hs.
  { apply (Sorted_descending threshold); [done|].
    apply (list_sort_reverse_Sorted by_similarity). intros x y. apply fltb_asym. }
  split; [exact Hall|]. split.
  - clear Hall.
    induction Hs as [|z l Hs IH Hz]; intros i j x y Hij Hx Hy; [done|].
    destruct j as [|j]; [lia|]. cbn [lookup list_lookup] in Hy.
    destruct i as [|i].
    + injection Hx as <-. rewrite Forall_forall in Hz. apply Hz.
      by apply list_elem_of_lookup_2 in Hy.
    + apply (IH i j); [lia|done|done].
  - intros x y Hx Hy. destruct out as [|z l]; [done|]. injection Hx as ->.
    apply elem_of_cons in Hy as [->|Hy].
    + apply Forall_cons in Hall as [Hx _].
      apply (fleb_total threshold); [done|done|].
      destruct (fltb (m_similarity x) (m_similarity x)) eqn:E; [|done].
      by rewrite (fltb_asym _ _ E) in E.
    + apply StronglySorted_inv in Hs as [_ Hz]. rewrite Forall_forall in Hz. by apply Hz.
Qed.

(** On binary64. *)
Lemma find_duplicates_descending_witness :
  exists out,
    find_duplicates (F:=float) new_report [near_miss; twin_b; twin_a] (lit 0.5) = Ok out /\
    Forall (fun m => fleb (lit 0.5) (m_similarity m) = true) out /\
    (forall i j x y, i < j -> out !! i = Some x -> out !! j = Some y ->
       fleb (m_similarity y) (m_similarity x) = true) /\
    (forall x y, head out = Some x -> y ∈ out ->
       fleb (m_similarity y) (m_similarity x) = true).
Proof. apply (find_duplicates_descending (F:=float)). Defined.

(** X15: thresholds outside the range of the score.  On binary64 a NaN
    threshold ([--threshold nan] is a float for [argparse]) matches
    nothing.  In exact arithmetic a threshold above 1 matches nothing,
    and a threshold of 0 or less returns every candidate.  On binary64
    a threshold above 1 can still match: with the threshold
    [1.0000000000000002], the double that follows 1.0, the candidate
    that is identical to the new report of summary and description
    ["a b c"] is returned, with that score. *)
Theorem find_duplicates_threshold_extremes (new_bug : gmap string string)
    (candidates : list (gmap string string)) :
  find_duplicates (F:=float) new_bug candidates nan = Ok [] /\
  (forall t : R, (1 < t)%R -> find_duplicates (F:=R) new_bug candidates t = Ok []) /\
  (forall t : R, (t <= 0)%R ->
     exists out, find_duplicates (F:=R) new_bug candidates t = Ok out /\
                 out ≡ₚ entry new_bug <$> candidates) /\
  (PrimFloat.ltb (lit 1) (lit 1.0000000000000002) = true /\
   find_duplicates (F:=float) probe_words_new [probe_words] (lit 1.0000000000000002) =
     Ok [Match "Q" "a b c" (lit 1.0000000000000002)
               (Breakdown (lit 1) (lit 1) (lit 1) (lit 1) (lit 1))
               "https://jira.example/browse/Q"]).
Proof.
  split; [|split; [|split]].
  - rewrite find_duplicates_retained, retained_none; [done|].
    intros c. unfold fgeb. cbn [fleb float_arith]. apply float_nan_leb.
  - intros t Ht. rewrite find_duplicates_retained, retained_none; [done|].
    intros c. unfold fgeb. cbn [fleb real_arith].
    destruct (Exact.leb t (score new_bug c)) eqn:E; [|done].
    apply ExactFacts.leb_true in E.
    pose proof (ScoreRange.score_unit new_bug c). lra.
  - intros t Ht. eexists. split; [apply find_duplicates_retained|].
    rewrite list_sort_reverse_perm, retained_all; [done|].
    intros c. unfold fgeb. cbn [fleb real_arith]. apply ExactFacts.leb_true.
    pose proof (ScoreRange.score_unit new_bug c). lra.
  - split; vm_compute; reflexivity.
Qed.

(** ** [format_results] *)

(** X16: the message that it is safe to create a ticket is returned
    exactly when the list of matches is empty; for any other list the
    report opens with the title line and a rule of fifty [=]. *)
Theorem format_results_no_duplicate (matches : list (match_entry float))
    (threshold_high : float) :
  (format_results matches threshold_high = Report.no_duplicate <-> matches = []) /\
  (matches <> [] ->
   exists rest,
     format_results matches threshold_high =
       Report.of_string "Duplicate Check Results:" ++ [10%N] ++
       replicate 50 61%N ++ rest).
Proof.
  split.
  - apply ReportText.format_results_nil_iff.
  - apply ReportText.format_results_opening.
Qed.

(** X17: for a threshold [threshold_high] that is not a NaN, the report
    of a result of [find_duplicates] loses no match and repeats none:
    the high-probability matches are the first entries of the result,
    the possible matches are all the others, and no match is in both. *)
Theorem format_results_tiers (new_bug : gmap string string)
    (candidates : list (gmap string string)) (threshold threshold_high : float) :
  PrimFloat.eqb threshold_high threshold_high = true ->
  exists out,
    find_duplicates new_bug candidates threshold = Ok out /\
    out = Report.high_matches out threshold_high ++
          Report.possible_matches out threshold_high /\
    (forall m, m ∈ Report.high_matches out threshold_high ->
               m ∉ Report.possible_matches out threshold_high).
Proof.
  intros Hth. eexists. split; [apply find_duplicates_retained|].
  split; [by apply ReportFacts.tiers_split|].
  intros m Hh Hp.
  apply list_elem_of_filter in Hh as [Hh _]. apply list_elem_of_filter in Hp as [Hp _].
  unfold fgeb in Hh. cbn [fleb fltb float_arith] in Hh, Hp.
  apply float_leb_ltb_excl in Hh. congruence.
Qed.

(** The default [threshold_high] on a corpus of three. *)
Lemma format_results_tiers_witness :
  exists out,
    find_duplicates (F:=float) new_report [near_miss; twin_b; twin_a] (lit 0.5) = Ok out /\
    out = Report.high_matches out default_threshold_high ++
          Report.possible_matches out default_threshold_high /\
    (forall m, m ∈ Report.high_matches out default_threshold_high ->
               m ∉ Report.possible_matches out default_threshold_high).
Proof. apply format_results_tiers. reflexivity. Defined.

(** X18: the recommendation is decided by the first match alone.  For
    a result of [find_duplicates] and a threshold [threshold_high] that
    is not a NaN, the report ends with the advice to review the first
    match when that match reaches [threshold_high], and with the advice
    to check the possible duplicates when it does not. *)
Theorem format_results_recommendation (new_bug : gmap string string)
    (candidates : list (gmap string string)) (threshold threshold_high : float)
    (out : list (match_entry float)) (m : match_entry float) :
  PrimFloat.eqb threshold_high threshold_high = true ->
  find_duplicates new_bug candidates threshold = Ok out ->
  head out = Some m ->
  exists pre,
    format_results out threshold_high =
      pre ++ [10%N] ++ Report.of_string "   " ++ [8594%N] ++
      (if PrimFloat.leb threshold_high (m_similarity m)
       then Report.of_string " Review " ++ Report.of_string (m_key m) ++
            Report.of_string " before creating new bug."
       else Report.of_string
              " Check possible duplicates or add more details to differentiate.").
Proof.
  intros Hth Hout Hhd. rewrite find_duplicates_retained in Hout. injection Hout as <-.
  pose proof (ReportFacts.tiers_split new_bug candidates threshold threshold_high Hth)
    as Hsplit. cbn zeta in Hsplit.
  remember (list_sort_reverse by_similarity (retained new_bug threshold candidates))
    as out eqn:Eout.
  destruct out as [|m0 rest]; [done|]. injection Hhd as ->.
  unfold format_results. cbn [is_nil].
  destruct (ReportFacts.report_lines_last (m :: rest) threshold_high) as (pre & Hpre & ->).
  rewrite ReportFacts.join_snoc by done.
  exists (Report.join [10%N] pre). do 2 f_equal.
  destruct (PrimFloat.leb threshold_high (m_similarity m)) eqn:E.
  - unfold Report.high_matches at 1. rewrite filter_cons.
    rewrite decide_True by exact E. reflexivity.
  - assert (Report.high_matches (m :: rest) threshold_high = []) as Hh.
    { destruct (Report.high_matches (m :: rest) threshold_high) as [|h hs] eqn:Eh; [done|].
      exfalso. injection Hsplit as <- _.
      assert (m ∈ Report.high_matches (m :: rest) threshold_high) as Hin
        by (rewrite Eh; by left).
      apply list_elem_of_filter in Hin as [Hin _]. unfold fgeb in Hin.
      cbn [fleb float_arith] in Hin. congruence. }
    rewrite Hh in *. cbn [app] in Hsplit. rewrite <- Hsplit. reflexivity.
Qed.

(** The first match of the corpus of three is [B]. *)
Lemma format_results_recommendation_witness :
  exists pre,
    format_results
      (list_sort_reverse by_similarity
         (retained (F:=float) new_report (lit 0.5) [near_miss; twin_b; twin_a]))
      default_threshold_high =
      pre ++ [10%N] ++ Report.of_string "   " ++ [8594%N] ++
      (if PrimFloat.leb default_threshold_high
            (m_similarity (entry (F:=float) new_report twin_b))
       then Report.of_string " Review " ++
            Report.of_string (m_key (entry (F:=float) new_report twin_b)) ++
            Report.of_string " before creating new bug."
       else Report.of_string
              " Check possible duplicates or add more details to differentiate.").
Proof.
  apply (format_results_recommendation new_report [near_miss; twin_b; twin_a]
           (lit 0.5) default_threshold_high);
    [reflexivity | apply find_duplicates_retained | vm_compute; reflexivity].
Defined.

(** X19: with a NaN for [threshold_high] both comparisons fail for every
    match: whatever the matches are, as long as there is one, the report
    lists none of them and ends with the line that no duplicates were
    found.  A result of [find_duplicates] never gets that line when
    [threshold_high] is not a NaN (X18). *)
Theorem format_results_nan_threshold (matches : list (match_entry float)) :
  matches <> [] ->
  format_results matches nan =
    Report.join [10%N]
      [Report.of_string "Duplicate Check Results:"; replicate 50 61%N;
       [10%N; 128203%N] ++ Report.of_string " Recommendation:";
       Report.of_string "   " ++ [8594%N] ++
       Report.of_string " No duplicates found. Proceed with ticket creation."].
Proof.
  intros Hm. unfold format_results. destruct matches as [|m ms]; [done|]. cbn [is_nil].
  unfold Report.report_lines. cbn zeta.
  assert (Report.high_matches (m :: ms) nan = []) as ->.
  { apply ReportFacts.filter_none, Forall_forall. intros x _.
    unfold fgeb. cbn [fleb float_arith]. by rewrite float_nan_leb. }
  assert (Report.possible_matches (m :: ms) nan = []) as ->.
  { apply ReportFacts.filter_none, Forall_forall. intros x _.
    cbn [fltb float_arith]. by rewrite float_nan_ltb. }
  reflexivity.
Qed.

(** One match. *)
Lemma format_results_nan_threshold_witness :
  format_results [entry (F:=float) new_report twin_b] nan =
    Report.join [10%N]
      [Report.of_string "Duplicate Check Results:"; replicate 50 61%N;
       [10%N; 128203%N] ++ Report.of_string " Recommendation:";
       Report.of_string "   " ++ [8594%N] ++
       Report.of_string " No duplicates found. Proceed with ticket creation."].
Proof. apply format_results_nan_threshold. discriminate. Defined.

(** ** The functions together *)

(** X20: checking and reporting together: the report of the result of
    [find_duplicates] is the message that it is safe to create a ticket
    exactly when no candidate scores at least the threshold, whatever
    [threshold_high] is. *)
Theorem format_results_safe_to_create (new_bug : gmap string string)
    (candidates : list (gmap string string)) (threshold threshold_high : float) :
  exists out,
    find_duplicates new_bug candidates threshold = Ok out /\
    (format_results out threshold_high = Report.no_duplicate <->
     Forall (fun c => PrimFloat.leb threshold (score new_bug c) = false) candidates).
Proof.
  eexists. split; [apply find_duplicates_retained|].
  rewrite ReportText.format_results_nil_iff. split.
  - intros E. apply Forall_forall. intros c Hc.
    destruct (PrimFloat.leb threshold (score new_bug c)) eqn:El; [|done]. exfalso.
    assert (entry new_bug c ∈
              list_sort_reverse by_similarity (retained new_bug threshold candidates)) as Hin.
    { rewrite list_sort_reverse_perm. apply elem_of_retained. by exists c. }
    rewrite E in Hin. by apply elem_of_nil in Hin.
  - intros Hall. unfold retained. rewrite ReportFacts.filter_none; [done|].
    eapply Forall_impl; [exact Hall|]. intros c Hc. unfold fgeb.
    cbn [fleb float_arith]. by rewrite Hc.
Qed.

(** X21: swapping the new report and the existing one.  On binary64 the
    summary, description and component similarities are the same both
    ways.  The steps similarity is not: the matcher gives 0.25 for
    ["tide"] against ["diet"] and 0.5 the other way round, and two
    reports that differ in these steps only score differently when
    swapped. *)
Theorem field_similarities_swap (new_bug existing_bug : gmap string string) :
  summary_sim (F:=float) new_bug existing_bug = summary_sim existing_bug new_bug /\
  desc_sim (F:=float) new_bug existing_bug = desc_sim existing_bug new_bug /\
  comp_sim (F:=float) new_bug existing_bug = comp_sim existing_bug new_bug /\
  sequence_similarity (F:=float) "tide" "diet" = lit 0.25 /\
  sequence_similarity (F:=float) "diet" "tide" = lit 0.5 /\
  PrimFloat.ltb
    (score (F:=float) (report "N" "a" "a" "c" "tide") (report "E" "a" "a" "c" "diet"))
    (score (F:=float) (report "E" "a" "a" "c" "diet") (report "N" "a" "a" "c" "tide"))
    = true.
Proof.
  split; [|split; [|split]].
  - unfold summary_sim.
    rewrite (cosine_similarity_comm (F:=float)) by apply Binary64Mul.float_mul_comm.
    by rewrite keyword_overlap_comm.
  - unfold desc_sim. apply cosine_similarity_comm, Binary64Mul.float_mul_comm.
  - apply comp_sim_comm.
  - repeat split; vm_compute; reflexivity.
Qed.

(** Percentages as the report shows them: the product with 100 is
    rounded to an integer, ties to even. *)
Example percent_examples :
  Report.percent (lit 0.9) = Report.of_string "90%" /\
  Report.percent (score (F:=float) new_report near_miss) = Report.of_string "70%" /\
  Report.percent (lit 0.285) = Report.of_string "28%" /\
  Report.percent (lit 0.005) = Report.of_string "0%" /\
  Report.percent (lit 0.015) = Report.of_string "2%" /\
  Report.percent nan = Report.of_string "nan%".
Proof. repeat split; vm_compute; reflexivity. Qed.
